(** * CodeFormatManager: provider registry, dispatch and per-buffer arbitration

    A shallow embedding of nuclide's [CodeFormatManager] (the class that
    owns the list of code-format providers and reacts to the command, type
    and save events of a text buffer), followed by the properties of the
    registry, of the trigger heuristics, of the dispatcher and of the
    per-buffer event arbiter.

    JavaScript values are modelled as follows.
    - numbers that the code only compares or increments (priorities, rows,
      columns, array indices) are [Z];
    - strings are [string]; a one-character string such as [s[i]] is an
      [option ascii] ([None] for [undefined]);
    - arrays are [list]s; [push], [indexOf], [splice], [filter] and [sort]
      are written out below;
    - object identity ([===] on providers) is a reference number carried by
      the provider record;
    - promises and observables are modelled by the events that settle them:
      the asynchronous part of the manager is a step function on the state
      of one buffer group. *)

From Stdlib Require Import List String Ascii ZArith Bool Lia Arith.
From Stdlib Require Import Permutation Sorted.
Import ListNotations.

Local Open Scope string_scope.
Local Open Scope list_scope.

(* ================================================================== *)
(** ** JavaScript arrays *)
(* ================================================================== *)

(** [ToNumber] on a boolean, as applied by [Array.prototype.sort] to the
    value returned by the comparison callback. *)
Definition ToNumber_bool (b : bool) : Z := if b then 1%Z else 0%Z.

Section ArraySort.
Context {A : Type}.

(** A consistent comparison function in the sense of ECMAScript
    (22.1.3.25): the sign of [cmp a b] is a total preorder. *)
Record consistent (cmp : A -> A -> Z) : Prop := {
  cmp_antisym : forall a b, Z.sgn (cmp a b) = (- Z.sgn (cmp b a))%Z;
  cmp_trans : forall a b c,
      (cmp a b <= 0)%Z -> (cmp b c <= 0)%Z -> (cmp a c <= 0)%Z
}.

(** Insertion into a sorted prefix, scanning from its right end.  The
    prefix is kept reversed, so its head is the element next to the
    insertion point.  [shift y x] tells whether the stored element [y]
    has to move one slot to the right of the new element [x]. *)
Variable shift : A -> A -> bool.

Fixpoint insert_back (x : A) (racc : list A) : list A :=
  match racc with
  | [] => [x]
  | y :: r => if shift y x then y :: insert_back x r else x :: racc
  end.

Definition insertion_sort (l : list A) : list A :=
  rev (fold_left (fun racc x => insert_back x racc) l []).
End ArraySort.

(** The two ways engines consult the comparator during an insertion.
    - V8 up to 6.x, for arrays of at most ten elements:
      [order = comparefn(tmp, element); if (order > 0) a[j + 1] = tmp].
    - merge-based engines (V8 from 7.0 on, inside TimSort runs):
      [order = comparefn(pivot, a[mid]); if (order < 0) right = mid]. *)
Definition shift_if_positive {A} (cmp : A -> A -> Z) (y x : A) : bool :=
  (0 <? cmp y x)%Z.

Definition shift_if_negative {A} (cmp : A -> A -> Z) (y x : A) : bool :=
  (cmp x y <? 0)%Z.

Definition sort_legacy {A} (cmp : A -> A -> Z) (l : list A) : list A :=
  insertion_sort (shift_if_positive cmp) l.

Definition sort_modern {A} (cmp : A -> A -> Z) (l : list A) : list A :=
  insertion_sort (shift_if_negative cmp) l.

(** What ECMAScript promises about [Array.prototype.sort]: the result is a
    rearrangement of the array and, when the comparison function is
    consistent, it is sorted and equal elements keep their order.  With an
    inconsistent comparison function the order is implementation-defined. *)
Record JsEngine : Type := {
  Array_sort : forall A : Type, (A -> A -> Z) -> list A -> list A;
  sort_permutation :
    forall A (cmp : A -> A -> Z) l, Permutation l (Array_sort A cmp l);
  sort_sorted :
    forall A (cmp : A -> A -> Z) l, consistent cmp ->
      StronglySorted (fun a b => (cmp a b <= 0)%Z) (Array_sort A cmp l);
  sort_stable :
    forall A (cmp : A -> A -> Z) l, consistent cmp ->
      forall z, filter (fun y => (cmp z y =? 0)%Z) (Array_sort A cmp l)
                = filter (fun y => (cmp z y =? 0)%Z) l
}.

(** [Array.prototype.splice(start)] with the delete count left out: every
    element from [start] to the end is removed.  A negative [start] counts
    from the end of the array. *)
Definition Array_splice_from {A} (start : Z) (l : list A) : list A :=
  let len := Z.of_nat (List.length l) in
  let actualStart :=
    if (start <? 0)%Z then Z.max (len + start) 0 else Z.min start len in
  firstn (Z.to_nat actualStart) l.

(** [String.prototype.split] with the pattern [/, ?/]: a comma, and one
    space after it when there is one, separates two fields. *)
Fixpoint split_comma (s cur : string) : list string :=
  match s with
  | EmptyString => [cur]
  | String c rest =>
      if Ascii.eqb c ","
      then match rest with
           | String c' rest' =>
               if Ascii.eqb c' " "
               then cur :: split_comma rest' ""
               else cur :: split_comma rest ""
           | EmptyString => cur :: split_comma rest ""
           end
      else split_comma rest (cur ++ String c "")
  end.

(* ================================================================== *)
(** ** The provider registry *)
(* ================================================================== *)

(** A [CodeFormatProvider].  [ref] stands for the identity of the object;
    the three flags say which of the optional methods are defined. *)
Record CodeFormatProvider : Type := {
  ref : nat;
  selector : string;
  inclusionPriority : Z;
  has_formatCode : bool;
  has_formatEntireFile : bool;
  has_formatAtPosition : bool
}.

Definition same_provider (p q : CodeFormatProvider) : bool :=
  Nat.eqb (ref p) (ref q).

(** [array.indexOf(p)]: the first index holding [p], or [-1]. *)
Fixpoint indexOf (l : list CodeFormatProvider) (p : CodeFormatProvider) : Z :=
  match l with
  | [] => (-1)%Z
  | q :: l' =>
      if same_provider q p then 0%Z
      else let i := indexOf l' p in
           if (i =? -1)%Z then (-1)%Z else (i + 1)%Z
  end.

(** The callback given to [sort] in [_getMatchingProvidersForScopeName]:
    it returns the boolean [providerA.inclusionPriority <
    providerB.inclusionPriority]. *)
Definition priority_comparefn (providerA providerB : CodeFormatProvider) : Z :=
  ToNumber_bool (inclusionPriority providerA <? inclusionPriority providerB)%Z.

Definition provider_matches (scopeName : string) (provider : CodeFormatProvider)
  : bool :=
  let providerGrammars := split_comma (selector provider) "" in
  (0 <? inclusionPriority provider)%Z
  && existsb (String.eqb scopeName) providerGrammars.

Definition getMatchingProvidersForScopeName (E : JsEngine)
    (codeFormatProviders : list CodeFormatProvider) (scopeName : string)
  : list CodeFormatProvider :=
  let matchingProviders :=
    filter (provider_matches scopeName) codeFormatProviders in
  Array_sort E _ priority_comparefn matchingProviders.

(** [addProvider]: the new registry, and the function run by the
    disposable it returns. *)
Definition addProvider (codeFormatProviders : list CodeFormatProvider)
    (provider : CodeFormatProvider) : list CodeFormatProvider :=
  codeFormatProviders ++ [provider].

Definition addProvider_dispose (codeFormatProviders : list CodeFormatProvider)
    (provider : CodeFormatProvider) : list CodeFormatProvider :=
  let index := indexOf codeFormatProviders provider in
  if negb (index =? -1)%Z
  then Array_splice_from index codeFormatProviders
  else codeFormatProviders.

(* ================================================================== *)
(** ** The host editor *)
(* ================================================================== *)

(** [atom.Point] and [atom.Range]. *)
Record Point : Type := { row : Z; column : Z }.

Definition Point_isEqual (a b : Point) : bool :=
  (row a =? row b)%Z && (column a =? column b)%Z.

Definition Point_isLessThanOrEqual (a b : Point) : bool :=
  (row a <? row b)%Z || ((row a =? row b)%Z && (column a <=? column b)%Z).

Definition Point_translate (p : Point) (rows columns : Z) : Point :=
  {| row := row p + rows; column := column p + columns |}.

Record Range : Type := { start : Point; end_ : Point }.

(** [new Range(pointA, pointB)] puts the smaller point first. *)
Definition new_Range (pointA pointB : Point) : Range :=
  if Point_isLessThanOrEqual pointA pointB
  then {| start := pointA; end_ := pointB |}
  else {| start := pointB; end_ := pointA |}.

Definition Range_isEmpty (r : Range) : bool :=
  Point_isEqual (start r) (end_ r).

Record TextEdit : Type := { oldRange : Range; newText_of_edit : string }.

(** What the manager reads from an [atom$TextEditor] and its buffer:
    [getGrammar().scopeName], [getText()], [getSelectedBufferRange()] and
    [getCursorBufferPosition()]. *)
Record TextEditor : Type := {
  scopeName : string;
  text : string;
  selectedBufferRange : Range;
  cursorBufferPosition : Point
}.

(** The operations of the host that the manager calls and that live
    outside this repository's file: they are taken as they come. *)
Record AtomHost : Type := {
  buffer_getRange : TextEditor -> Range;
  applyTextEditsToBuffer : TextEditor -> list TextEdit -> bool * TextEditor;
  buffer_setTextViaDiff : TextEditor -> string -> TextEditor;
  buffer_positionForCharacterIndex : TextEditor -> Z -> Point;
  editor_setCursorBufferPosition : TextEditor -> Point -> TextEditor
}.

(** Configuration read at trigger time: [getFormatOnSave()],
    [getFormatOnType()], whether the bracket-matcher package is active and
    its [autocompleteCharacters] setting. *)
Record AtomConfig : Type := {
  getFormatOnSave : bool;
  getFormatOnType : bool;
  bracketMatcherActive : bool;
  autocompleteCharacters : list string
}.

(** [atom$TextEditEvent], restricted to the fields that are read. *)
Record TextEditEvent : Type := { oldText : string; newText : string }.

(* ================================================================== *)
(** ** The on-type heuristic *)
(* ================================================================== *)

Definition isBracketPair (cfg : AtomConfig) (typedText : string) : bool :=
  if negb (bracketMatcherActive cfg) then false
  else
    let validBracketPairs := autocompleteCharacters cfg in
    existsb (String.eqb typedText) validBracketPairs.

Definition shouldFormatOnType (cfg : AtomConfig) (event : TextEditEvent)
  : bool :=
  if negb (String.eqb (oldText event) "") then false
  else if String.eqb (oldText event) "" && String.eqb (newText event) ""
  then false
  else if (1 <? String.length (newText event))%nat
          && negb (isBracketPair cfg (newText event))
  then false
  else true.

(** [event.newText[event.newText.length - 1]]. *)
Definition last_character (s : string) : option ascii :=
  match String.length s with
  | O => None
  | S n => String.get n s
  end.

(* ================================================================== *)
(** ** The dispatcher *)
(* ================================================================== *)

(** A call of a provider method; the promise it returns is settled later
    by the provider. *)
Inductive ProviderCall : Type :=
| Call_formatCode (provider : CodeFormatProvider) (range : Range)
| Call_formatEntireFile (provider : CodeFormatProvider) (range : Range)
| Call_formatAtPosition (provider : CodeFormatProvider) (position : Point)
    (character : option ascii).

(** The value a provider promise resolves to. *)
Inductive ProviderValue : Type :=
| EditsValue (edits : list TextEdit)
| EntireFileValue (newCursor : option Z) (formatted : string).

Inductive Settlement : Type :=
| Resolved (v : ProviderValue)
| Rejected (message : string).

(** The [map] callback waiting for the promise, with the snapshot
    [contents] it closed over. *)
Inductive Continuation : Type :=
| Then_formatCode (contents : string)
| Then_formatEntireFile (contents : string)
| Then_formatAtPosition (contents : string).

(** What an inner observable is waiting for. *)
Inductive Phase : Type :=
| AwaitNextTick (provider : CodeFormatProvider) (character : option ascii)
    (contents : string)
| AwaitProvider (k : Continuation).

(** The outcome of subscribing to one of the deferred observables. *)
Inductive Subscribed : Type :=
| Sub_error (message : string)
| Sub_complete
| Sub_wait (ph : Phase) (calls : list ProviderCall).

Definition stale_message : string :=
  "The file contents were changed before formatting was complete.".

Definition apply_failed_message : string :=
  "Could not apply edits to text buffer.".

Definition no_provider_message (scope : string) : string :=
  "No Code-Format providers registered for scope: " ++ scope.

Definition must_implement_message : string :=
  "code-format providers must implement formatCode or formatEntireFile".

(** [_checkContentsAreSame]: [Some message] when it throws. *)
Definition checkContentsAreSame (before after : string) : option string :=
  if negb (String.eqb before after) then Some stale_message else None.

Section Dispatcher.
Variable E : JsEngine.
Variable H : AtomHost.

(** The range computed by [_formatCodeInTextEditor]. *)
Definition formatRange_of (editor : TextEditor) : Range :=
  let selectionRange := selectedBufferRange editor in
  let selectionStart := start selectionRange in
  let selectionEnd := end_ selectionRange in
  let selectionRangeEmpty := Range_isEmpty selectionRange in
  if selectionRangeEmpty then buffer_getRange H editor
  else
    new_Range
      {| row := row selectionStart; column := 0 |}
      (if (column selectionEnd =? 0)%Z then selectionEnd
       else {| row := row selectionEnd + 1; column := 0 |}).

Definition command_capable (provider : CodeFormatProvider) : bool :=
  has_formatCode provider || has_formatEntireFile provider.

(** The body of the [Observable.defer] of [_formatCodeInTextEditor], up
    to the provider call. *)
Definition formatCodeInTextEditor
    (codeFormatProviders : list CodeFormatProvider) (editor : TextEditor)
  : Subscribed :=
  let matchingProviders :=
    filter command_capable
      (getMatchingProvidersForScopeName E codeFormatProviders
         (scopeName editor)) in
  match matchingProviders with
  | [] => Sub_error (no_provider_message (scopeName editor))
  | provider :: _ =>
      let selectionRangeEmpty :=
        Range_isEmpty (selectedBufferRange editor) in
      let formatRange := formatRange_of editor in
      let contents := text editor in
      if has_formatCode provider
         && (negb selectionRangeEmpty
             || negb (has_formatEntireFile provider))
      then Sub_wait (AwaitProvider (Then_formatCode contents))
             [Call_formatCode provider formatRange]
      else if has_formatEntireFile provider
      then Sub_wait (AwaitProvider (Then_formatEntireFile contents))
             [Call_formatEntireFile provider formatRange]
      else Sub_error must_implement_message
  end.

Definition formatCodeOnSaveInTextEditor := formatCodeInTextEditor.

(** The body of the [Observable.defer] of
    [_formatCodeOnTypeInTextEditor], up to [nextTick]. *)
Definition formatCodeOnTypeInTextEditor (cfg : AtomConfig)
    (codeFormatProviders : list CodeFormatProvider) (editor : TextEditor)
    (event : TextEditEvent) : Subscribed :=
  if negb (shouldFormatOnType cfg event) || negb (getFormatOnType cfg)
  then Sub_complete
  else
    let character := last_character (newText event) in
    let matchingProviders :=
      filter has_formatAtPosition
        (getMatchingProvidersForScopeName E codeFormatProviders
           (scopeName editor)) in
    match matchingProviders with
    | [] => Sub_complete
    | provider :: _ =>
        let contents := text editor in
        Sub_wait (AwaitNextTick provider character contents) []
    end.

(** The projection given to [nextTick.switchMap]. *)
Definition formatAtPosition_call (provider : CodeFormatProvider)
    (character : option ascii) (editor : TextEditor) : ProviderCall :=
  Call_formatAtPosition provider
    (Point_translate (cursorBufferPosition editor) 0 (-1)) character.

(** The [map] callbacks.  Each returns the editor after the callback and
    the message of the error it threw, if any. *)
Definition then_apply_edits (contents : string) (editor : TextEditor)
    (edits : list TextEdit) : TextEditor * option string :=
  match checkContentsAreSame contents (text editor) with
  | Some message => (editor, Some message)
  | None =>
      let (applied, editor') := applyTextEditsToBuffer H editor edits in
      if negb applied then (editor', Some apply_failed_message)
      else (editor', None)
  end.

Definition then_formatCode := then_apply_edits.

Definition then_formatEntireFile (contents : string) (editor : TextEditor)
    (newCursor : option Z) (formatted : string)
  : TextEditor * option string :=
  match checkContentsAreSame contents (text editor) with
  | Some message => (editor, Some message)
  | None =>
      let editor1 := buffer_setTextViaDiff H editor formatted in
      let newPosition :=
        match newCursor with
        | Some index => buffer_positionForCharacterIndex H editor1 index
        | None => cursorBufferPosition editor1
        end in
      (editor_setCursorBufferPosition H editor1 newPosition, None)
  end.

Definition then_formatAtPosition (contents : string) (editor : TextEditor)
    (edits : list TextEdit) : TextEditor * option string :=
  match edits with
  | [] => (editor, None)
  | _ :: _ => then_apply_edits contents editor edits
  end.

(** A value of the wrong shape reaches none of the callbacks under the
    Flow types of the providers; at run time the callback would fail on
    it. *)
Definition type_error_message : string := "TypeError".

Definition run_continuation (k : Continuation) (editor : TextEditor)
    (s : Settlement) : TextEditor * option string :=
  match s with
  | Rejected message => (editor, Some message)
  | Resolved v =>
      match k, v with
      | Then_formatCode contents, EditsValue edits =>
          then_formatCode contents editor edits
      | Then_formatEntireFile contents, EntireFileValue newCursor formatted =>
          then_formatEntireFile contents editor newCursor formatted
      | Then_formatAtPosition contents, EditsValue edits =>
          then_formatAtPosition contents editor edits
      | _, _ => (editor, Some type_error_message)
      end
  end.
End Dispatcher.

(* ================================================================== *)
(** ** The per-buffer arbiter *)
(* ================================================================== *)

(** Save events are critical, so don't allow providers to block them. *)
Definition SAVE_TIMEOUT : Z := 2500.

(** The message of the error raised by the [timeout] operator. *)
Definition timeout_message : string := "Timeout has occurred".

(** A [FormatEvent] of the group of one buffer (its [editor] is the
    editor of the group). *)
Inductive FormatEvent : Type :=
| type_command
| type_save
| type_type (edit : TextEditEvent).

Definition is_save (event : FormatEvent) : bool :=
  match event with type_save => true | _ => false end.

(** What the manager does to the outside world. *)
Inductive Effect : Type :=
| Notifications_addError (title description : string)
| Logger_warn (message error : string)
| Buffer_save
| Timer_start (ms : Z)
| Provider_call (c : ProviderCall).

(** An inner observable of the [switchMap]: the handling of one event.
    It is [Active] from its subscription until it completes or errors
    ([Completed]) or is unsubscribed ([Abandoned]). *)
Inductive Status : Type := Active | Completed | Abandoned.

Record Operation : Type := {
  op_id : nat;
  op_event : FormatEvent;
  op_phase : option Phase;
  op_status : Status
}.

Definition is_active (o : Operation) : bool :=
  match op_status o with Active => true | _ => false end.

(** The state of the manager for one buffer: the editor, the registry,
    the configuration, every inner observable created so far, the
    [innerSubscription] of the [switchMap], and whether the manager has
    been disposed. *)
Record Group : Type := {
  editor : TextEditor;
  codeFormatProviders : list CodeFormatProvider;
  config : AtomConfig;
  operations : list Operation;
  innerSubscription : option nat;
  nextId : nat;
  disposed : bool
}.

Definition new_Group (ed : TextEditor) (cfg : AtomConfig) : Group :=
  {| editor := ed; codeFormatProviders := []; config := cfg;
     operations := []; innerSubscription := None; nextId := 0;
     disposed := false |}.

(** What reaches the manager. *)
Inductive Event : Type :=
| FormatEventArrives (event : FormatEvent)
| NextTick (id : nat)
| PromiseSettles (id : nat) (s : Settlement)
| TimeoutFires (id : nat)
| BufferDestroyed
| ManagerDisposed
| HostChanges (ed : TextEditor)
| ConfigChanges (cfg : AtomConfig)
| ProviderAdded (provider : CodeFormatProvider)
| ProviderDisposed (provider : CodeFormatProvider).

Definition Log : Type := list (nat * Effect).

Definition tag (id : nat) (l : list Effect) : Log := map (pair id) l.

Definition effects_of (id : nat) (log : Log) : list Effect :=
  map snd (filter (fun e => Nat.eqb (fst e) id) log).

(** The [catch] of each case of [_handleEvent]. *)
Definition catch_effects (event : FormatEvent) (message : string)
  : list Effect :=
  match event with
  | type_command => [Notifications_addError "Failed to format code" message]
  | type_type _ => [Logger_warn "Failed to format code on type:" message]
  | type_save => [Logger_warn "Failed to format code on save:" message]
  end.

(** The [finally] of the save case: it runs when the observable
    completes, errors or is unsubscribed. *)
Definition finally_effects (event : FormatEvent) : list Effect :=
  match event with
  | type_save => [Buffer_save]
  | _ => []
  end.

Definition terminate_effects (event : FormatEvent) (error : option string)
  : list Effect :=
  match error with
  | Some message => catch_effects event message
  | None => []
  end ++ finally_effects event.

Definition find_op (id : nat) (ops : list Operation) : option Operation :=
  find (fun o => Nat.eqb (op_id o) id) ops.

Definition update_op (id : nat) (f : Operation -> Operation)
    (ops : list Operation) : list Operation :=
  map (fun o => if Nat.eqb (op_id o) id then f o else o) ops.

Definition with_status (st : Status) (o : Operation) : Operation :=
  {| op_id := op_id o; op_event := op_event o; op_phase := op_phase o;
     op_status := st |}.

Definition with_phase (ph : Phase) (o : Operation) : Operation :=
  {| op_id := op_id o; op_event := op_event o; op_phase := Some ph;
     op_status := op_status o |}.

Definition set_operations (g : Group) (ops : list Operation)
    (inner : option nat) : Group :=
  {| editor := editor g; codeFormatProviders := codeFormatProviders g;
     config := config g; operations := ops; innerSubscription := inner;
     nextId := nextId g; disposed := disposed g |}.

Definition set_editor (g : Group) (ed : TextEditor) : Group :=
  {| editor := ed; codeFormatProviders := codeFormatProviders g;
     config := config g; operations := operations g;
     innerSubscription := innerSubscription g;
     nextId := nextId g; disposed := disposed g |}.

Section Arbiter.
Variable E : JsEngine.
Variable H : AtomHost.

(** [switchMap] unsubscribes from its inner observable, if it has one
    that is still open. *)
Definition unsubscribe_inner (g : Group) : Group * Log :=
  match innerSubscription g with
  | None => (g, [])
  | Some id =>
      match find_op id (operations g) with
      | Some o =>
          if is_active o
          then (set_operations g
                  (update_op id (with_status Abandoned) (operations g))
                  None,
                tag id (finally_effects (op_event o)))
          else (set_operations g (operations g) None, [])
      | None => (set_operations g (operations g) None, [])
      end
  end.

(** Subscription to [_handleEvent(event)]. *)
Definition subscribe_handleEvent (g : Group) (event : FormatEvent)
  : Group * Log :=
  let id := nextId g in
  let armed :=
    match event with
    | type_save => [Timer_start SAVE_TIMEOUT]
    | _ => []
    end in
  let sub :=
    match event with
    | type_command =>
        formatCodeInTextEditor E H (codeFormatProviders g) (editor g)
    | type_type edit =>
        formatCodeOnTypeInTextEditor E (config g) (codeFormatProviders g)
          (editor g) edit
    | type_save =>
        formatCodeOnSaveInTextEditor E H (codeFormatProviders g) (editor g)
    end in
  let record (ph : option Phase) (st : Status) (inner : option nat) :=
    {| editor := editor g; codeFormatProviders := codeFormatProviders g;
       config := config g;
       operations :=
         {| op_id := id; op_event := event; op_phase := ph;
            op_status := st |} :: operations g;
       innerSubscription := inner;
       nextId := S id; disposed := disposed g |} in
  match sub with
  | Sub_error message =>
      (record None Completed None,
       tag id (armed ++ terminate_effects event (Some message)))
  | Sub_complete =>
      (record None Completed None,
       tag id (armed ++ terminate_effects event None))
  | Sub_wait ph calls =>
      (record (Some ph) Active (Some id),
       tag id (armed ++ map Provider_call calls))
  end.

(** The inner observable [id] completes or errors. *)
Definition complete_op (g : Group) (o : Operation) (ed : TextEditor)
    (error : option string) : Group * Log :=
  (set_operations (set_editor g ed)
     (update_op (op_id o) (with_status Completed) (operations g)) None,
   tag (op_id o) (terminate_effects (op_event o) error)).

Definition step (g : Group) (e : Event) : Group * Log :=
  match e with
  | FormatEventArrives event =>
      if disposed g then (g, [])
      else
        let (g1, log1) := unsubscribe_inner g in
        let (g2, log2) := subscribe_handleEvent g1 event in
        (g2, log1 ++ log2)
  | NextTick id =>
      match find_op id (operations g) with
      | Some o =>
          match is_active o, op_phase o with
          | true, Some (AwaitNextTick provider character contents) =>
              (set_operations g
                 (update_op id
                    (with_phase
                       (AwaitProvider (Then_formatAtPosition contents)))
                    (operations g))
                 (innerSubscription g),
               tag id [Provider_call
                         (formatAtPosition_call provider character
                            (editor g))])
          | _, _ => (g, [])
          end
      | None => (g, [])
      end
  | PromiseSettles id s =>
      match find_op id (operations g) with
      | Some o =>
          match is_active o, op_phase o with
          | true, Some (AwaitProvider k) =>
              let (ed, error) := run_continuation H k (editor g) s in
              complete_op g o ed error
          | _, _ => (g, [])
          end
      | None => (g, [])
      end
  | TimeoutFires id =>
      match find_op id (operations g) with
      | Some o =>
          if is_active o && is_save (op_event o)
          then complete_op g o (editor g) (Some timeout_message)
          else (g, [])
      | None => (g, [])
      end
  | BufferDestroyed => unsubscribe_inner g
  | ManagerDisposed =>
      let (g1, log1) := unsubscribe_inner g in
      ({| editor := editor g1; codeFormatProviders := [];
          config := config g1; operations := operations g1;
          innerSubscription := innerSubscription g1;
          nextId := nextId g1; disposed := true |}, log1)
  | HostChanges ed => (set_editor g ed, [])
  | ConfigChanges cfg =>
      ({| editor := editor g; codeFormatProviders := codeFormatProviders g;
          config := cfg; operations := operations g;
          innerSubscription := innerSubscription g;
          nextId := nextId g; disposed := disposed g |}, [])
  | ProviderAdded provider =>
      ({| editor := editor g;
          codeFormatProviders :=
            addProvider (codeFormatProviders g) provider;
          config := config g; operations := operations g;
          innerSubscription := innerSubscription g;
          nextId := nextId g; disposed := disposed g |}, [])
  | ProviderDisposed provider =>
      ({| editor := editor g;
          codeFormatProviders :=
            addProvider_dispose (codeFormatProviders g) provider;
          config := config g; operations := operations g;
          innerSubscription := innerSubscription g;
          nextId := nextId g; disposed := disposed g |}, [])
  end.

Fixpoint run (g : Group) (trace : list Event) : Group * Log :=
  match trace with
  | [] => (g, [])
  | e :: trace' =>
      let (g1, log1) := step g e in
      let (g2, log2) := run g1 trace' in
      (g2, log1 ++ log2)
  end.
End Arbiter.

Definition active_count (g : Group) : nat :=
  List.length (filter is_active (operations g)).

(** The save events that reach the [switchMap] of the group: none does
    once the manager is disposed. *)
Fixpoint delivered_saves (trace : list Event) : nat :=
  match trace with
  | [] => 0
  | ManagerDisposed :: _ => 0
  | FormatEventArrives type_save :: trace' => S (delivered_saves trace')
  | _ :: trace' => delivered_saves trace'
  end.

Definition save_operations (g : Group) : list Operation :=
  filter (fun o => is_save (op_event o)) (operations g).

(* ================================================================== *)
(** ** Two conforming engines *)
(* ================================================================== *)

Section InsertionSortFacts.
Context {A : Type}.
Variable shift : A -> A -> bool.

Lemma insert_back_permutation (x : A) (racc : list A) :
  Permutation (x :: racc) (insert_back shift x racc).
Proof.
  induction racc as [|y r IH]; simpl.
  - apply Permutation_refl.
  - destruct (shift y x).
    + eapply perm_trans; [apply perm_swap|].
      apply perm_skip, IH.
    + apply Permutation_refl.
Qed.

Lemma fold_insert_permutation (l racc : list A) :
  Permutation (l ++ racc)
    (fold_left (fun r x => insert_back shift x r) l racc).
Proof.
  revert racc; induction l as [|x l IH]; intros racc; simpl.
  - apply Permutation_refl.
  - eapply perm_trans; [|apply IH].
    eapply perm_trans; [apply Permutation_middle|].
    apply Permutation_app_head, insert_back_permutation.
Qed.

Lemma insertion_sort_permutation (l : list A) :
  Permutation l (insertion_sort shift l).
Proof.
  unfold insertion_sort.
  eapply perm_trans; [|apply Permutation_rev].
  rewrite <- (app_nil_r l) at 1.
  apply fold_insert_permutation.
Qed.

Lemma insertion_sort_ext (shift' : A -> A -> bool) (l : list A) :
  (forall y x, shift y x = shift' y x) ->
  insertion_sort shift l = insertion_sort shift' l.
Proof.
  intros Hext. unfold insertion_sort. f_equal.
  generalize (@nil A) as racc.
  induction l as [|x l IH]; intros racc; simpl; [reflexivity|].
  rewrite IH. f_equal.
  induction racc as [|y r IHr]; simpl; [reflexivity|].
  rewrite Hext, IHr. reflexivity.
Qed.

(** With a consistent comparison function and a shift test that agrees
    with it, the insertion sort is a stable sort. *)
Variable cmp : A -> A -> Z.
Hypothesis cmp_ok : consistent cmp.
Hypothesis shift_ok : forall y x, shift y x = true <-> (cmp x y < 0)%Z.

Lemma cmp_le_total (a b : A) : ~ (cmp a b < 0)%Z -> (cmp b a <= 0)%Z.
Proof.
  intros Hn. pose proof (cmp_antisym cmp cmp_ok a b) as Hs.
  destruct (cmp a b) eqn:Ea; destruct (cmp b a) eqn:Eb;
    simpl in Hs; try discriminate; lia.
Qed.

Lemma cmp_lt_not_eq (z x y : A) :
  (cmp z x = 0)%Z -> (cmp x y < 0)%Z -> (cmp z y =? 0)%Z = false.
Proof.
  intros Hzx Hxy. apply Z.eqb_neq. intros Hzy.
  pose proof (cmp_antisym cmp cmp_ok z y) as Hs1.
  pose proof (cmp_antisym cmp cmp_ok z x) as Hs2.
  pose proof (cmp_antisym cmp cmp_ok x y) as Hs3.
  rewrite Hzy in Hs1. rewrite Hzx in Hs2. simpl in Hs1, Hs2.
  assert (Hyz : (cmp y z <= 0)%Z) by (destruct (cmp y z); simpl in Hs1; lia || discriminate).
  assert (Hxz : (cmp x z <= 0)%Z) by (destruct (cmp x z); simpl in Hs2; lia || discriminate).
  assert (Hzx' : (cmp z x <= 0)%Z) by lia.
  pose proof (cmp_trans cmp cmp_ok y z x Hyz Hzx') as Hyx.
  destruct (cmp x y) eqn:Ea; destruct (cmp y x) eqn:Eb;
    simpl in Hs3; try discriminate; lia.
Qed.

Definition reverse_sorted (racc : list A) : Prop :=
  StronglySorted (fun a b => (cmp b a <= 0)%Z) racc.

Lemma insert_back_sorted (x : A) (racc : list A) :
  reverse_sorted racc -> reverse_sorted (insert_back shift x racc).
Proof.
  unfold reverse_sorted.
  induction racc as [|y r IH]; intros Hs; simpl.
  - constructor; constructor.
  - inversion Hs as [|? ? Hr Hall]; subst.
    destruct (shift y x) eqn:Esh.
    + apply shift_ok in Esh.
      constructor; [apply IH, Hr|].
      rewrite Forall_forall in *. intros b Hb.
      eapply Permutation_in in Hb;
        [|apply Permutation_sym, insert_back_permutation].
      destruct Hb as [<-|Hb]; [lia|apply Hall, Hb].
    + assert (Hyx : (cmp y x <= 0)%Z).
      { apply cmp_le_total. intros Hlt. apply shift_ok in Hlt. congruence. }
      constructor; [exact Hs|].
      constructor; [exact Hyx|].
      rewrite Forall_forall in *. intros b Hb.
      eapply (cmp_trans cmp cmp_ok); [apply Hall, Hb|exact Hyx].
Qed.

Lemma fold_insert_sorted (l racc : list A) :
  reverse_sorted racc ->
  reverse_sorted (fold_left (fun r x => insert_back shift x r) l racc).
Proof.
  revert racc; induction l as [|x l IH]; intros racc Hs; simpl;
    [exact Hs|].
  apply IH, insert_back_sorted, Hs.
Qed.

Lemma StronglySorted_snoc (R : A -> A -> Prop) (l : list A) (a : A) :
  StronglySorted R l -> Forall (fun b => R b a) l ->
  StronglySorted R (l ++ [a]).
Proof.
  induction l as [|b l IH]; intros Hs Hall; simpl.
  - constructor; constructor.
  - inversion Hs; subst. inversion Hall; subst.
    constructor; [apply IH; assumption|].
    apply Forall_app; split; [assumption|].
    constructor; [assumption|constructor].
Qed.

Lemma reverse_sorted_rev (racc : list A) :
  reverse_sorted racc ->
  StronglySorted (fun a b => (cmp a b <= 0)%Z) (rev racc).
Proof.
  unfold reverse_sorted.
  induction racc as [|y r IH]; intros Hs; simpl; [constructor|].
  inversion Hs; subst.
  apply StronglySorted_snoc; [apply IH; assumption|].
  apply Forall_rev. assumption.
Qed.

Lemma insertion_sort_sorted (l : list A) :
  StronglySorted (fun a b => (cmp a b <= 0)%Z) (insertion_sort shift l).
Proof.
  unfold insertion_sort. apply reverse_sorted_rev, fold_insert_sorted.
  constructor.
Qed.

Lemma insert_back_class (z x : A) (racc : list A) :
  filter (fun y => (cmp z y =? 0)%Z) (insert_back shift x racc)
  = filter (fun y => (cmp z y =? 0)%Z) (x :: racc).
Proof.
  induction racc as [|y r IH]; [reflexivity|].
  simpl insert_back. destruct (shift y x) eqn:Esh; [|reflexivity].
  apply shift_ok in Esh.
  cbn [filter] in *. rewrite IH.
  destruct (cmp z x =? 0)%Z eqn:Ezx; [|reflexivity].
  apply Z.eqb_eq in Ezx.
  rewrite (cmp_lt_not_eq z x y Ezx Esh). reflexivity.
Qed.

Lemma fold_insert_class (z : A) (l racc : list A) :
  filter (fun y => (cmp z y =? 0)%Z)
    (fold_left (fun r x => insert_back shift x r) l racc)
  = rev (filter (fun y => (cmp z y =? 0)%Z) l)
    ++ filter (fun y => (cmp z y =? 0)%Z) racc.
Proof.
  revert racc; induction l as [|x l IH]; intros racc; [reflexivity|].
  cbn [fold_left]. rewrite IH, insert_back_class.
  cbn [filter]. destruct (cmp z x =? 0)%Z; [|reflexivity].
  cbn [rev]. rewrite <- app_assoc. reflexivity.
Qed.

Lemma insertion_sort_stable (l : list A) (z : A) :
  filter (fun y => (cmp z y =? 0)%Z) (insertion_sort shift l)
  = filter (fun y => (cmp z y =? 0)%Z) l.
Proof.
  unfold insertion_sort.
  rewrite filter_rev, fold_insert_class. cbn [filter].
  rewrite app_nil_r, rev_involutive. reflexivity.
Qed.
End InsertionSortFacts.

Lemma shift_if_positive_ok {A} (cmp : A -> A -> Z) :
  consistent cmp ->
  forall y x, shift_if_positive cmp y x = true <-> (cmp x y < 0)%Z.
Proof.
  intros Hc y x. unfold shift_if_positive. rewrite Z.ltb_lt.
  pose proof (cmp_antisym cmp Hc x y) as Hs.
  destruct (cmp x y); destruct (cmp y x); simpl in Hs;
    try discriminate; lia.
Qed.

Lemma shift_if_negative_ok {A} (cmp : A -> A -> Z) :
  forall y x, shift_if_negative cmp y x = true <-> (cmp x y < 0)%Z.
Proof. intros y x. unfold shift_if_negative. apply Z.ltb_lt. Qed.

(** An engine that inserts as V8 up to 6.x does on short arrays. *)
Definition legacy_engine : JsEngine :=
  {| Array_sort := @sort_legacy;
     sort_permutation := fun A cmp l =>
       insertion_sort_permutation (shift_if_positive cmp) l;
     sort_sorted := fun A cmp l Hc =>
       insertion_sort_sorted (shift_if_positive cmp) cmp Hc
         (shift_if_positive_ok cmp Hc) l;
     sort_stable := fun A cmp l Hc z =>
       insertion_sort_stable (shift_if_positive cmp) cmp Hc
         (shift_if_positive_ok cmp Hc) l z |}.

(** An engine that inserts as the merge-based sorts do. *)
Definition modern_engine : JsEngine :=
  {| Array_sort := @sort_modern;
     sort_permutation := fun A cmp l =>
       insertion_sort_permutation (shift_if_negative cmp) l;
     sort_sorted := fun A cmp l Hc =>
       insertion_sort_sorted (shift_if_negative cmp) cmp Hc
         (shift_if_negative_ok cmp) l;
     sort_stable := fun A cmp l Hc z =>
       insertion_sort_stable (shift_if_negative cmp) cmp Hc
         (shift_if_negative_ok cmp) l z |}.

(* ================================================================== *)
(** ** A reference host and sample data *)
(* ================================================================== *)

(** A host whose buffer is its text: positions are counted from the
    line feeds of the text, an edit replaces the characters of its range
    and fails when the range does not lie in the buffer. *)
Module PlainHost.
Definition line_feed : ascii := ascii_of_nat 10.

Fixpoint end_position (s : string) (r c : Z) : Point :=
  match s with
  | EmptyString => {| row := r; column := c |}
  | String ch s' =>
      if Ascii.eqb ch line_feed then end_position s' (r + 1) 0
      else end_position s' r (c + 1)
  end.

Fixpoint index_of_position (s : string) (r c : Z) (p : Point) (i : nat)
  : option nat :=
  if Point_isEqual {| row := r; column := c |} p then Some i
  else
    match s with
    | EmptyString => None
    | String ch s' =>
        if Ascii.eqb ch line_feed
        then index_of_position s' (r + 1) 0 p (S i)
        else index_of_position s' r (c + 1) p (S i)
    end.

Definition with_text (ed : TextEditor) (s : string) : TextEditor :=
  {| scopeName := scopeName ed; text := s;
     selectedBufferRange := selectedBufferRange ed;
     cursorBufferPosition := cursorBufferPosition ed |}.

Definition apply_edit (s : string) (edit : TextEdit) : option string :=
  match index_of_position s 0 0 (start (oldRange edit)) 0,
        index_of_position s 0 0 (end_ (oldRange edit)) 0 with
  | Some i, Some j =>
      if (i <=? j)%nat
      then Some (substring 0 i s ++ newText_of_edit edit
                 ++ substring j (String.length s - j) s)%string
      else None
  | _, _ => None
  end.

Fixpoint apply_edits (s : string) (edits_reversed : list TextEdit)
  : option string :=
  match edits_reversed with
  | [] => Some s
  | edit :: rest =>
      match apply_edit s edit with
      | Some s' => apply_edits s' rest
      | None => None
      end
  end.

Definition host : AtomHost :=
  {| buffer_getRange := fun ed =>
       {| start := {| row := 0; column := 0 |};
          end_ := end_position (text ed) 0 0 |};
     applyTextEditsToBuffer := fun ed edits =>
       match apply_edits (text ed) (rev edits) with
       | Some s => (true, with_text ed s)
       | None => (false, ed)
       end;
     buffer_setTextViaDiff := with_text;
     buffer_positionForCharacterIndex := fun ed index =>
       end_position (substring 0 (Z.to_nat index) (text ed)) 0 0;
     editor_setCursorBufferPosition := fun ed p =>
       {| scopeName := scopeName ed; text := text ed;
          selectedBufferRange := {| start := p; end_ := p |};
          cursorBufferPosition := p |} |}.
End PlainHost.

Module Sample.
Definition at_ (r c : Z) : Point := {| row := r; column := c |}.

Definition provider (id : nat) (sel : string) (priority : Z)
    (code entire position : bool) : CodeFormatProvider :=
  {| ref := id; selector := sel; inclusionPriority := priority;
     has_formatCode := code; has_formatEntireFile := entire;
     has_formatAtPosition := position |}.

(** Two providers for [source.js], of priorities 1 and 5, registered in
    that order. *)
Definition low : CodeFormatProvider :=
  provider 1 "source.js" 1 true true true.
Definition high : CodeFormatProvider :=
  provider 2 "source.ts, source.js" 5 true true true.

Definition range_only : CodeFormatProvider :=
  provider 3 "source.js" 1 true false false.
Definition neither : CodeFormatProvider :=
  provider 4 "source.js" 5 false false false.
Definition position_only : CodeFormatProvider :=
  provider 5 "source.js" 3 false false true.

Definition editor_with (s : string) (sel : Range) : TextEditor :=
  {| scopeName := "source.js"; text := s; selectedBufferRange := sel;
     cursorBufferPosition := end_ sel |}.

Definition no_selection : Range :=
  {| start := at_ 0 3; end_ := at_ 0 3 |}.

Definition cfg : AtomConfig :=
  {| getFormatOnSave := true; getFormatOnType := true;
     bracketMatcherActive := true;
     autocompleteCharacters := ["()"; "[]"; "{}"] |}.

Definition insert_x : TextEditEvent := {| oldText := ""; newText := "x" |}.
Definition delete_a : TextEditEvent := {| oldText := "a"; newText := "" |}.
Definition nothing : TextEditEvent := {| oldText := ""; newText := "" |}.
Definition paste_ab : TextEditEvent := {| oldText := ""; newText := "ab" |}.
Definition braces : TextEditEvent := {| oldText := ""; newText := "{}" |}.

End Sample.

(* ================================================================== *)
(** ** Definitions used by the statements *)
(* ================================================================== *)

(** The comparison the callback stands for: descending priority. *)
Definition descending_priority (a b : CodeFormatProvider) : Z :=
  (inclusionPriority b - inclusionPriority a)%Z.

(** The snapshot a callback closed over. *)
Definition snapshot_of (k : Continuation) : string :=
  match k with
  | Then_formatCode contents => contents
  | Then_formatEntireFile contents => contents
  | Then_formatAtPosition contents => contents
  end.

(** What the log must hold for a save operation: no [Buffer_save] while
    the operation is active, and exactly one, as its last effect, once it
    is not. *)
Definition save_once (active : bool) (effects : list Effect) : Prop :=
  if active then ~ In Buffer_save effects
  else exists before,
      effects = before ++ [Buffer_save] /\ ~ In Buffer_save before.

Record invariant (g : Group) (log : Log) : Prop := {
  inv_fresh : forall o, In o (operations g) -> op_id o < nextId g;
  inv_nodup : NoDup (map op_id (operations g));
  inv_inner : forall o, In o (operations g) -> is_active o = true ->
                        innerSubscription g = Some (op_id o);
  inv_latest : forall id, innerSubscription g = Some id -> nextId g = S id;
  inv_save_phase : forall o, In o (operations g) -> is_active o = true ->
                             op_event o = type_save ->
                             exists k, op_phase o = Some (AwaitProvider k);
  inv_log_fresh : forall id e, In (id, e) log -> id < nextId g;
  inv_save_once : forall o, In o (operations g) -> op_event o = type_save ->
                            save_once (is_active o)
                              (effects_of (op_id o) log)
}.

(** The operation [id] is over: it completed, it failed or it was
    unsubscribed. *)
Definition ended (id : nat) (g : Group) : Prop :=
  forall o, In o (operations g) -> op_id o = id -> is_active o = false.

Definition is_save_event (e : Event) : bool :=
  match e with
  | FormatEventArrives type_save => true
  | _ => false
  end.

(** The events that unsubscribe the inner observable of the [switchMap]:
    a newer format event of the buffer, the [null] that follows the
    destruction of the buffer, and the disposal of the manager. *)
Definition unsubscribes (e : Event) : bool :=
  match e with
  | FormatEventArrives _ | BufferDestroyed | ManagerDisposed => true
  | _ => false
  end.

Definition is_dispose (e : Event) : bool :=
  match e with
  | ManagerDisposed => true
  | _ => false
  end.

(** Sample runs of the arbiter. *)
Module Scenario.
Import Sample.

Definition opened : TextEditor := editor_with "abc" no_selection.
Definition retyped : TextEditor := editor_with "abcd" no_selection.
Definition fresh : Group := new_Group opened cfg.

(** A keystroke is being formatted and the user types on. *)
Definition typing : list Event :=
  [ProviderAdded position_only; FormatEventArrives (type_type insert_x);
   NextTick 0; HostChanges retyped].

(** A command is being formatted and the user types on. *)
Definition commanding : list Event :=
  [ProviderAdded low; FormatEventArrives type_command; HostChanges retyped].

(** A save is being formatted. *)
Definition saving : list Event :=
  [ProviderAdded low; FormatEventArrives type_save].

Definition after (trace : list Event) : Group :=
  fst (run legacy_engine PlainHost.host fresh trace).

Definition type_operation : Operation :=
  {| op_id := 0; op_event := type_type insert_x;
     op_phase := Some (AwaitProvider (Then_formatAtPosition "abc"));
     op_status := Active |}.

Definition command_operation : Operation :=
  {| op_id := 0; op_event := type_command;
     op_phase := Some (AwaitProvider (Then_formatEntireFile "abc"));
     op_status := Active |}.
End Scenario.

(* ================================================================== *)
(** ** Selectors as they are written *)
(* ================================================================== *)

(** The fields of a selector put together with a separator, the way a
    provider writes its [selector]. *)
Fixpoint join_fields (separator : string) (fields : list string) : string :=
  match fields with
  | [] => ""
  | [field] => field
  | field :: rest => field ++ separator ++ join_fields separator rest
  end.

Fixpoint has_no_comma (s : string) : bool :=
  match s with
  | EmptyString => true
  | String c rest => negb (Ascii.eqb c ",") && has_no_comma rest
  end.

Definition starts_with_space (s : string) : bool :=
  match s with
  | String c _ => Ascii.eqb c " "
  | EmptyString => false
  end.

(** An editor whose selection has been set. *)
Definition with_selection (ed : TextEditor) (selection : Range)
  : TextEditor :=
  {| scopeName := scopeName ed; text := text ed;
     selectedBufferRange := selection;
     cursorBufferPosition := cursorBufferPosition ed |}.

(** A manager that has been disposed and has no active operation. *)
Definition quiet (g : Group) : Prop :=
  disposed g = true
  /\ forall o, In o (operations g) -> is_active o = false.

Definition is_host_change (e : Event) : bool :=
  match e with
  | HostChanges _ => true
  | _ => false
  end.

Definition is_type (event : FormatEvent) : bool :=
  match event with
  | type_type _ => true
  | _ => false
  end.

(** The effects an operation may have, by the type of its event. *)
Definition effect_allowed (event : FormatEvent) (e : Effect) : Prop :=
  match e with
  | Notifications_addError title _ =>
      event = type_command /\ title = "Failed to format code"
  | Logger_warn message _ =>
      (event = type_save /\ message = "Failed to format code on save:")
      \/ (is_type event = true /\ message = "Failed to format code on type:")
  | Buffer_save => event = type_save
  | Timer_start ms => event = type_save /\ ms = SAVE_TIMEOUT
  | Provider_call (Call_formatAtPosition _ _ _) => is_type event = true
  | Provider_call _ => is_type event = false
  end.

(** Only the operation of a keystroke waits for the next tick. *)
Definition tick_is_for_type (o : Operation) : Prop :=
  forall provider character contents,
    op_phase o = Some (AwaitNextTick provider character contents) ->
    is_type (op_event o) = true.

Definition discipline (g : Group) (log : Log) : Prop :=
  (forall o, In o (operations g) -> tick_is_for_type o)
  /\ forall id e, In (id, e) log ->
                  exists o, In o (operations g) /\ op_id o = id
                            /\ effect_allowed (op_event o) e.

Definition is_provider_call (e : Effect) : bool :=
  match e with
  | Provider_call _ => true
  | _ => false
  end.

(** How many times the operation [id] called a provider. *)
Definition calls_of (id : nat) (log : Log) : nat :=
  List.length (filter is_provider_call (effects_of id log)).

Definition calls_bound (ph : option Phase) (n : nat) : Prop :=
  match ph with
  | Some (AwaitProvider _) => n <= 1
  | _ => n = 0
  end.

Definition called_once (g : Group) (log : Log) : Prop :=
  forall o, In o (operations g) ->
            calls_bound (op_phase o) (calls_of (op_id o) log).

(* ================================================================== *)
(** ** The event stream of one editor *)
(* ================================================================== *)

(** [_getEditorEventStream]: the changes of the buffer, debounced, and
    the calls of [editor.save], intercepted when format-on-save is on,
    until the editor is destroyed.  The stream is subscribed once per
    editor. *)
Module EditorStream.

(** What [editor.save] is bound to. *)
Inductive SaveMethod : Type := RealSave | Interceptor.

Record State : Type := {
  save : SaveMethod;
  subscribed : bool;
  realSave : option SaveMethod;
  pending : option TextEditEvent
}.

(** An editor that the manager has not seen yet. *)
Definition unobserved : State :=
  {| save := RealSave; subscribed := false; realSave := None;
     pending := None |}.

Inductive Input : Type :=
| Subscribe (formatOnSave : bool)
| OnDidChange (edit : TextEditEvent)
| DebounceElapsed
| SaveCalled
| EditorDestroyed
| Unsubscribe.

Inductive Output : Type :=
| Emit (event : FormatEvent)
| Persist.

(** The teardown of the subscription: the pending change is dropped and
    the save function is restored when it was replaced. *)
Definition teardown (s : State) : State :=
  {| save := match realSave s with Some m => m | None => save s end;
     subscribed := false; realSave := None; pending := None |}.

Definition step (s : State) (i : Input) : State * list Output :=
  match i with
  | Subscribe formatOnSave =>
      if subscribed s then (s, [])
      else if negb formatOnSave
      then ({| save := save s; subscribed := true; realSave := None;
               pending := None |}, [])
      else ({| save := Interceptor; subscribed := true;
               realSave := Some (save s); pending := None |}, [])
  | OnDidChange edit =>
      if subscribed s
      then ({| save := save s; subscribed := true; realSave := realSave s;
               pending := Some edit |}, [])
      else (s, [])
  | DebounceElapsed =>
      match subscribed s, pending s with
      | true, Some edit =>
          ({| save := save s; subscribed := true; realSave := realSave s;
              pending := None |}, [Emit (type_type edit)])
      | _, _ => (s, [])
      end
  | SaveCalled =>
      match save s with
      | RealSave => (s, [Persist])
      | Interceptor => (s, if subscribed s then [Emit type_save] else [])
      end
  | EditorDestroyed | Unsubscribe =>
      if subscribed s then (teardown s, []) else (s, [])
  end.

Fixpoint run (s : State) (inputs : list Input) : State * list Output :=
  match inputs with
  | [] => (s, [])
  | i :: rest =>
      let (s1, out1) := step s i in
      let (s2, out2) := run s1 rest in
      (s2, out1 ++ out2)
  end.

(** The state of an editor that only this manager touches: its save
    function is the interceptor exactly while a subscription that
    replaced it is open. *)
Definition coherent (s : State) : Prop :=
  match realSave s with
  | Some m => m = RealSave /\ save s = Interceptor /\ subscribed s = true
  | None => save s = RealSave
  end
  /\ (subscribed s = false -> pending s = None).

Definition is_subscribe (i : Input) : bool :=
  match i with
  | Subscribe _ => true
  | _ => false
  end.

Definition is_emit (o : Output) : bool :=
  match o with
  | Emit _ => true
  | Persist => false
  end.
End EditorStream.

(* ================================================================== *)
(** ** The service manager *)
(* ================================================================== *)

(** [nuclide-remote-connection/lib/service-manager.js]: the functions
    that hand out a service, local or remote.  The module keeps one
    variable, [localRpcClient]; forking the local server and tracking are
    its effects. *)
Module ServiceManager.

Record ServiceConfig : Type := { name : string; implementation : string }.

(** What the module reads from outside: the flag [useLocalRpc], the
    table [servicesConfig], and the hosts for which
    [ServerConnection.getByHostname] finds a connection. *)
Record Env : Type := {
  useLocalRpc : bool;
  servicesConfig : list ServiceConfig;
  getByHostname : string -> bool
}.

(** A service object: a proxy of the local RPC client, a module that
    was [require]d, or a proxy of the connection to a host. *)
Inductive Service : Type :=
| LocalRpcProxy (client : nat) (serviceName : string)
| RequiredModule (path : string)
| RemoteProxy (hostname : string) (serviceName : string).

Inductive Effect : Type :=
| Fork
| Track (eventName : string).

(** [localRpcClient], and the number of clients created so far (the
    next client is numbered with it). *)
Record State : Type := { localRpcClient : option nat; created : nat }.

Definition initial : State := {| localRpcClient := None; created := 0 |}.

(** The outcome of [getlocalService]: a service, or the message of the
    error thrown by [invariant]. *)
Inductive LocalOutcome : Type :=
| Got (service : Service)
| Failed (message : string).

(** The outcome of the other synchronous calls: a value ([None] for
    [null]) or the message of the error thrown. *)
Inductive Outcome : Type :=
| Returned (service : option Service)
| Thrown (message : string).

Definition of_local (r : LocalOutcome) : Outcome :=
  match r with
  | Got service => Returned (Some service)
  | Failed message => Thrown message
  end.

(** The promise returned by [awaitService]. *)
Inductive Awaited : Type :=
| ResolvedWith (service : Service)
| WhenConnected (hostname : string) (serviceName : string)
| ThrownBefore (message : string).

Definition no_config_message (serviceName : string) : string :=
  "No config found for service " ++ serviceName.

Definition createLocalRpcClient (st : State) : nat * State * list Effect :=
  (created st,
   {| localRpcClient := localRpcClient st; created := S (created st) |},
   [Fork]).

Definition getlocalService (env : Env) (st : State) (serviceName : string)
  : LocalOutcome * State * list Effect :=
  if useLocalRpc env then
    match localRpcClient st with
    | None =>
        let '(client, st1, effects) := createLocalRpcClient st in
        (Got (LocalRpcProxy client serviceName),
         {| localRpcClient := Some client; created := created st1 |},
         effects ++ [Track "use-local-rpc"])
    | Some client =>
        (Got (LocalRpcProxy client serviceName), st, [])
    end
  else
    match filter (fun config => String.eqb (name config) serviceName)
            (servicesConfig env) with
    | serviceConfig :: _ =>
        (Got (RequiredModule (implementation serviceConfig)), st, [])
    | [] => (Failed (no_config_message serviceName), st, [])
    end.

(** [hostname != null && hostname !== ''] *)
Definition is_remote (hostname : option string) : option string :=
  match hostname with
  | Some h => if String.eqb h "" then None else Some h
  | None => None
  end.

Definition getService (env : Env) (st : State) (serviceName : string)
    (hostname : option string) : Outcome * State * list Effect :=
  match is_remote hostname with
  | Some h =>
      if getByHostname env h
      then (Returned (Some (RemoteProxy h serviceName)), st, [])
      else (Returned None, st, [])
  | None =>
      let '(r, st1, effects) := getlocalService env st serviceName in
      (of_local r, st1, effects)
  end.

(** A [null] connection stands for the local side; a connection is
    named by its host. *)
Definition getServiceByConnection (env : Env) (st : State)
    (serviceName : string) (connection : option string)
  : Outcome * State * list Effect :=
  match connection with
  | None =>
      let '(r, st1, effects) := getlocalService env st serviceName in
      (of_local r, st1, effects)
  | Some h => (Returned (Some (RemoteProxy h serviceName)), st, [])
  end.

Definition awaitService (env : Env) (st : State) (serviceName : string)
    (hostname : option string) : Awaited * State * list Effect :=
  match is_remote hostname with
  | Some h => (WhenConnected h serviceName, st, [])
  | None =>
      match getlocalService env st serviceName with
      | (Got service, st1, effects) => (ResolvedWith service, st1, effects)
      | (Failed message, st1, effects) => (ThrownBefore message, st1, effects)
      end
  end.

(** A call of one of the exported functions. *)
Inductive Call : Type :=
| Call_getlocalService (serviceName : string)
| Call_getService (serviceName : string) (hostname : option string)
| Call_getServiceByConnection (serviceName : string)
    (connection : option string)
| Call_awaitService (serviceName : string) (hostname : option string).

Definition call (env : Env) (st : State) (c : Call) : State * list Effect :=
  match c with
  | Call_getlocalService n =>
      let '(_, st1, effects) := getlocalService env st n in (st1, effects)
  | Call_getService n h =>
      let '(_, st1, effects) := getService env st n h in (st1, effects)
  | Call_getServiceByConnection n c =>
      let '(_, st1, effects) := getServiceByConnection env st n c in
      (st1, effects)
  | Call_awaitService n h =>
      let '(_, st1, effects) := awaitService env st n h in (st1, effects)
  end.

Fixpoint calls (env : Env) (st : State) (cs : list Call)
  : State * list Effect :=
  match cs with
  | [] => (st, [])
  | c :: rest =>
      let (st1, effects1) := call env st c in
      let (st2, effects2) := calls env st1 rest in
      (st2, effects1 ++ effects2)
  end.

(** Whether a call reaches [getlocalService]. *)
Definition is_local_call (c : Call) : bool :=
  match c with
  | Call_getlocalService _ => true
  | Call_getService _ h | Call_awaitService _ h =>
      match is_remote h with Some _ => false | None => true end
  | Call_getServiceByConnection _ connection =>
      match connection with Some _ => false | None => true end
  end.
End ServiceManager.

(* ================================================================== *)
(** ** Properties of the registry *)
(* ================================================================== *)

(** Whatever the engine, the resolved list holds exactly the registered
    providers of positive priority whose selector names the scope. *)
Lemma getMatchingProviders_members (E : JsEngine)
    (registry : list CodeFormatProvider) (scope : string)
    (p : CodeFormatProvider) :
  In p (getMatchingProvidersForScopeName E registry scope) <->
  In p registry /\ (0 < inclusionPriority p)%Z
  /\ In scope (split_comma (selector p) "").
Proof.
  unfold getMatchingProvidersForScopeName.
  set (matching := filter (provider_matches scope) registry).
  assert (Hm : In p matching <->
               In p registry /\ (0 < inclusionPriority p)%Z
               /\ In scope (split_comma (selector p) "")).
  { unfold matching. rewrite filter_In. unfold provider_matches.
    rewrite andb_true_iff, Z.ltb_lt, existsb_exists.
    split.
    - intros (Hin & Hpos & g & Hg & Heq). apply String.eqb_eq in Heq.
      subst g. auto.
    - intros (Hin & Hpos & Hg). repeat split; auto.
      exists scope. split; [assumption|apply String.eqb_refl]. }
  rewrite <- Hm. split; intros Hin.
  - eapply Permutation_in; [apply Permutation_sym, sort_permutation|exact Hin].
  - eapply Permutation_in; [apply sort_permutation|exact Hin].
Qed.

(** The callback of the manager is not a consistent comparison function:
    it never answers "smaller". *)
Lemma priority_comparefn_nonnegative (a b : CodeFormatProvider) :
  (0 <= priority_comparefn a b)%Z.
Proof.
  unfold priority_comparefn, ToNumber_bool.
  destruct (inclusionPriority a <? inclusionPriority b)%Z; lia.
Qed.

Lemma priority_comparefn_not_consistent : ~ consistent priority_comparefn.
Proof.
  intros Hc.
  pose proof (cmp_antisym _ Hc Sample.low Sample.high) as Hs.
  vm_compute in Hs. discriminate.
Qed.

(** An engine that only asks whether the new element is smaller leaves
    the array as it is. *)
Lemma sort_modern_priority_comparefn (l : list CodeFormatProvider) :
  sort_modern priority_comparefn l = l.
Proof.
  unfold sort_modern, insertion_sort.
  assert (Hfold : forall l racc,
             fold_left (fun r x =>
                          insert_back (shift_if_negative priority_comparefn)
                            x r) l racc
             = rev l ++ racc).
  { clear l. induction l as [|x l IH]; intros racc; [reflexivity|].
    cbn [fold_left]. rewrite IH.
    assert (Hins : insert_back (shift_if_negative priority_comparefn) x racc
                   = x :: racc).
    { destruct racc as [|y r]; [reflexivity|]. simpl.
      unfold shift_if_negative.
      pose proof (priority_comparefn_nonnegative x y) as Hge.
      destruct (priority_comparefn x y <? 0)%Z eqn:Elt; [|reflexivity].
      apply Z.ltb_lt in Elt. lia. }
    rewrite Hins. cbn [rev]. rewrite <- app_assoc. reflexivity. }
  rewrite Hfold, app_nil_r. apply rev_involutive.
Qed.

Lemma descending_priority_consistent : consistent descending_priority.
Proof.
  split; unfold descending_priority.
  - intros a b.
    destruct (inclusionPriority b - inclusionPriority a)%Z eqn:E1;
      destruct (inclusionPriority a - inclusionPriority b)%Z eqn:E2;
      simpl; try reflexivity; lia.
  - intros a b c. lia.
Qed.

(** An engine that asks whether the stored element is greater sorts by
    descending priority and keeps the registration order of ties. *)
Lemma sort_legacy_priority_comparefn (l : list CodeFormatProvider) :
  sort_legacy priority_comparefn l = sort_modern descending_priority l.
Proof.
  unfold sort_legacy, sort_modern. apply insertion_sort_ext.
  intros y x.
  unfold shift_if_positive, shift_if_negative, priority_comparefn,
    descending_priority, ToNumber_bool.
  destruct (inclusionPriority y <? inclusionPriority x)%Z eqn:Elt.
  - apply Z.ltb_lt in Elt. symmetry. apply Z.ltb_lt. lia.
  - apply Z.ltb_ge in Elt. symmetry. apply Z.ltb_ge. lia.
Qed.

Lemma getMatchingProviders_legacy_descending
    (registry : list CodeFormatProvider) (scope : string) :
  let resolved := getMatchingProvidersForScopeName legacy_engine registry scope in
  StronglySorted
    (fun a b => (inclusionPriority b <= inclusionPriority a)%Z) resolved
  /\ forall priority,
      filter (fun p => (inclusionPriority p =? priority)%Z) resolved
      = filter (fun p => (inclusionPriority p =? priority)%Z)
          (filter (provider_matches scope) registry).
Proof.
  unfold getMatchingProvidersForScopeName. cbn [Array_sort legacy_engine].
  rewrite sort_legacy_priority_comparefn.
  set (matching := filter (provider_matches scope) registry).
  split.
  - pose proof (sort_sorted modern_engine _ descending_priority matching
                  descending_priority_consistent) as Hs.
    cbn [Array_sort modern_engine] in Hs.
    eapply StronglySorted_ind with
      (P := fun l => StronglySorted
                       (fun a b => (inclusionPriority b <= inclusionPriority a)%Z) l);
      [constructor| |exact Hs].
    intros a l0 _ IH Hall. constructor; [exact IH|].
    eapply Forall_impl; [|exact Hall].
    unfold descending_priority. intros; lia.
  - intros priority.
    pose proof (sort_stable modern_engine _ descending_priority matching
                  descending_priority_consistent
                  (Sample.provider 0 "" priority false false false)) as Hst.
    cbn [Array_sort modern_engine] in Hst.
    assert (Hext : forall l,
               filter (fun p => (inclusionPriority p =? priority)%Z) l
               = filter (fun y =>
                           (descending_priority
                              (Sample.provider 0 "" priority false false false)
                              y =? 0)%Z) l).
    { intros l0. apply filter_ext. intros p.
      unfold descending_priority. simpl.
      destruct (inclusionPriority p =? priority)%Z eqn:E1.
      - apply Z.eqb_eq in E1. symmetry. apply Z.eqb_eq. lia.
      - apply Z.eqb_neq in E1. symmetry. apply Z.eqb_neq. lia. }
    rewrite !Hext. exact Hst.
Qed.

(** C4. [_getMatchingProvidersForScopeName] at the registry holding a
    priority-1 provider and then a priority-5 provider for the same scope:
    on an engine that asks the callback whether the later element is
    smaller, the callback answers [false] (that is 0, "equal"), the array
    stays in registration order and the priority-1 provider comes first;
    on an engine that asks whether the earlier element is greater, the
    priority-5 provider comes first.  Both engines sort correctly with
    every consistent comparison function. *)
Theorem getMatchingProviders_order_depends_on_engine :
  getMatchingProvidersForScopeName modern_engine
    [Sample.low; Sample.high] "source.js" = [Sample.low; Sample.high]
  /\ getMatchingProvidersForScopeName legacy_engine
       [Sample.low; Sample.high] "source.js" = [Sample.high; Sample.low].
Proof. split; reflexivity. Qed.

Lemma indexOf_absent (l : list CodeFormatProvider) (p : CodeFormatProvider) :
  indexOf l p = (-1)%Z <-> forall q, In q l -> ref q <> ref p.
Proof.
  induction l as [|q l IH]; simpl.
  - split; [intros _ q []|reflexivity].
  - unfold same_provider. destruct (Nat.eqb (ref q) (ref p)) eqn:Eq.
    + apply Nat.eqb_eq in Eq. split; [discriminate|].
      intros Hall. exfalso. apply (Hall q); auto.
    + apply Nat.eqb_neq in Eq.
      destruct (indexOf l p =? -1)%Z eqn:Ei.
      * apply Z.eqb_eq in Ei. split; [|reflexivity].
        intros _ q' [<-|Hin]; [assumption|]. apply IH; assumption.
      * apply Z.eqb_neq in Ei. split.
        -- intros Habs. exfalso.
           assert (Hge : forall l', (-1 <= indexOf l' p)%Z).
           { induction l' as [|q' l' IH']; simpl; [lia|].
             destruct (same_provider q' p); [lia|].
             destruct (indexOf l' p =? -1)%Z; lia. }
           specialize (Hge l). lia.
        -- intros Hall. exfalso. apply Ei, IH.
           intros q' Hin. apply Hall. auto.
Qed.

Lemma indexOf_first (l1 l2 : list CodeFormatProvider)
    (p q : CodeFormatProvider) :
  ref q = ref p -> (forall r, In r l1 -> ref r <> ref p) ->
  indexOf (l1 ++ q :: l2) p = Z.of_nat (List.length l1).
Proof.
  intros Hq. induction l1 as [|r l1 IH]; intros Hall.
  - simpl. unfold same_provider. rewrite Hq, Nat.eqb_refl. reflexivity.
  - cbn [app indexOf]. unfold same_provider.
    assert (Hr : ref r <> ref p) by (apply Hall; left; reflexivity).
    apply Nat.eqb_neq in Hr. rewrite Hr.
    rewrite IH by (intros r' Hin; apply Hall; right; assumption).
    assert (Hne : (Z.of_nat (List.length l1) =? -1)%Z = false)
      by (apply Z.eqb_neq; lia).
    rewrite Hne. cbn [List.length]. lia.
Qed.

(** The part of the disposer that holds: nothing happens when the
    provider is not in the registry. *)
Lemma addProvider_dispose_absent (registry : list CodeFormatProvider)
    (p : CodeFormatProvider) :
  (forall q, In q registry -> ref q <> ref p) ->
  addProvider_dispose registry p = registry.
Proof.
  intros Habs. apply indexOf_absent in Habs.
  unfold addProvider_dispose. rewrite Habs. reflexivity.
Qed.

(** What the disposer does when the provider is there: the registry is
    cut at the provider, so every provider registered after it goes too. *)
Lemma addProvider_dispose_truncates (before after : list CodeFormatProvider)
    (p : CodeFormatProvider) :
  (forall q, In q before -> ref q <> ref p) ->
  addProvider_dispose (before ++ p :: after) p = before.
Proof.
  intros Habs. unfold addProvider_dispose.
  rewrite (indexOf_first before after p p eq_refl Habs).
  assert (Hne : (Z.of_nat (List.length before) =? -1)%Z = false)
    by (apply Z.eqb_neq; lia).
  rewrite Hne. cbn [negb]. unfold Array_splice_from.
  assert (Hlt : (Z.of_nat (List.length before) <? 0)%Z = false)
    by (apply Z.ltb_ge; lia).
  rewrite Hlt, length_app. cbn [List.length].
  rewrite Z.min_l by lia. rewrite Nat2Z.id.
  rewrite firstn_app, Nat.sub_diag, firstn_all. cbn [firstn].
  apply app_nil_r.
Qed.

(** C5. Register [low], register [high], run the disposer of [low]: the
    registry is empty, [high] is gone with it; the disposer calls
    [splice(index)] where [splice(index, 1)] removes one element. *)
Theorem addProvider_dispose_removes_later_providers :
  let registry := addProvider (addProvider [] Sample.low) Sample.high in
  registry = [Sample.low; Sample.high]
  /\ addProvider_dispose registry Sample.low = []
  /\ ~ In Sample.high (addProvider_dispose registry Sample.low).
Proof.
  cbv zeta. repeat split; try reflexivity.
  vm_compute. intros [].
Qed.

(* ================================================================== *)
(** ** Properties of the on-type heuristic and of the format range *)
(* ================================================================== *)

Lemma last_character_spec (s : string) :
  s <> "" ->
  exists prefix c,
    s = (prefix ++ String c "")%string /\ last_character s = Some c.
Proof.
  induction s as [|a s IH]; intros Hne; [congruence|].
  destruct s as [|b s'].
  - exists "", a. split; reflexivity.
  - destruct IH as (prefix & c & Heq & Hlast); [discriminate|].
    exists (String a prefix), c. split.
    + simpl. rewrite <- Heq. reflexivity.
    + unfold last_character in *. cbn [String.length] in *.
      cbn [String.get]. exact Hlast.
Qed.

(** C7. On the command path the range handed to the provider is the range
    of the whole buffer when the selection is empty; otherwise it starts at
    column 0 of the first selected row and ends at column 0 of the row
    after the last selected row, or at the end of the selection when that
    end is already at column 0.  A selection from (2, 5) to (2, 10) gives
    (2, 0) to (3, 0); a selection that ends at (4, 0) gives a range that
    ends at (4, 0). *)
Theorem formatRange_normalization (E : JsEngine) (H : AtomHost)
    (registry : list CodeFormatProvider) (ed : TextEditor) :
  let selection := selectedBufferRange ed in
  Point_isLessThanOrEqual (start selection) (end_ selection) = true ->
  (Range_isEmpty selection = true ->
   formatRange_of H ed = buffer_getRange H ed)
  /\ (Range_isEmpty selection = false ->
      start (formatRange_of H ed)
      = {| row := row (start selection); column := 0 |}
      /\ (column (end_ selection) = 0%Z ->
          end_ (formatRange_of H ed) = end_ selection)
      /\ (column (end_ selection) <> 0%Z ->
          end_ (formatRange_of H ed)
          = {| row := row (end_ selection) + 1; column := 0 |}))
  /\ (forall ph calls,
         formatCodeInTextEditor E H registry ed = Sub_wait ph calls ->
         exists provider,
           calls = [Call_formatCode provider (formatRange_of H ed)]
           \/ calls = [Call_formatEntireFile provider (formatRange_of H ed)])
  /\ formatRange_of H
       (Sample.editor_with "" {| start := Sample.at_ 2 5;
                                 end_ := Sample.at_ 2 10 |})
     = {| start := Sample.at_ 2 0; end_ := Sample.at_ 3 0 |}
  /\ end_ (formatRange_of H
             (Sample.editor_with "" {| start := Sample.at_ 1 7;
                                       end_ := Sample.at_ 4 0 |}))
     = Sample.at_ 4 0.
Proof.
  cbv zeta. intros Hwf.
  split; [|split; [|split; [|split; reflexivity]]].
  - intros Hempty. unfold formatRange_of. rewrite Hempty. reflexivity.
  - intros Hnonempty. unfold formatRange_of. rewrite Hnonempty.
    unfold Point_isLessThanOrEqual in Hwf.
    destruct (selectedBufferRange ed) as [[r1 c1] [r2 c2]].
    cbn [start end_ row column] in *.
    destruct (c2 =? 0)%Z eqn:Ec.
    + apply Z.eqb_eq in Ec. subst c2.
      assert (Hle : Point_isLessThanOrEqual {| row := r1; column := 0 |}
                      {| row := r2; column := 0 |} = true).
      { unfold Point_isLessThanOrEqual. cbn [row column].
        apply orb_true_iff in Hwf. apply orb_true_iff.
        destruct Hwf as [Hlt|Heq]; [left; exact Hlt|right].
        apply andb_true_iff in Heq. destruct Heq as [Heq _].
        rewrite Heq. reflexivity. }
      unfold new_Range. rewrite Hle. cbn [start end_].
      repeat split; intros; try reflexivity. congruence.
    + apply Z.eqb_neq in Ec.
      assert (Hle : Point_isLessThanOrEqual {| row := r1; column := 0 |}
                      {| row := r2 + 1; column := 0 |} = true).
      { unfold Point_isLessThanOrEqual. cbn [row column].
        apply orb_true_iff. left. apply Z.ltb_lt.
        apply orb_true_iff in Hwf. destruct Hwf as [Hlt|Heq].
        - apply Z.ltb_lt in Hlt. lia.
        - apply andb_true_iff in Heq. destruct Heq as [Heq _].
          apply Z.eqb_eq in Heq. lia. }
      unfold new_Range. rewrite Hle. cbn [start end_].
      repeat split; intros; try reflexivity. congruence.
  - intros ph calls Hsub. unfold formatCodeInTextEditor in Hsub.
    destruct (filter command_capable _) as [|provider rest];
      [discriminate|].
    exists provider.
    destruct (has_formatCode provider
              && (negb (Range_isEmpty (selectedBufferRange ed))
                  || negb (has_formatEntireFile provider))).
    + inversion Hsub. left. reflexivity.
    + destruct (has_formatEntireFile provider); [|discriminate].
      inversion Hsub. right. reflexivity.
Qed.

Lemma formatRange_normalization_witness :
  let ed := Sample.editor_with "one" {| start := Sample.at_ 2 5;
                                        end_ := Sample.at_ 2 10 |} in
  Point_isLessThanOrEqual (start (selectedBufferRange ed))
    (end_ (selectedBufferRange ed)) = true
  /\ start (formatRange_of PlainHost.host ed) = Sample.at_ 2 0
  /\ end_ (formatRange_of PlainHost.host ed) = Sample.at_ 3 0.
Proof.
  cbv zeta.
  pose proof (formatRange_normalization legacy_engine PlainHost.host
                [Sample.low]
                (Sample.editor_with "one" {| start := Sample.at_ 2 5;
                                             end_ := Sample.at_ 2 10 |})
                eq_refl) as (_ & Hsel & _).
  destruct (Hsel eq_refl) as (Hstart & _ & Hend).
  split; [reflexivity|]. split; [exact Hstart|].
  apply Hend. simpl. discriminate.
Defined.

(* ================================================================== *)
(** ** Properties of the dispatcher *)
(* ================================================================== *)

Lemma checkContentsAreSame_changed (before after : string) :
  before <> after -> checkContentsAreSame before after = Some stale_message.
Proof.
  intros Hne. unfold checkContentsAreSame.
  apply String.eqb_neq in Hne. rewrite Hne. reflexivity.
Qed.

Lemma step_PromiseSettles_active (E : JsEngine) (H : AtomHost) (g : Group)
    (id : nat) (o : Operation) (k : Continuation) (s : Settlement) :
  find_op id (operations g) = Some o ->
  is_active o = true ->
  op_phase o = Some (AwaitProvider k) ->
  step E H g (PromiseSettles id s)
  = complete_op g o (fst (run_continuation H k (editor g) s))
      (snd (run_continuation H k (editor g) s)).
Proof.
  intros Hfind Hact Hph. cbn [step]. rewrite Hfind, Hact, Hph.
  destruct (run_continuation H k (editor g) s). reflexivity.
Qed.

(** A settlement never changes a buffer whose text is no longer the
    snapshot. *)
Lemma run_continuation_stale (H : AtomHost) (k : Continuation)
    (ed : TextEditor) (s : Settlement) :
  snapshot_of k <> text ed -> fst (run_continuation H k ed s) = ed.
Proof.
  intros Hne. destruct s as [v|message]; [|reflexivity].
  destruct k as [c|c|c]; destruct v as [edits|newCursor formatted];
    cbn [run_continuation snapshot_of] in *; try reflexivity.
  - unfold then_formatCode, then_apply_edits.
    rewrite (checkContentsAreSame_changed _ _ Hne). reflexivity.
  - unfold then_formatEntireFile.
    rewrite (checkContentsAreSame_changed _ _ Hne). reflexivity.
  - destruct edits as [|edit edits]; [reflexivity|].
    unfold then_formatAtPosition, then_apply_edits.
    rewrite (checkContentsAreSame_changed _ _ Hne). reflexivity.
Qed.

(** C10. On the type path an empty edit list ends the operation at once:
    the callback returns before [_checkContentsAreSame], so the operation
    completes without an error and without touching the buffer, whether
    or not the text still is the snapshot. *)
Theorem on_type_empty_result_is_noop (E : JsEngine) (H : AtomHost)
    (g : Group) (id : nat) (o : Operation) (contents : string)
    (edit : TextEditEvent) :
  find_op id (operations g) = Some o ->
  is_active o = true ->
  op_event o = type_type edit ->
  op_phase o = Some (AwaitProvider (Then_formatAtPosition contents)) ->
  then_formatAtPosition H contents (editor g) [] = (editor g, None)
  /\ step E H g (PromiseSettles id (Resolved (EditsValue [])))
     = (set_operations g
          (update_op (op_id o) (with_status Completed) (operations g)) None,
        [])
  /\ editor (fst (step E H g (PromiseSettles id (Resolved (EditsValue [])))))
     = editor g.
Proof.
  intros Hfind Hact Hev Hph.
  assert (Hstep :
            step E H g (PromiseSettles id (Resolved (EditsValue [])))
            = (set_operations g
                 (update_op (op_id o) (with_status Completed) (operations g))
                 None, [])).
  { rewrite (step_PromiseSettles_active E H g id o _ _ Hfind Hact Hph).
    cbn [run_continuation then_formatAtPosition fst snd].
    unfold complete_op, terminate_effects. rewrite Hev. cbn.
    destruct g; reflexivity. }
  split; [reflexivity|]. split; [exact Hstep|].
  rewrite Hstep. reflexivity.
Qed.

Lemma on_type_empty_result_is_noop_witness :
  let g := Scenario.after Scenario.typing in
  text (editor g) <> "abc"
  /\ step legacy_engine PlainHost.host g
       (PromiseSettles 0 (Resolved (EditsValue [])))
     = (set_operations g
          (update_op 0 (with_status Completed) (operations g)) None, []).
Proof.
  cbv zeta. split; [vm_compute; discriminate|].
  pose proof (on_type_empty_result_is_noop legacy_engine PlainHost.host
                (Scenario.after Scenario.typing) 0 Scenario.type_operation
                "abc" Sample.insert_x eq_refl eq_refl eq_refl eq_refl)
    as (_ & Hstep & _).
  exact Hstep.
Defined.

Lemma resolved_capable_empty (E : JsEngine)
    (registry : list CodeFormatProvider) (scope : string)
    (capable : CodeFormatProvider -> bool) :
  (forall p, In p registry -> provider_matches scope p = true ->
             capable p = false) ->
  filter capable (getMatchingProvidersForScopeName E registry scope) = [].
Proof.
  intros Hnone.
  destruct (filter capable _) as [|p rest] eqn:Ef; [reflexivity|].
  assert (Hin : In p (filter capable
                        (getMatchingProvidersForScopeName E registry scope)))
    by (rewrite Ef; left; reflexivity).
  apply filter_In in Hin. destruct Hin as [Hin Hcap].
  unfold getMatchingProvidersForScopeName in Hin.
  eapply Permutation_in in Hin; [|apply Permutation_sym, sort_permutation].
  apply filter_In in Hin. destruct Hin as [Hin Hmatch].
  rewrite (Hnone p Hin Hmatch) in Hcap. discriminate.
Qed.

(** C8. A command for a buffer whose scope has no registered provider of
    positive priority with [formatCode] or [formatEntireFile]: the
    operation errors with the no-provider message before any provider is
    called, the buffer is left as it is, the error is shown with
    [atom.notifications.addError], and the manager goes on listening (it
    is not disposed and the next event gets the next operation). *)
Theorem command_without_provider_is_reported (E : JsEngine) (H : AtomHost)
    (g : Group) :
  disposed g = false ->
  (forall p, In p (codeFormatProviders g) ->
             provider_matches (scopeName (editor g)) p = true ->
             command_capable p = false) ->
  formatCodeInTextEditor E H (codeFormatProviders g) (editor g)
  = Sub_error (no_provider_message (scopeName (editor g)))
  /\ snd (step E H g (FormatEventArrives type_command))
     = snd (unsubscribe_inner g)
       ++ [(nextId g,
            Notifications_addError "Failed to format code"
              (no_provider_message (scopeName (editor g))))]
  /\ editor (fst (step E H g (FormatEventArrives type_command))) = editor g
  /\ disposed (fst (step E H g (FormatEventArrives type_command))) = false
  /\ nextId (fst (step E H g (FormatEventArrives type_command)))
     = S (nextId g)
  /\ active_count (fst (step E H g (FormatEventArrives type_command)))
     = active_count (fst (unsubscribe_inner g)).
Proof.
  intros Hlive Hnone.
  assert (Hsub : formatCodeInTextEditor E H (codeFormatProviders g) (editor g)
                 = Sub_error (no_provider_message (scopeName (editor g)))).
  { unfold formatCodeInTextEditor.
    rewrite (resolved_capable_empty E _ _ command_capable Hnone).
    reflexivity. }
  split; [exact Hsub|].
  cbn [step]. rewrite Hlive.
  assert (Hsame : forall g1 log1, unsubscribe_inner g = (g1, log1) ->
            editor g1 = editor g
            /\ codeFormatProviders g1 = codeFormatProviders g
            /\ nextId g1 = nextId g /\ disposed g1 = disposed g).
  { intros g1 log1. unfold unsubscribe_inner.
    destruct (innerSubscription g) as [i|];
      [destruct (find_op i (operations g)) as [o|];
       [destruct (is_active o)|]|];
      intros Heq; inversion Heq; subst; repeat split. }
  destruct (unsubscribe_inner g) as [g1 log1] eqn:Eu.
  destruct (Hsame g1 log1 eq_refl) as (Hed & Hreg & Hnext & Hdis).
  unfold subscribe_handleEvent. rewrite Hed, Hreg, Hsub, Hnext, Hdis.
  cbn. repeat split; try assumption. 
Qed.

Lemma command_without_provider_is_reported_witness :
  snd (step legacy_engine PlainHost.host
         (Scenario.after [ProviderAdded Sample.position_only])
         (FormatEventArrives type_command))
  = [(0, Notifications_addError "Failed to format code"
           "No Code-Format providers registered for scope: source.js")].
Proof.
  pose proof (command_without_provider_is_reported legacy_engine
                PlainHost.host
                (Scenario.after [ProviderAdded Sample.position_only])
                eq_refl) as Hthm.
  destruct Hthm as (_ & Hlog & _).
  - intros p [<-|[]] _. reflexivity.
  - exact Hlog.
Defined.

(** After the failure the manager still serves the buffer: a provider is
    registered, the command comes again and the provider is called. *)
Lemma command_after_failure_is_served :
  map snd
    (snd (run legacy_engine PlainHost.host Scenario.fresh
            [FormatEventArrives type_command; ProviderAdded Sample.low;
             FormatEventArrives type_command]))
  = [Notifications_addError "Failed to format code"
       "No Code-Format providers registered for scope: source.js";
     Provider_call
       (Call_formatEntireFile Sample.low
          {| start := Sample.at_ 0 0; end_ := Sample.at_ 0 3 |})].
Proof. reflexivity. Qed.

Lemma no_provider_is_not_must_implement (scope : string) :
  Sub_error (no_provider_message scope) <> Sub_error must_implement_message.
Proof. unfold no_provider_message, must_implement_message. discriminate. Qed.

(** The last [throw] of [_formatCodeInTextEditor] is behind the filter
    that keeps the providers with one of the two methods. *)
Lemma must_implement_is_unreachable (E : JsEngine) (H : AtomHost)
    (registry : list CodeFormatProvider) (ed : TextEditor) :
  formatCodeInTextEditor E H registry ed <> Sub_error must_implement_message.
Proof.
  unfold formatCodeInTextEditor.
  destruct (filter command_capable _) as [|p l] eqn:Ef.
  - apply no_provider_is_not_must_implement.
  - assert (Hin : In p (p :: l)) by (left; reflexivity).
    rewrite <- Ef in Hin. apply filter_In in Hin.
    destruct Hin as [_ Hp]. unfold command_capable in Hp.
    destruct (has_formatCode p); destruct (has_formatEntireFile p);
      destruct (Range_isEmpty (selectedBufferRange ed));
      cbn; try discriminate.
Qed.

(** C9, as the code has it.  The provider of a command is the first
    resolved provider that has [formatCode] or [formatEntireFile].
    [formatCode] is called when the provider has it and the selection is
    not empty, and also when the selection is empty and the provider has
    no [formatEntireFile] (the range is then the whole buffer);
    [formatEntireFile] is called in the other cases.  A provider with
    neither method is skipped by the filter: it is never called, the
    "must implement" error is never raised, and dispatch only fails, with
    the no-provider error, when no capable provider is left.
    Registration accepts every provider. *)
Theorem command_dispatch (E : JsEngine) (H : AtomHost)
    (registry : list CodeFormatProvider) (ed : TextEditor)
    (provider : CodeFormatProvider) (rest : list CodeFormatProvider) :
  filter command_capable
    (getMatchingProvidersForScopeName E registry (scopeName ed))
  = provider :: rest ->
  let outcome := formatCodeInTextEditor E H registry ed in
  let selectionEmpty := Range_isEmpty (selectedBufferRange ed) in
  command_capable provider = true
  /\ (has_formatCode provider = true -> selectionEmpty = false ->
      outcome = Sub_wait (AwaitProvider (Then_formatCode (text ed)))
                  [Call_formatCode provider (formatRange_of H ed)])
  /\ (has_formatEntireFile provider = true -> selectionEmpty = true ->
      outcome = Sub_wait (AwaitProvider (Then_formatEntireFile (text ed)))
                  [Call_formatEntireFile provider (buffer_getRange H ed)])
  /\ (has_formatEntireFile provider = false -> selectionEmpty = true ->
      outcome = Sub_wait (AwaitProvider (Then_formatCode (text ed)))
                  [Call_formatCode provider (buffer_getRange H ed)])
  /\ (has_formatCode provider = false -> selectionEmpty = false ->
      outcome = Sub_wait (AwaitProvider (Then_formatEntireFile (text ed)))
                  [Call_formatEntireFile provider (formatRange_of H ed)])
  /\ outcome <> Sub_error must_implement_message
  /\ (forall registry' ed',
         formatCodeInTextEditor E H registry' ed'
         <> Sub_error must_implement_message)
  /\ (forall p, addProvider registry p = registry ++ [p]).
Proof.
  intros Hresolved. cbv zeta.
  assert (Hcap : command_capable provider = true).
  { assert (Hin : In provider (provider :: rest)) by (left; reflexivity).
    rewrite <- Hresolved in Hin. apply filter_In in Hin. apply Hin. }
  pose proof (must_implement_is_unreachable E H) as Hnever.
  split; [exact Hcap|].
  unfold command_capable in Hcap.
  unfold formatCodeInTextEditor, formatRange_of. rewrite Hresolved.
  destruct (has_formatCode provider) eqn:Ecode;
    destruct (has_formatEntireFile provider) eqn:Efile;
    destruct (Range_isEmpty (selectedBufferRange ed)) eqn:Eempty;
    cbn in *; try discriminate;
    repeat split; intros; try reflexivity; try discriminate;
    try apply Hnever.
Qed.

Lemma command_dispatch_witness :
  formatCodeInTextEditor legacy_engine PlainHost.host
    [Sample.low; Sample.high]
    (Sample.editor_with "abc" {| start := Sample.at_ 0 1;
                                 end_ := Sample.at_ 0 2 |})
  = Sub_wait (AwaitProvider (Then_formatCode "abc"))
      [Call_formatCode Sample.high
         {| start := Sample.at_ 0 0; end_ := Sample.at_ 1 0 |}].
Proof.
  pose proof (command_dispatch legacy_engine PlainHost.host
                [Sample.low; Sample.high]
                (Sample.editor_with "abc" {| start := Sample.at_ 0 1;
                                             end_ := Sample.at_ 0 2 |})
                Sample.high [Sample.low] eq_refl) as (_ & Hrange & _).
  exact (Hrange eq_refl eq_refl).
Defined.

(** A registry that holds a provider with neither method (priority 5) and
    a provider with [formatCode] only (priority 1), and an empty
    selection: the command raises no error, and it calls [formatCode], on
    the range of the whole buffer. *)
Lemma provider_without_methods_raises_no_error :
  command_capable Sample.neither = false
  /\ provider_matches "source.js" Sample.neither = true
  /\ Range_isEmpty Sample.no_selection = true
  /\ formatCodeInTextEditor legacy_engine PlainHost.host
       (addProvider (addProvider [] Sample.neither) Sample.range_only)
       (Sample.editor_with "abc" Sample.no_selection)
     = Sub_wait (AwaitProvider (Then_formatCode "abc"))
         [Call_formatCode Sample.range_only
            {| start := Sample.at_ 0 0; end_ := Sample.at_ 0 3 |}]
  /\ formatCodeInTextEditor modern_engine PlainHost.host
       (addProvider (addProvider [] Sample.neither) Sample.range_only)
       (Sample.editor_with "abc" Sample.no_selection)
     = Sub_wait (AwaitProvider (Then_formatCode "abc"))
         [Call_formatCode Sample.range_only
            {| start := Sample.at_ 0 0; end_ := Sample.at_ 0 3 |}].
Proof. repeat split; reflexivity. Qed.

(* ================================================================== *)
(** ** Invariants of the arbiter *)
(* ================================================================== *)

Lemma find_op_some (id : nat) (ops : list Operation) (o : Operation) :
  find_op id ops = Some o -> In o ops /\ op_id o = id.
Proof.
  intros Hf. apply find_some in Hf. destruct Hf as [Hin Heq].
  split; [exact Hin|]. apply Nat.eqb_eq, Heq.
Qed.

Lemma op_unique (ops : list Operation) (o o' : Operation) :
  NoDup (map op_id ops) -> In o ops -> In o' ops -> op_id o = op_id o' ->
  o = o'.
Proof.
  induction ops as [|a ops IH]; intros Hnd Hin Hin' Heq; [destruct Hin|].
  cbn [map] in Hnd. inversion Hnd as [|? ? Hnotin Hnd']; subst.
  destruct Hin as [<-|Hin]; destruct Hin' as [<-|Hin'].
  - reflexivity.
  - exfalso. apply Hnotin. rewrite Heq. apply in_map, Hin'.
  - exfalso. apply Hnotin. rewrite <- Heq. apply in_map, Hin.
  - apply IH; assumption.
Qed.

Lemma find_op_unique (id : nat) (ops : list Operation) (o o' : Operation) :
  NoDup (map op_id ops) -> find_op id ops = Some o -> In o' ops ->
  op_id o' = id -> o' = o.
Proof.
  intros Hnd Hf Hin Hid. apply find_op_some in Hf. destruct Hf as [Hin0 Hid0].
  apply (op_unique ops); try assumption. congruence.
Qed.

Lemma find_op_none (id : nat) (ops : list Operation) (o : Operation) :
  find_op id ops = None -> In o ops -> op_id o <> id.
Proof.
  intros Hf Hin Heq.
  pose proof (find_none _ _ Hf o Hin) as Hn. cbn in Hn.
  apply Nat.eqb_neq in Hn. contradiction.
Qed.

Lemma find_op_in (ops : list Operation) (o : Operation) :
  NoDup (map op_id ops) -> In o ops -> find_op (op_id o) ops = Some o.
Proof.
  intros Hnd Hin. destruct (find_op (op_id o) ops) as [o'|] eqn:Ef.
  - f_equal. symmetry.
    apply (find_op_unique (op_id o) ops o' o Hnd Ef Hin eq_refl).
  - exfalso. apply (find_op_none _ _ o Ef Hin). reflexivity.
Qed.

Lemma update_op_ids (id : nat) (f : Operation -> Operation)
    (ops : list Operation) :
  (forall o, op_id (f o) = op_id o) ->
  map op_id (update_op id f ops) = map op_id ops.
Proof.
  intros Hf. unfold update_op. rewrite map_map. apply map_ext.
  intros o. destruct (Nat.eqb (op_id o) id); [apply Hf|reflexivity].
Qed.

Lemma update_op_in (id : nat) (f : Operation -> Operation)
    (ops : list Operation) (o' : Operation) :
  In o' (update_op id f ops) ->
  exists o, In o ops
            /\ ((op_id o = id /\ o' = f o) \/ (op_id o <> id /\ o' = o)).
Proof.
  unfold update_op. rewrite in_map_iff. intros (o & Heq & Hin).
  exists o. split; [exact Hin|].
  destruct (Nat.eqb (op_id o) id) eqn:Eid.
  - apply Nat.eqb_eq in Eid. left. auto.
  - apply Nat.eqb_neq in Eid. right. auto.
Qed.

Lemma effects_of_app (id : nat) (l1 l2 : Log) :
  effects_of id (l1 ++ l2) = effects_of id l1 ++ effects_of id l2.
Proof. unfold effects_of. rewrite filter_app, map_app. reflexivity. Qed.

Lemma effects_of_tag_same (id : nat) (l : list Effect) :
  effects_of id (tag id l) = l.
Proof.
  unfold effects_of, tag. induction l as [|e l IH]; [reflexivity|].
  cbn [map filter fst]. rewrite Nat.eqb_refl. cbn [map snd]. f_equal. exact IH.
Qed.

Lemma effects_of_tag_other (id id' : nat) (l : list Effect) :
  id' <> id -> effects_of id (tag id' l) = [].
Proof.
  intros Hne. unfold effects_of, tag. induction l as [|e l IH]; [reflexivity|].
  cbn [map filter fst]. apply Nat.eqb_neq in Hne. rewrite Hne. exact IH.
Qed.

Lemma effects_of_fresh (id : nat) (log : Log) :
  (forall id' e, In (id', e) log -> id' <> id) -> effects_of id log = [].
Proof.
  intros Hfresh. unfold effects_of.
  induction log as [|[id' e] log IH]; [reflexivity|].
  cbn [filter fst].
  assert (Hne : id' <> id) by (apply (Hfresh id' e); left; reflexivity).
  apply Nat.eqb_neq in Hne. rewrite Hne. apply IH.
  intros id'' e' Hin. apply (Hfresh id'' e'). right. exact Hin.
Qed.

Lemma in_tag (id id' : nat) (e : Effect) (l : list Effect) :
  In (id', e) (tag id l) -> id' = id /\ In e l.
Proof.
  unfold tag. rewrite in_map_iff. intros (e' & Heq & Hin).
  inversion Heq; subst. auto.
Qed.

Lemma catch_effects_no_save (event : FormatEvent) (message : string) :
  ~ In Buffer_save (catch_effects event message).
Proof.
  destruct event; cbn; intros [Hc|[]]; discriminate.
Qed.

(** The invariant only reads the operations, the inner subscription and
    the next identifier. *)
Lemma invariant_ext (g g' : Group) (log : Log) :
  operations g' = operations g ->
  innerSubscription g' = innerSubscription g ->
  nextId g' = nextId g ->
  invariant g log -> invariant g' log.
Proof.
  intros Hops Hinner Hnext [F N I L P LF SO].
  split; rewrite ?Hops, ?Hinner, ?Hnext; assumption.
Qed.

Lemma invariant_no_active (g : Group) (log : Log) :
  invariant g log -> innerSubscription g = None ->
  forall o, In o (operations g) -> is_active o = false.
Proof.
  intros Hinv Hnone o Hin. destruct (is_active o) eqn:Ea; [|reflexivity].
  pose proof (inv_inner g log Hinv o Hin Ea) as Hi. congruence.
Qed.

Lemma filter_none {A} (f : A -> bool) (l : list A) :
  (forall x, In x l -> f x = false) -> filter f l = [].
Proof.
  induction l as [|a l IH]; intros Hall; [reflexivity|].
  cbn [filter]. rewrite (Hall a) by (left; reflexivity).
  apply IH. intros x Hin. apply Hall. right. exact Hin.
Qed.

(** An active operation completes, errors or is unsubscribed: its
    effects end with those of [finally], and no operation is active
    afterwards. *)
Lemma deactivate_invariant (g : Group) (log : Log) (o : Operation)
    (st : Status) (ed : TextEditor) (before : list Effect) :
  invariant g log -> In o (operations g) -> is_active o = true ->
  st <> Active -> ~ In Buffer_save before ->
  let g' := set_operations (set_editor g ed)
              (update_op (op_id o) (with_status st) (operations g)) None in
  invariant g' (log ++ tag (op_id o) (before ++ finally_effects (op_event o)))
  /\ forall o', In o' (operations g') -> is_active o' = false.
Proof.
  intros Hinv Hin Hact Hst Hbefore g'.
  assert (Hidle : forall o', In o' (operations g') -> is_active o' = false).
  { intros o' Hin'. cbn in Hin'. apply update_op_in in Hin'.
    destruct Hin' as (o0 & Hin0 & [[Hid ->]|[Hid ->]]).
    - destruct st; cbn; congruence.
    - destruct (is_active o0) eqn:Ea; [|reflexivity]. exfalso.
      pose proof (inv_inner g log Hinv o0 Hin0 Ea) as H0.
      pose proof (inv_inner g log Hinv o Hin Hact) as H1.
      congruence. }
  split; [|exact Hidle].
  split.
  - intros o' Hin'. cbn in Hin'. apply update_op_in in Hin'.
    destruct Hin' as (o0 & Hin0 & [[Hid ->]|[Hid ->]]); cbn;
      apply (inv_fresh g log Hinv o0 Hin0).
  - cbn. rewrite update_op_ids by reflexivity. apply (inv_nodup g log Hinv).
  - intros o' Hin' Ha. rewrite (Hidle o' Hin') in Ha. discriminate.
  - cbn. discriminate.
  - intros o' Hin' Ha. rewrite (Hidle o' Hin') in Ha. discriminate.
  - intros id e Hine. cbn. apply in_app_or in Hine.
    destruct Hine as [Hold|Hnew].
    + apply (inv_log_fresh g log Hinv id e Hold).
    + apply in_tag in Hnew. destruct Hnew as [-> _].
      apply (inv_fresh g log Hinv o Hin).
  - intros o' Hin' Hsave. cbn in Hin'. apply update_op_in in Hin'.
    destruct Hin' as (o0 & Hin0 & [[Hid ->]|[Hid ->]]).
    + assert (o0 = o)
        by (apply (op_unique (operations g)); try assumption;
            apply (inv_nodup g log Hinv)).
      subst o0. cbn in Hsave.
      assert (Hidle' : is_active (with_status st o) = false)
        by (destruct st; cbn; congruence).
      rewrite Hidle'. cbn [with_status op_id].
      rewrite effects_of_app, effects_of_tag_same, Hsave.
      cbn [finally_effects save_once].
      exists (effects_of (op_id o) log ++ before). split.
      * rewrite app_assoc. reflexivity.
      * intros Hc. apply in_app_or in Hc. destruct Hc as [Hc|Hc];
          [|exact (Hbefore Hc)].
        pose proof (inv_save_once g log Hinv o Hin Hsave) as Hso.
        rewrite Hact in Hso. exact (Hso Hc).
    + rewrite effects_of_app, effects_of_tag_other, app_nil_r by congruence.
      apply (inv_save_once g log Hinv o0 Hin0 Hsave).
Qed.

(** An active operation goes on to its next phase. *)
Lemma progress_invariant (g : Group) (log : Log) (o : Operation)
    (ph : Phase) (l : list Effect) :
  invariant g log -> In o (operations g) -> is_active o = true ->
  ~ In Buffer_save l ->
  (exists k, ph = AwaitProvider k) ->
  invariant
    (set_operations g (update_op (op_id o) (with_phase ph) (operations g))
       (innerSubscription g))
    (log ++ tag (op_id o) l).
Proof.
  intros Hinv Hin Hact Hl Hph.
  split.
  - intros o' Hin'. cbn in Hin'. apply update_op_in in Hin'.
    destruct Hin' as (o0 & Hin0 & [[Hid ->]|[Hid ->]]); cbn;
      apply (inv_fresh g log Hinv o0 Hin0).
  - cbn. rewrite update_op_ids by reflexivity. apply (inv_nodup g log Hinv).
  - intros o' Hin' Ha. cbn in Hin'. apply update_op_in in Hin'.
    destruct Hin' as (o0 & Hin0 & [[Hid ->]|[Hid ->]]); cbn;
      apply (inv_inner g log Hinv o0 Hin0 Ha).
  - cbn. apply (inv_latest g log Hinv).
  - intros o' Hin' Ha Hsave. cbn in Hin'. apply update_op_in in Hin'.
    destruct Hin' as (o0 & Hin0 & [[Hid ->]|[Hid ->]]).
    + cbn. destruct Hph as [k ->]. exists k. reflexivity.
    + apply (inv_save_phase g log Hinv o0 Hin0 Ha Hsave).
  - intros id e Hine. cbn. apply in_app_or in Hine.
    destruct Hine as [Hold|Hnew].
    + apply (inv_log_fresh g log Hinv id e Hold).
    + apply in_tag in Hnew. destruct Hnew as [-> _].
      apply (inv_fresh g log Hinv o Hin).
  - intros o' Hin' Hsave. cbn in Hin'. apply update_op_in in Hin'.
    destruct Hin' as (o0 & Hin0 & [[Hid ->]|[Hid ->]]).
    + assert (o0 = o)
        by (apply (op_unique (operations g)); try assumption;
            apply (inv_nodup g log Hinv)).
      subst o0. cbn in Hsave.
      replace (is_active (with_phase ph o)) with true
        by (symmetry; exact Hact).
      cbn [with_phase op_id save_once].
      rewrite effects_of_app, effects_of_tag_same.
      intros Hc. apply in_app_or in Hc. destruct Hc as [Hc|Hc];
        [|exact (Hl Hc)].
      pose proof (inv_save_once g log Hinv o Hin Hsave) as Hso.
      rewrite Hact in Hso. exact (Hso Hc).
    + rewrite effects_of_app, effects_of_tag_other, app_nil_r by congruence.
      apply (inv_save_once g log Hinv o0 Hin0 Hsave).
Qed.

Lemma unsubscribe_inner_invariant (g : Group) (log : Log) :
  invariant g log ->
  let g1 := fst (unsubscribe_inner g) in
  let log1 := snd (unsubscribe_inner g) in
  invariant g1 (log ++ log1)
  /\ innerSubscription g1 = None
  /\ editor g1 = editor g
  /\ codeFormatProviders g1 = codeFormatProviders g
  /\ config g1 = config g
  /\ nextId g1 = nextId g
  /\ disposed g1 = disposed g
  /\ (forall o, In o (operations g1) -> is_active o = false)
  /\ (forall id e, In (id, e) log1 -> e = Buffer_save).
Proof.
  intros Hinv. cbv zeta. unfold unsubscribe_inner.
  assert (Hcleared : (forall o, In o (operations g) -> is_active o = false) ->
            invariant (set_operations g (operations g) None) log).
  { intros Hidle. destruct Hinv as [F N I L P LF SO].
    split; cbn; try assumption.
    - intros o' Hin' Ha. rewrite (Hidle o' Hin') in Ha. discriminate.
    - discriminate. }
  destruct (innerSubscription g) as [id|] eqn:Einner.
  - destruct (find_op id (operations g)) as [o|] eqn:Efind.
    + pose proof (find_op_some _ _ _ Efind) as [Hin Hid]. subst id.
      destruct (is_active o) eqn:Eact.
      * pose proof (deactivate_invariant g log o Abandoned (editor g) []
                      Hinv Hin Eact ltac:(discriminate) ltac:(intros []))
          as [Hinv' Hidle].
        cbn [fst snd]. split; [exact Hinv'|].
        repeat split; try exact Hidle.
        intros id e Hine. apply in_tag in Hine. destruct Hine as [_ Hine].
        destruct (op_event o); cbn in Hine; try contradiction.
        destruct Hine as [<-|[]]. reflexivity.
      * cbn [fst snd]. rewrite app_nil_r.
        assert (Hidle : forall o', In o' (operations g) ->
                                   is_active o' = false).
        { intros o' Hin'. destruct (is_active o') eqn:Ea; [|reflexivity].
          pose proof (inv_inner g log Hinv o' Hin' Ea) as Hi.
          rewrite Einner in Hi. inversion Hi as [Hid].
          assert (o' = o)
            by (apply (find_op_unique (op_id o) (operations g));
                try assumption; try congruence;
                apply (inv_nodup g log Hinv)).
          congruence. }
        split; [apply Hcleared, Hidle|].
        repeat split; try (intros ? ? []); try exact Hidle.
    + cbn [fst snd]. rewrite app_nil_r.
      assert (Hidle : forall o', In o' (operations g) ->
                                 is_active o' = false).
      { intros o' Hin'. destruct (is_active o') eqn:Ea; [|reflexivity].
        pose proof (inv_inner g log Hinv o' Hin' Ea) as Hi.
        rewrite Einner in Hi. inversion Hi as [Hid].
        exfalso. apply (find_op_none _ _ o' Efind Hin'). congruence. }
      split; [apply Hcleared, Hidle|].
      repeat split; try (intros ? ? []); try exact Hidle.
  - cbn [fst snd]. rewrite app_nil_r.
    split; [exact Hinv|].
    repeat split; try assumption; try (intros ? ? []).
    apply (invariant_no_active g log Hinv Einner).
Qed.

(** A new operation is recorded while no other is active. *)
Lemma add_op_invariant (g : Group) (log : Log) (event : FormatEvent)
    (ph : option Phase) (st : Status) (inner : option nat)
    (l : list Effect) :
  invariant g log ->
  innerSubscription g = None ->
  (st = Active -> inner = Some (nextId g)) ->
  (st <> Active -> inner = None) ->
  (event = type_save ->
   save_once (match st with Active => true | _ => false end) l
   /\ (st = Active -> exists k, ph = Some (AwaitProvider k))) ->
  invariant
    {| editor := editor g; codeFormatProviders := codeFormatProviders g;
       config := config g;
       operations :=
         {| op_id := nextId g; op_event := event; op_phase := ph;
            op_status := st |} :: operations g;
       innerSubscription := inner;
       nextId := S (nextId g); disposed := disposed g |}
    (log ++ tag (nextId g) l).
Proof.
  intros Hinv Hnone Hact Hidle Hsave.
  pose proof (invariant_no_active g log Hinv Hnone) as Hold.
  split; cbn [operations innerSubscription nextId].
  - intros o [<-|Hin]; cbn; [lia|].
    pose proof (inv_fresh g log Hinv o Hin). lia.
  - cbn [map op_id]. constructor; [|apply (inv_nodup g log Hinv)].
    intros Hin. apply in_map_iff in Hin. destruct Hin as (o & Heq & Hin).
    pose proof (inv_fresh g log Hinv o Hin). lia.
  - intros o [<-|Hin] Ha.
    + cbn. apply Hact. unfold is_active in Ha. cbn in Ha.
      destruct st; congruence.
    + rewrite (Hold o Hin) in Ha. discriminate.
  - intros id Hinner. destruct st.
    + rewrite Hact in Hinner by reflexivity. congruence.
    + rewrite Hidle in Hinner by discriminate. discriminate.
    + rewrite Hidle in Hinner by discriminate. discriminate.
  - intros o [<-|Hin] Ha Hev.
    + cbn in *. apply Hsave; [exact Hev|].
      unfold is_active in Ha. cbn in Ha. destruct st; congruence.
    + rewrite (Hold o Hin) in Ha. discriminate.
  - intros id e Hine. apply in_app_or in Hine. destruct Hine as [Hine|Hine].
    + pose proof (inv_log_fresh g log Hinv id e Hine). lia.
    + apply in_tag in Hine. destruct Hine as [-> _]. lia.
  - intros o [<-|Hin] Hev.
    + cbn [op_id]. rewrite effects_of_app, effects_of_tag_same.
      rewrite effects_of_fresh.
      * cbn [app]. unfold is_active. cbn [op_status]. apply Hsave, Hev.
      * intros id' e Hine.
        pose proof (inv_log_fresh g log Hinv id' e Hine). lia.
    + rewrite effects_of_app, effects_of_tag_other, app_nil_r.
      * apply (inv_save_once g log Hinv o Hin Hev).
      * pose proof (inv_fresh g log Hinv o Hin). lia.
Qed.

Lemma formatCodeInTextEditor_waits_for_provider (E : JsEngine)
    (H : AtomHost) (registry : list CodeFormatProvider) (ed : TextEditor)
    (ph : Phase) (calls : list ProviderCall) :
  formatCodeInTextEditor E H registry ed = Sub_wait ph calls ->
  exists k, ph = AwaitProvider k.
Proof.
  unfold formatCodeInTextEditor.
  destruct (filter command_capable _) as [|p l]; [discriminate|].
  destruct (has_formatCode p && _).
  - intros Heq. inversion Heq. eexists. reflexivity.
  - destruct (has_formatEntireFile p); [|discriminate].
    intros Heq. inversion Heq. eexists. reflexivity.
Qed.

Lemma provider_calls_no_save (calls : list ProviderCall) (l : list Effect) :
  ~ In Buffer_save l -> ~ In Buffer_save (l ++ map Provider_call calls).
Proof.
  intros Hl Hc. apply in_app_or in Hc. destruct Hc as [Hc|Hc]; [auto|].
  apply in_map_iff in Hc. destruct Hc as (c & Heq & _). discriminate.
Qed.

Lemma subscribe_handleEvent_invariant (E : JsEngine) (H : AtomHost)
    (g : Group) (log : Log) (event : FormatEvent) :
  invariant g log ->
  innerSubscription g = None ->
  invariant (fst (subscribe_handleEvent E H g event))
    (log ++ snd (subscribe_handleEvent E H g event)).
Proof.
  intros Hinv Hnone. unfold subscribe_handleEvent.
  destruct event as [| |edit].
  - destruct (formatCodeInTextEditor E H _ _) as [message| |ph calls];
      cbn [fst snd]; apply add_op_invariant; try assumption;
      try discriminate; try reflexivity; try congruence.
  - destruct (formatCodeOnSaveInTextEditor E H _ _)
      as [message| |ph calls] eqn:Esub;
      cbn [fst snd]; apply add_op_invariant; try assumption;
      try discriminate; try reflexivity; try congruence; intros _.
    + split; [|discriminate]. cbn.
      exists [Timer_start SAVE_TIMEOUT;
              Logger_warn "Failed to format code on save:" message].
      split; [reflexivity|]. intros [Hc|[Hc|[]]]; discriminate.
    + split; [|discriminate]. cbn.
      exists [Timer_start SAVE_TIMEOUT].
      split; [reflexivity|]. intros [Hc|[]]; discriminate.
    + split.
      * cbn [save_once]. apply provider_calls_no_save.
        intros [Hc|[]]; discriminate.
      * intros _.
        destruct (formatCodeInTextEditor_waits_for_provider _ _ _ _ _ _ Esub)
          as [k ->].
        exists k. reflexivity.
  - destruct (formatCodeOnTypeInTextEditor E _ _ _ _) as [message| |ph calls];
      cbn [fst snd]; apply add_op_invariant; try assumption;
      try discriminate; try reflexivity; try congruence.
Qed.

Lemma complete_op_invariant (g : Group) (log : Log) (o : Operation)
    (ed : TextEditor) (error : option string) :
  invariant g log -> In o (operations g) -> is_active o = true ->
  invariant (fst (complete_op g o ed error))
    (log ++ snd (complete_op g o ed error))
  /\ forall o', In o' (operations (fst (complete_op g o ed error))) ->
                is_active o' = false.
Proof.
  intros Hinv Hin Hact. unfold complete_op, terminate_effects. cbn [fst snd].
  apply deactivate_invariant; try assumption; [discriminate|].
  destruct error as [message|]; [apply catch_effects_no_save|intros []].
Qed.

Lemma step_invariant (E : JsEngine) (H : AtomHost) (g : Group) (log : Log)
    (e : Event) :
  invariant g log ->
  invariant (fst (step E H g e)) (log ++ snd (step E H g e)).
Proof.
  intros Hinv.
  pose proof (unsubscribe_inner_invariant g log Hinv) as Hunsub.
  cbv zeta in Hunsub.
  destruct e as [event|id|id s|id| | |ed|cfg|provider|provider]; cbn [step].
  - destruct (disposed g); [cbn; rewrite app_nil_r; exact Hinv|].
    destruct (unsubscribe_inner g) as [g1 log1]. cbn [fst snd] in Hunsub.
    destruct Hunsub as (Hinv1 & Hnone & _).
    pose proof (subscribe_handleEvent_invariant E H g1 (log ++ log1) event
                  Hinv1 Hnone) as Hinv2.
    destruct (subscribe_handleEvent E H g1 event) as [g2 log2].
    cbn [fst snd] in *. rewrite app_assoc. exact Hinv2.
  - destruct (find_op id (operations g)) as [o|] eqn:Efind;
      [|cbn; rewrite app_nil_r; exact Hinv].
    pose proof (find_op_some _ _ _ Efind) as [Hin Hid]. subst id.
    destruct (is_active o) eqn:Eact;
      [|cbn; rewrite app_nil_r; exact Hinv].
    destruct (op_phase o) as [[provider character contents|k]|];
      try (cbn; rewrite app_nil_r; exact Hinv).
    cbn [fst snd]. apply progress_invariant; try assumption.
    + intros [Hc|[]]. discriminate.
    + eexists. reflexivity.
  - destruct (find_op id (operations g)) as [o|] eqn:Efind;
      [|cbn; rewrite app_nil_r; exact Hinv].
    pose proof (find_op_some _ _ _ Efind) as [Hin Hid]. subst id.
    destruct (is_active o) eqn:Eact;
      [|cbn; rewrite app_nil_r; exact Hinv].
    destruct (op_phase o) as [[provider character contents|k]|];
      try (cbn; rewrite app_nil_r; exact Hinv).
    destruct (run_continuation H k (editor g) s) as [ed error].
    apply complete_op_invariant; assumption.
  - destruct (find_op id (operations g)) as [o|] eqn:Efind;
      [|cbn; rewrite app_nil_r; exact Hinv].
    pose proof (find_op_some _ _ _ Efind) as [Hin Hid]. subst id.
    destruct (is_active o) eqn:Eact;
      [|cbn; rewrite app_nil_r; exact Hinv].
    destruct (is_save (op_event o));
      [|cbn; rewrite app_nil_r; exact Hinv].
    cbn [andb]. apply complete_op_invariant; assumption.
  - apply Hunsub.
  - destruct (unsubscribe_inner g) as [g1 log1]. cbn [fst snd] in *.
    destruct Hunsub as (Hinv1 & _).
    eapply invariant_ext; [| | |exact Hinv1]; reflexivity.
  - cbn [fst snd]. rewrite app_nil_r.
    eapply invariant_ext; [| | |exact Hinv]; reflexivity.
  - cbn [fst snd]. rewrite app_nil_r.
    eapply invariant_ext; [| | |exact Hinv]; reflexivity.
  - cbn [fst snd]. rewrite app_nil_r.
    eapply invariant_ext; [| | |exact Hinv]; reflexivity.
  - cbn [fst snd]. rewrite app_nil_r.
    eapply invariant_ext; [| | |exact Hinv]; reflexivity.
Qed.

Lemma run_invariant (E : JsEngine) (H : AtomHost) (trace : list Event)
    (g : Group) (log : Log) :
  invariant g log ->
  invariant (fst (run E H g trace)) (log ++ snd (run E H g trace)).
Proof.
  revert g log. induction trace as [|e trace IH]; intros g log Hinv.
  - cbn. rewrite app_nil_r. exact Hinv.
  - cbn [run].
    pose proof (step_invariant E H g log e Hinv) as Hstep.
    destruct (step E H g e) as [g1 log1]. cbn [fst snd] in Hstep.
    pose proof (IH g1 (log ++ log1) Hstep) as Hrun.
    destruct (run E H g1 trace) as [g2 log2]. cbn [fst snd] in *.
    rewrite app_assoc. exact Hrun.
Qed.

Lemma new_Group_invariant (ed : TextEditor) (cfg : AtomConfig) :
  invariant (new_Group ed cfg) [].
Proof.
  split; cbn.
  - intros o [].
  - constructor.
  - intros o [].
  - discriminate.
  - intros o [].
  - intros id e [].
  - intros o [].
Qed.

Lemma reachable_invariant (E : JsEngine) (H : AtomHost) (ed : TextEditor)
    (cfg : AtomConfig) (trace : list Event) :
  invariant (fst (run E H (new_Group ed cfg) trace))
    (snd (run E H (new_Group ed cfg) trace)).
Proof.
  apply (run_invariant E H trace (new_Group ed cfg) []).
  apply new_Group_invariant.
Qed.

Lemma active_ids_distinct (ops : list Operation) :
  NoDup (map op_id ops) -> NoDup (map op_id (filter is_active ops)).
Proof.
  intros Hnd. induction ops as [|o ops IH]; [constructor|].
  cbn [map] in Hnd. inversion Hnd as [|? ? Hnotin Hnd']; subst.
  cbn [filter]. destruct (is_active o); [|apply IH, Hnd'].
  cbn [map]. constructor; [|apply IH, Hnd'].
  intros Hin. apply Hnotin. apply in_map_iff in Hin.
  destruct Hin as (o' & Heq & Hin). apply filter_In in Hin.
  rewrite <- Heq. apply in_map, Hin.
Qed.

Lemma invariant_active_count (g : Group) (log : Log) :
  invariant g log -> active_count g <= 1.
Proof.
  intros Hinv. unfold active_count.
  pose proof (active_ids_distinct (operations g) (inv_nodup g log Hinv))
    as Hnd.
  assert (Hsame : forall o, In o (filter is_active (operations g)) ->
                            innerSubscription g = Some (op_id o)).
  { intros o Hin. apply filter_In in Hin. destruct Hin as [Hin Ha].
    apply (inv_inner g log Hinv o Hin Ha). }
  destruct (filter is_active (operations g)) as [|a [|b l]]; cbn; try lia.
  exfalso.
  pose proof (Hsame a (or_introl eq_refl)) as Ha.
  pose proof (Hsame b (or_intror (or_introl eq_refl))) as Hb.
  cbn [map] in Hnd. inversion Hnd as [|? ? Hnotin _]; subst.
  apply Hnotin. left. congruence.
Qed.

(** An event for an operation that is not the one of the latest format
    event does nothing. *)
Lemma step_stale_operation (E : JsEngine) (H : AtomHost) (g : Group)
    (log : Log) (id : nat) :
  invariant g log -> nextId g <> S id ->
  step E H g (NextTick id) = (g, [])
  /\ (forall s, step E H g (PromiseSettles id s) = (g, []))
  /\ step E H g (TimeoutFires id) = (g, []).
Proof.
  intros Hinv Hold.
  assert (Hidle : forall o, find_op id (operations g) = Some o ->
                            is_active o = false).
  { intros o Hfind. apply find_op_some in Hfind. destruct Hfind as [Hin Hid].
    destruct (is_active o) eqn:Ea; [|reflexivity]. exfalso.
    pose proof (inv_inner g log Hinv o Hin Ea) as Hi.
    pose proof (inv_latest g log Hinv _ Hi). congruence. }
  cbn [step].
  destruct (find_op id (operations g)) as [o|]; [|repeat split].
  rewrite (Hidle o eq_refl). repeat split.
Qed.

Lemma filter_map_length {A} (p : A -> bool) (h : A -> A) (l : list A) :
  (forall x, p (h x) = p x) ->
  List.length (filter p (map h l)) = List.length (filter p l).
Proof.
  intros Hp. induction l as [|a l IH]; [reflexivity|].
  cbn [map filter]. rewrite Hp. destruct (p a); cbn; rewrite IH; reflexivity.
Qed.

Lemma update_op_save_operations (id : nat) (f : Operation -> Operation)
    (ops : list Operation) :
  (forall o, op_event (f o) = op_event o) ->
  List.length (filter (fun o => is_save (op_event o)) (update_op id f ops))
  = List.length (filter (fun o => is_save (op_event o)) ops).
Proof.
  intros Hf. unfold update_op. apply filter_map_length.
  intros o. destruct (Nat.eqb (op_id o) id); [rewrite Hf|]; reflexivity.
Qed.

Lemma unsubscribe_inner_save_operations (g : Group) :
  List.length (save_operations (fst (unsubscribe_inner g)))
  = List.length (save_operations g)
  /\ disposed (fst (unsubscribe_inner g)) = disposed g.
Proof.
  unfold unsubscribe_inner, save_operations.
  destruct (innerSubscription g) as [id|]; [|split; reflexivity].
  destruct (find_op id (operations g)) as [o|]; [|split; reflexivity].
  destruct (is_active o); [|split; reflexivity].
  cbn. split; [|reflexivity].
  apply update_op_save_operations. reflexivity.
Qed.

Lemma subscribe_handleEvent_frame (E : JsEngine) (H : AtomHost) (g : Group)
    (event : FormatEvent) :
  let g' := fst (subscribe_handleEvent E H g event) in
  List.length (save_operations g')
  = List.length (save_operations g) + (if is_save event then 1 else 0)
  /\ disposed g' = disposed g
  /\ nextId g' = S (nextId g)
  /\ editor g' = editor g
  /\ (forall id e, In (id, e) (snd (subscribe_handleEvent E H g event)) ->
                   id = nextId g)
  /\ exists o, operations g' = o :: operations g /\ op_id o = nextId g.
Proof.
  cbv zeta. unfold subscribe_handleEvent, save_operations.
  destruct event as [| |edit].
  - destruct (formatCodeInTextEditor E H _ _); cbn [fst snd];
      (repeat split;
       [cbn; lia|intros id e Hin; apply in_tag in Hin; tauto
       |eexists; split; reflexivity]).
  - destruct (formatCodeOnSaveInTextEditor E H _ _); cbn [fst snd];
      (repeat split;
       [cbn; lia|intros id e Hin; apply in_tag in Hin; tauto
       |eexists; split; reflexivity]).
  - destruct (formatCodeOnTypeInTextEditor E _ _ _ _); cbn [fst snd];
      (repeat split;
       [cbn; lia|intros id e Hin; apply in_tag in Hin; tauto
       |eexists; split; reflexivity]).
Qed.

Lemma step_save_operations (E : JsEngine) (H : AtomHost) (g : Group)
    (e : Event) :
  List.length (save_operations (fst (step E H g e)))
  = List.length (save_operations g)
    + (if disposed g then 0 else if is_save_event e then 1 else 0)
  /\ disposed (fst (step E H g e)) = disposed g || is_dispose e.
Proof.
  pose proof (unsubscribe_inner_save_operations g) as [Hlen Hdis].
  destruct e as [event|id|id s|id| | |ed|cfg|provider|provider]; cbn [step].
  - destruct (disposed g) eqn:Ed.
    + cbn. rewrite Ed. split; [lia|reflexivity].
    + destruct (unsubscribe_inner g) as [g1 log1]. cbn [fst] in *.
      pose proof (subscribe_handleEvent_frame E H g1 event)
        as (Hlen2 & Hdis2 & _).
      destruct (subscribe_handleEvent E H g1 event) as [g2 log2].
      cbn [fst] in *. rewrite Hlen2, Hdis2, Hlen, Hdis.
      split; [|reflexivity].
      destruct event as [| |edit]; reflexivity.
  - cbn [is_save_event is_dispose]. rewrite orb_false_r.
    destruct (find_op id (operations g)) as [o|];
      [|cbn; split; [destruct (disposed g); lia|reflexivity]].
    destruct (is_active o);
      [|cbn; split; [destruct (disposed g); lia|reflexivity]].
    destruct (op_phase o) as [[provider character contents|k]|];
      try (cbn; split; [destruct (disposed g); lia|reflexivity]).
    cbn. split; [|reflexivity]. unfold save_operations. cbn.
    rewrite update_op_save_operations by reflexivity.
    destruct (disposed g); lia.
  - cbn [is_save_event is_dispose]. rewrite orb_false_r.
    destruct (find_op id (operations g)) as [o|];
      [|cbn; split; [destruct (disposed g); lia|reflexivity]].
    destruct (is_active o);
      [|cbn; split; [destruct (disposed g); lia|reflexivity]].
    destruct (op_phase o) as [[provider character contents|k]|];
      try (cbn; split; [destruct (disposed g); lia|reflexivity]).
    destruct (run_continuation H k (editor g) s) as [ed error].
    cbn. split; [|reflexivity]. unfold save_operations. cbn.
    rewrite update_op_save_operations by reflexivity.
    destruct (disposed g); lia.
  - cbn [is_save_event is_dispose]. rewrite orb_false_r.
    destruct (find_op id (operations g)) as [o|];
      [|cbn; split; [destruct (disposed g); lia|reflexivity]].
    destruct (is_active o && is_save (op_event o));
      [|cbn; split; [destruct (disposed g); lia|reflexivity]].
    cbn. split; [|reflexivity]. unfold save_operations. cbn.
    rewrite update_op_save_operations by reflexivity.
    destruct (disposed g); lia.
  - cbn [is_save_event is_dispose]. rewrite orb_false_r, Hlen, Hdis.
    split; [destruct (disposed g); lia|reflexivity].
  - destruct (unsubscribe_inner g) as [g1 log1]. cbn [fst] in *.
    cbn. rewrite orb_true_r. unfold save_operations in *. cbn.
    rewrite Hlen. split; [destruct (disposed g); lia|reflexivity].
  - unfold save_operations. cbn. rewrite orb_false_r.
    split; [destruct (disposed g); lia|reflexivity].
  - unfold save_operations. cbn. rewrite orb_false_r.
    split; [destruct (disposed g); lia|reflexivity].
  - unfold save_operations. cbn. rewrite orb_false_r.
    split; [destruct (disposed g); lia|reflexivity].
  - unfold save_operations. cbn. rewrite orb_false_r.
    split; [destruct (disposed g); lia|reflexivity].
Qed.

Lemma run_save_operations (E : JsEngine) (H : AtomHost)
    (trace : list Event) (g : Group) :
  List.length (save_operations (fst (run E H g trace)))
  = List.length (save_operations g)
    + (if disposed g then 0 else delivered_saves trace).
Proof.
  revert g. induction trace as [|e trace IH]; intros g.
  - cbn. destruct (disposed g); lia.
  - cbn [run].
    pose proof (step_save_operations E H g e) as [Hlen Hdis].
    specialize (IH (fst (step E H g e))).
    destruct (step E H g e) as [g1 log1]. cbn [fst] in *.
    destruct (run E H g1 trace) as [g2 log2]. cbn [fst] in *.
    rewrite IH, Hlen, Hdis.
    destruct (disposed g); cbn [orb]; [lia|].
    destruct e as [[| |edit]|id|id s|id| | |ed|cfg|provider|provider];
      cbn; lia.
Qed.

Lemma unsubscribe_inner_active (g : Group) (log : Log) (o : Operation) :
  invariant g log -> In o (operations g) -> is_active o = true ->
  snd (unsubscribe_inner g) = tag (op_id o) (finally_effects (op_event o)).
Proof.
  intros Hinv Hin Hact. unfold unsubscribe_inner.
  rewrite (inv_inner g log Hinv o Hin Hact).
  rewrite (find_op_in _ _ (inv_nodup g log Hinv) Hin), Hact. reflexivity.
Qed.

Lemma step_FormatEventArrives (E : JsEngine) (H : AtomHost) (g : Group)
    (event : FormatEvent) :
  disposed g = false ->
  step E H g (FormatEventArrives event)
  = (fst (subscribe_handleEvent E H (fst (unsubscribe_inner g)) event),
     snd (unsubscribe_inner g)
     ++ snd (subscribe_handleEvent E H (fst (unsubscribe_inner g)) event)).
Proof.
  intros Hlive. cbn [step]. rewrite Hlive.
  destruct (unsubscribe_inner g) as [g1 log1]. cbn [fst snd].
  destruct (subscribe_handleEvent E H g1 event). reflexivity.
Qed.

Lemma unsubscribe_inner_frame (g : Group) :
  editor (fst (unsubscribe_inner g)) = editor g
  /\ codeFormatProviders (fst (unsubscribe_inner g)) = codeFormatProviders g
  /\ config (fst (unsubscribe_inner g)) = config g
  /\ nextId (fst (unsubscribe_inner g)) = nextId g
  /\ disposed (fst (unsubscribe_inner g)) = disposed g.
Proof.
  unfold unsubscribe_inner.
  destruct (innerSubscription g) as [id|]; [|repeat split].
  destruct (find_op id (operations g)) as [o|]; [|repeat split].
  destruct (is_active o); repeat split.
Qed.

Lemma step_NextTick_new_operation (E : JsEngine) (H : AtomHost) (g : Group)
    (o : Operation) (provider : CodeFormatProvider)
    (character : option ascii) (contents : string) :
  operations g = o :: List.tl (operations g) ->
  is_active o = true ->
  op_phase o = Some (AwaitNextTick provider character contents) ->
  step E H g (NextTick (op_id o))
  = (set_operations g
       (update_op (op_id o)
          (with_phase (AwaitProvider (Then_formatAtPosition contents)))
          (operations g))
       (innerSubscription g),
     tag (op_id o)
       [Provider_call (formatAtPosition_call provider character (editor g))]).
Proof.
  intros Hops Hact Hph. cbn [step].
  assert (Hfind : find_op (op_id o) (operations g) = Some o).
  { rewrite Hops. unfold find_op. cbn [find].
    rewrite Nat.eqb_refl. reflexivity. }
  rewrite Hfind, Hact, Hph. reflexivity.
Qed.

(** Each way a save operation can end brings exactly one [Buffer_save],
    as the last effect of the operation. *)
Lemma active_save_ends (E : JsEngine) (H : AtomHost) (g : Group) (log : Log)
    (o : Operation) :
  invariant g log -> In o (operations g) -> op_event o = type_save ->
  is_active o = true ->
  let outcome e :=
    ended (op_id o) (fst (step E H g e))
    /\ save_once false (effects_of (op_id o) (snd (step E H g e))) in
  (forall s, outcome (PromiseSettles (op_id o) s))
  /\ outcome (TimeoutFires (op_id o))
  /\ outcome BufferDestroyed
  /\ outcome ManagerDisposed
  /\ (forall event, disposed g = false -> outcome (FormatEventArrives event)).
Proof.
  intros Hinv Hin Hsave Hact. cbv zeta.
  pose proof (find_op_in _ _ (inv_nodup g log Hinv) Hin) as Hfind.
  destruct (inv_save_phase g log Hinv o Hin Hact Hsave) as [k Hph].
  pose proof (unsubscribe_inner_invariant g log Hinv) as Hunsub.
  cbv zeta in Hunsub.
  destruct Hunsub as (_ & _ & _ & _ & _ & Hnext1 & _ & Hidle1 & _).
  pose proof (unsubscribe_inner_active g log o Hinv Hin Hact) as Hlog1.
  rewrite Hsave in Hlog1. cbn [finally_effects] in Hlog1.
  assert (Hcomplete : forall ed error,
             ended (op_id o) (fst (complete_op g o ed error))
             /\ save_once false
                  (effects_of (op_id o) (snd (complete_op g o ed error)))).
  { intros ed error. split.
    - intros o' Hin' _.
      apply (proj2 (complete_op_invariant g log o ed error Hinv Hin Hact)).
      exact Hin'.
    - unfold complete_op. cbn [snd]. rewrite effects_of_tag_same, Hsave.
      unfold terminate_effects. cbn [finally_effects save_once].
      eexists. split; [reflexivity|].
      destruct error; [apply catch_effects_no_save|intros []]. }
  split; [|split; [|split; [|split]]].
  - intros s.
    rewrite (step_PromiseSettles_active E H g _ o k s Hfind Hact Hph).
    apply Hcomplete.
  - cbn [step]. rewrite Hfind, Hact, Hsave. apply Hcomplete.
  - cbn [step]. split.
    + intros o' Hin' _. apply Hidle1, Hin'.
    + rewrite Hlog1, effects_of_tag_same.
      exists []. split; [reflexivity|intros []].
  - cbn [step]. destruct (unsubscribe_inner g) as [g1 log1].
    cbn [fst snd] in *. split.
    + intros o' Hin' _. apply Hidle1, Hin'.
    + rewrite Hlog1, effects_of_tag_same.
      exists []. split; [reflexivity|intros []].
  - intros event Hlive.
    rewrite (step_FormatEventArrives E H g event Hlive). cbn [fst snd].
    pose proof (subscribe_handleEvent_frame E H (fst (unsubscribe_inner g))
                  event) as (_ & _ & _ & _ & Hids & newop & Hops & Hnew).
    pose proof (inv_fresh g log Hinv o Hin) as Hfresh.
    split.
    + intros o' Hin' Hid. rewrite Hops in Hin'.
      destruct Hin' as [<-|Hin']; [|apply Hidle1, Hin'].
      exfalso. lia.
    + rewrite effects_of_app, Hlog1, effects_of_tag_same.
      rewrite effects_of_fresh.
      * exists []. split; [reflexivity|intros []].
      * intros id' e Hine. apply Hids in Hine. lia.
Qed.

(* ================================================================== *)
(** ** Properties of the arbiter *)
(* ================================================================== *)

(** C2. In every run, each save event that reaches the manager has its
    operation; while the operation is active its effects hold no
    [Buffer_save], and once it is over they hold exactly one, as the last
    of them.  An active save operation is over, with its [Buffer_save],
    after each of: the promise of the provider settling (the formatter
    succeeded or failed), the timer of [SAVE_TIMEOUT] = 2500 ms firing,
    the buffer being destroyed, the manager being disposed, and a newer
    format event.  The timer is started when the save is subscribed. *)
Theorem save_is_called_exactly_once (E : JsEngine) (H : AtomHost)
    (ed : TextEditor) (cfg : AtomConfig) (trace : list Event) :
  let g := fst (run E H (new_Group ed cfg) trace) in
  let log := snd (run E H (new_Group ed cfg) trace) in
  SAVE_TIMEOUT = 2500%Z
  /\ List.length (save_operations g) = delivered_saves trace
  /\ (forall o, In o (operations g) -> op_event o = type_save ->
                save_once (is_active o) (effects_of (op_id o) log))
  /\ (forall o, In o (operations g) -> op_event o = type_save ->
                is_active o = true ->
                let outcome e :=
                  ended (op_id o) (fst (step E H g e))
                  /\ save_once false
                       (effects_of (op_id o) (snd (step E H g e))) in
                (forall s, outcome (PromiseSettles (op_id o) s))
                /\ outcome (TimeoutFires (op_id o))
                /\ outcome BufferDestroyed
                /\ outcome ManagerDisposed
                /\ (forall event, disposed g = false ->
                                  outcome (FormatEventArrives event)))
  /\ (disposed g = false ->
      exists rest,
        effects_of (nextId g)
          (snd (step E H g (FormatEventArrives type_save)))
        = Timer_start 2500 :: rest).
Proof.
  cbv zeta.
  pose proof (reachable_invariant E H ed cfg trace) as Hinv.
  set (g := fst (run E H (new_Group ed cfg) trace)) in *.
  set (log := snd (run E H (new_Group ed cfg) trace)) in *.
  split; [reflexivity|]. split; [|split; [|split]].
  - unfold g. rewrite run_save_operations. reflexivity.
  - apply (inv_save_once g log Hinv).
  - intros o Hin Hsave Hact.
    apply (active_save_ends E H g log o Hinv Hin Hsave Hact).
  - intros Hlive. rewrite (step_FormatEventArrives E H g _ Hlive). cbn [snd].
    pose proof (unsubscribe_inner_invariant g log Hinv) as Hunsub.
    cbv zeta in Hunsub.
    destruct Hunsub as (Hinv1 & _ & _ & _ & _ & Hnext1 & _).
    rewrite effects_of_app. rewrite (effects_of_fresh (nextId g)).
    + rewrite <- Hnext1. unfold subscribe_handleEvent.
      destruct (formatCodeOnSaveInTextEditor E H _ _); cbn [snd];
        rewrite effects_of_tag_same; eexists; reflexivity.
    + intros id' e Hine.
      assert (Hlt : id' < nextId g).
      { rewrite <- Hnext1.
        apply (inv_log_fresh _ _ Hinv1 id' e). apply in_or_app. right.
        exact Hine. }
      lia.
Qed.

(** The five ways of a save, one [Buffer_save] each: the formatter
    succeeds, the formatter fails, the timer fires, the buffer is
    destroyed, a newer event takes over. *)
Lemma save_scenarios :
  let logged trace :=
    map snd (snd (run legacy_engine PlainHost.host Scenario.fresh
                    (Scenario.saving ++ trace))) in
  let called :=
    Provider_call
      (Call_formatEntireFile Sample.low
         {| start := Sample.at_ 0 0; end_ := Sample.at_ 0 3 |}) in
  logged [PromiseSettles 0 (Resolved (EntireFileValue None "a b c"))]
  = [Timer_start 2500; called; Buffer_save]
  /\ logged [PromiseSettles 0 (Rejected "crash")]
     = [Timer_start 2500; called;
        Logger_warn "Failed to format code on save:" "crash"; Buffer_save]
  /\ logged [TimeoutFires 0;
             PromiseSettles 0 (Resolved (EntireFileValue None "a b c"))]
     = [Timer_start 2500; called;
        Logger_warn "Failed to format code on save:" "Timeout has occurred";
        Buffer_save]
  /\ logged [BufferDestroyed;
             PromiseSettles 0 (Resolved (EntireFileValue None "a b c"))]
     = [Timer_start 2500; called; Buffer_save]
  /\ logged [FormatEventArrives (type_type Sample.paste_ab);
             PromiseSettles 0 (Resolved (EntireFileValue None "a b c"))]
     = [Timer_start 2500; called; Buffer_save]
  /\ text (editor (Scenario.after
                     (Scenario.saving
                      ++ [PromiseSettles 0
                            (Resolved (EntireFileValue None "a b c"))])))
     = "a b c"
  /\ text (editor (Scenario.after
                     (Scenario.saving
                      ++ [TimeoutFires 0;
                          PromiseSettles 0
                            (Resolved (EntireFileValue None "a b c"))])))
     = "abc".
Proof. cbv zeta. repeat split; reflexivity. Qed.

(** C3. In every run at most one operation of the buffer is active, and
    it is the operation of the latest format event.  A tick, a settled
    promise or a timer of any other operation changes nothing and has no
    effect, so only the result of the latest event can reach the buffer.
    After a new format event no earlier operation is active.  When the
    buffer is destroyed no operation stays active, the buffer is not
    touched and nothing is reported: the only effect there can be is the
    [Buffer_save] of an unfinished save. *)
Theorem at_most_one_active_operation (E : JsEngine) (H : AtomHost)
    (ed : TextEditor) (cfg : AtomConfig) (trace : list Event) :
  let g := fst (run E H (new_Group ed cfg) trace) in
  active_count g <= 1
  /\ (forall o, In o (operations g) -> is_active o = true ->
                nextId g = S (op_id o))
  /\ (forall id, nextId g <> S id ->
                 step E H g (NextTick id) = (g, [])
                 /\ (forall s, step E H g (PromiseSettles id s) = (g, []))
                 /\ step E H g (TimeoutFires id) = (g, []))
  /\ (forall event o,
         disposed g = false ->
         In o (operations (fst (step E H g (FormatEventArrives event)))) ->
         is_active o = true -> op_id o = nextId g)
  /\ active_count (fst (step E H g BufferDestroyed)) = 0
  /\ editor (fst (step E H g BufferDestroyed)) = editor g
  /\ (forall id e, In (id, e) (snd (step E H g BufferDestroyed)) ->
                   e = Buffer_save).
Proof.
  cbv zeta.
  pose proof (reachable_invariant E H ed cfg trace) as Hinv.
  set (g := fst (run E H (new_Group ed cfg) trace)) in *.
  set (log := snd (run E H (new_Group ed cfg) trace)) in *.
  pose proof (unsubscribe_inner_invariant g log Hinv) as Hunsub.
  cbv zeta in Hunsub.
  destruct Hunsub as (_ & _ & Hed1 & _ & _ & Hnext1 & _ & Hidle1 & Hlog1).
  split; [apply (invariant_active_count g log Hinv)|].
  split.
  { intros o Hin Hact. apply (inv_latest g log Hinv).
    apply (inv_inner g log Hinv o Hin Hact). }
  split; [intros id Hold; apply (step_stale_operation E H g log id Hinv Hold)|].
  split.
  { intros event o Hlive Hin Hact.
    pose proof (step_invariant E H g log (FormatEventArrives event) Hinv)
      as Hinv'.
    pose proof (inv_latest _ _ Hinv' _ (inv_inner _ _ Hinv' o Hin Hact))
      as Hlatest.
    rewrite (step_FormatEventArrives E H g event Hlive) in Hlatest.
    cbn [fst] in Hlatest.
    pose proof (subscribe_handleEvent_frame E H (fst (unsubscribe_inner g))
                  event) as (_ & _ & Hnext2 & _).
    rewrite Hnext2, Hnext1 in Hlatest. lia. }
  cbn [step]. split; [|split; [exact Hed1|exact Hlog1]].
  unfold active_count. rewrite filter_none; [reflexivity|exact Hidle1].
Qed.

(* ================================================================== *)
(** ** The trigger character and stale results in a run *)
(* ================================================================== *)

Lemma shouldFormatOnType_inserts (cfg : AtomConfig) (event : TextEditEvent) :
  shouldFormatOnType cfg event = true -> newText event <> "".
Proof.
  intros Hshould Hempty. unfold shouldFormatOnType in Hshould.
  rewrite Hempty in Hshould.
  destruct (String.eqb (oldText event) ""); discriminate.
Qed.

(** The head of the list of operations after a format event. *)
Lemma step_FormatEventArrives_operations (E : JsEngine) (H : AtomHost)
    (g : Group) (edit : TextEditEvent) :
  disposed g = false ->
  let sub := formatCodeOnTypeInTextEditor E (config g)
               (codeFormatProviders g) (editor g) edit in
  let g' := fst (step E H g (FormatEventArrives (type_type edit))) in
  editor g' = editor g
  /\ innerSubscription g'
     = match sub with Sub_wait _ _ => Some (nextId g) | _ => None end
  /\ operations g'
     = {| op_id := nextId g; op_event := type_type edit;
          op_phase := match sub with
                      | Sub_wait ph _ => Some ph
                      | _ => None
                      end;
          op_status := match sub with
                       | Sub_wait _ _ => Active
                       | _ => Completed
                       end |}
       :: operations (fst (unsubscribe_inner g))
  /\ snd (step E H g (FormatEventArrives (type_type edit)))
     = snd (unsubscribe_inner g)
       ++ tag (nextId g)
            match sub with
            | Sub_error message =>
                terminate_effects (type_type edit) (Some message)
            | Sub_complete => []
            | Sub_wait _ calls => map Provider_call calls
            end.
Proof.
  intros Hlive. cbv zeta.
  pose proof (unsubscribe_inner_frame g) as (Hed & Hreg & Hcfg & Hnext & _).
  rewrite (step_FormatEventArrives E H g _ Hlive). cbn [fst snd].
  unfold subscribe_handleEvent. rewrite Hed, Hreg, Hcfg, Hnext.
  destruct (formatCodeOnTypeInTextEditor E (config g) (codeFormatProviders g)
              (editor g) edit) as [message| |ph calls];
    cbn [fst snd editor innerSubscription operations app];
    repeat split; reflexivity.
Qed.

(** C6. [shouldFormatOnType] rejects an edit that removed text, an edit
    that neither removed nor inserted text, and an insertion of more than
    one character that is not a bracket pair known to the bracket matcher;
    it accepts every other edit.  An accepted edit is formatted with the
    last character of the inserted text: when format-on-type is on and a
    resolved provider has [formatAtPosition], the on-type path goes on
    with that character, and at the next tick the provider is called with
    it, at the cursor of that tick moved one column back.  A rejected edit
    ends the on-type path at once, and no provider is called for it; only
    an accepted edit goes on.  [x] is accepted and formatted with [x], the
    removal of [a], the empty edit and [ab] are rejected and call no
    provider, and the bracket pair is accepted and formatted with the
    closing brace. *)
Theorem shouldFormatOnType_heuristic :
  (forall cfg event,
      (oldText event <> "" -> shouldFormatOnType cfg event = false)
      /\ (oldText event = "" -> newText event = "" ->
          shouldFormatOnType cfg event = false)
      /\ ((1 < String.length (newText event))%nat ->
          isBracketPair cfg (newText event) = false ->
          shouldFormatOnType cfg event = false)
      /\ (oldText event = "" -> newText event <> "" ->
          (String.length (newText event) <= 1)%nat
          \/ isBracketPair cfg (newText event) = true ->
          shouldFormatOnType cfg event = true))
  /\ (forall E H g event provider rest,
         disposed g = false ->
         shouldFormatOnType (config g) event = true ->
         getFormatOnType (config g) = true ->
         filter has_formatAtPosition
           (getMatchingProvidersForScopeName E (codeFormatProviders g)
              (scopeName (editor g)))
         = provider :: rest ->
         exists prefix c,
           newText event = (prefix ++ String c "")%string
           /\ formatCodeOnTypeInTextEditor E (config g)
                (codeFormatProviders g) (editor g) event
              = Sub_wait (AwaitNextTick provider (Some c) (text (editor g)))
                  []
           /\ forall ed',
               snd (run E H g [FormatEventArrives (type_type event);
                               HostChanges ed'; NextTick (nextId g)])
               = snd (unsubscribe_inner g)
                 ++ [(nextId g,
                      Provider_call
                        (Call_formatAtPosition provider
                           (Point_translate (cursorBufferPosition ed') 0 (-1))
                           (Some c)))])
  /\ (forall E H g event,
         disposed g = false ->
         shouldFormatOnType (config g) event = false ->
         formatCodeOnTypeInTextEditor E (config g) (codeFormatProviders g)
           (editor g) event
         = Sub_complete
         /\ forall ed',
             snd (run E H g [FormatEventArrives (type_type event);
                             HostChanges ed'; NextTick (nextId g)])
             = snd (unsubscribe_inner g))
  /\ (forall E cfg registry ed event ph calls,
         formatCodeOnTypeInTextEditor E cfg registry ed event
         = Sub_wait ph calls ->
         shouldFormatOnType cfg event = true
         /\ calls = []
         /\ exists provider c prefix,
             newText event = (prefix ++ String c "")%string
             /\ ph = AwaitNextTick provider (Some c) (text ed))
  /\ shouldFormatOnType Sample.cfg Sample.insert_x = true
  /\ shouldFormatOnType Sample.cfg Sample.delete_a = false
  /\ shouldFormatOnType Sample.cfg Sample.nothing = false
  /\ shouldFormatOnType Sample.cfg Sample.paste_ab = false
  /\ shouldFormatOnType Sample.cfg Sample.braces = true
  /\ last_character (newText Sample.braces) = Some "}"%char
  /\ (let g := Scenario.after [ProviderAdded Sample.position_only] in
      let keystroke edit :=
        snd (run modern_engine PlainHost.host g
               [FormatEventArrives (type_type edit); NextTick 0]) in
      keystroke Sample.braces
      = [(0, Provider_call
               (Call_formatAtPosition Sample.position_only (Sample.at_ 0 2)
                  (Some "}"%char)))]
      /\ keystroke Sample.insert_x
         = [(0, Provider_call
                  (Call_formatAtPosition Sample.position_only
                     (Sample.at_ 0 2) (Some "x"%char)))]
      /\ keystroke Sample.delete_a = []
      /\ keystroke Sample.nothing = []
      /\ keystroke Sample.paste_ab = []).
Proof.
  split; [|split; [|split; [|split; [|repeat split; reflexivity]]]].
  - intros cfg event. unfold shouldFormatOnType.
    destruct (String.eqb_spec (oldText event) "") as [Eold|Eold];
      destruct (String.eqb_spec (newText event) "") as [Enew|Enew];
      destruct (Nat.ltb_spec 1 (String.length (newText event)))
        as [Elen|Elen];
      destruct (isBracketPair cfg (newText event)) eqn:Ebr;
      cbn [negb andb];
      try (rewrite Enew in Elen; simpl in Elen);
      repeat split; intros; try reflexivity; try congruence; try lia;
      intuition (try congruence; try lia).
  - intros E H g event provider rest Hlive Hshould Hon Hresolved.
    destruct (last_character_spec _ (shouldFormatOnType_inserts _ _ Hshould))
      as (prefix & c & Heq & Hlast).
    exists prefix, c. split; [exact Heq|].
    assert (Hsub : formatCodeOnTypeInTextEditor E (config g)
                     (codeFormatProviders g) (editor g) event
                   = Sub_wait
                       (AwaitNextTick provider (Some c) (text (editor g)))
                       []).
    { unfold formatCodeOnTypeInTextEditor.
      rewrite Hshould, Hon, Hresolved, Hlast. reflexivity. }
    split; [exact Hsub|]. intros ed'.
    pose proof (step_FormatEventArrives_operations E H g event Hlive)
      as Hstep.
    cbv zeta in Hstep. rewrite Hsub in Hstep.
    destruct Hstep as (Hed & Hinner & Hops & Hlog).
    cbn [run].
    destruct (step E H g (FormatEventArrives (type_type event)))
      as [g1 log1] eqn:Estep1.
    cbn [fst snd] in Hed, Hinner, Hops, Hlog.
    assert (Hstep2 : step E H g1 (HostChanges ed') = (set_editor g1 ed', []))
      by reflexivity.
    pose proof (step_NextTick_new_operation E H (set_editor g1 ed')
                  {| op_id := nextId g; op_event := type_type event;
                     op_phase :=
                       Some (AwaitNextTick provider (Some c)
                               (text (editor g)));
                     op_status := Active |}
                  provider (Some c) (text (editor g))) as Hstep3.
    cbn [op_id] in Hstep3. rewrite Hstep2, Hstep3.
    + cbn [fst snd tag map app editor set_editor]. rewrite Hlog.
      cbn [map tag]. rewrite !app_nil_r. reflexivity.
    + cbn [set_editor operations]. rewrite Hops. reflexivity.
    + reflexivity.
    + reflexivity.
  - intros E H g event Hlive Hshould.
    assert (Hsub : formatCodeOnTypeInTextEditor E (config g)
                     (codeFormatProviders g) (editor g) event
                   = Sub_complete).
    { unfold formatCodeOnTypeInTextEditor. rewrite Hshould. reflexivity. }
    split; [exact Hsub|]. intros ed'.
    pose proof (step_FormatEventArrives_operations E H g event Hlive)
      as Hstep.
    cbv zeta in Hstep. rewrite Hsub in Hstep.
    destruct Hstep as (Hed & Hinner & Hops & Hlog).
    cbn [run].
    destruct (step E H g (FormatEventArrives (type_type event)))
      as [g1 log1] eqn:Estep1.
    cbn [fst snd] in Hed, Hinner, Hops, Hlog.
    assert (Hstep2 : step E H g1 (HostChanges ed') = (set_editor g1 ed', []))
      by reflexivity.
    assert (Hstep3 : step E H (set_editor g1 ed') (NextTick (nextId g))
                     = (set_editor g1 ed', [])).
    { cbn [step set_editor operations]. rewrite Hops.
      unfold find_op. cbn [find op_id]. rewrite Nat.eqb_refl.
      reflexivity. }
    rewrite Hstep2, Hstep3. cbn [fst snd app]. rewrite Hlog.
    cbn [tag map]. rewrite !app_nil_r. reflexivity.
  - intros E cfg registry ed event ph calls Hsub.
    unfold formatCodeOnTypeInTextEditor in Hsub.
    destruct (shouldFormatOnType cfg event) eqn:Eshould;
      [|discriminate].
    destruct (getFormatOnType cfg); [|discriminate].
    cbn [negb orb] in Hsub.
    destruct (filter has_formatAtPosition _) as [|provider rest];
      [discriminate|].
    inversion Hsub; subst ph calls; clear Hsub.
    destruct (last_character_spec _ (shouldFormatOnType_inserts _ _ Eshould))
      as (prefix & c & Heq & Hlast).
    split; [reflexivity|]. split; [reflexivity|].
    exists provider, c, prefix. rewrite Hlast. split; [exact Heq|reflexivity].
Qed.

Lemma shouldFormatOnType_heuristic_witness :
  let g := Scenario.after [ProviderAdded Sample.position_only] in
  shouldFormatOnType (config g) Sample.braces = true
  /\ formatCodeOnTypeInTextEditor modern_engine (config g)
       (codeFormatProviders g) (editor g) Sample.braces
     = Sub_wait (AwaitNextTick Sample.position_only (Some "}"%char) "abc") []
  /\ snd (run modern_engine PlainHost.host g
            [FormatEventArrives (type_type Sample.braces);
             HostChanges (Sample.editor_with "abc{}"
                            {| start := Sample.at_ 0 4;
                               end_ := Sample.at_ 0 4 |});
             NextTick 0])
     = [(0, Provider_call
              (Call_formatAtPosition Sample.position_only (Sample.at_ 0 3)
                 (Some "}"%char)))].
Proof.
  cbv zeta.
  pose proof shouldFormatOnType_heuristic as (_ & Haccepted & _).
  destruct (Haccepted modern_engine PlainHost.host
              (Scenario.after [ProviderAdded Sample.position_only])
              Sample.braces Sample.position_only []
              eq_refl eq_refl eq_refl eq_refl)
    as (prefix & c & Heq & Hsub & Hrun).
  assert (Hc : c = "}"%char).
  { assert (Hlast : last_character (newText Sample.braces) = Some c).
    { rewrite Heq. clear. induction prefix as [|a prefix IH];
        [reflexivity|].
      destruct prefix; exact IH. }
    cbn in Hlast. congruence. }
  subst c.
  split; [reflexivity|]. split; [exact Hsub|]. apply Hrun.
Defined.

(** C1, as the code has it.  The promise of the provider resolves and the
    text of the buffer is no longer the snapshot taken at the start.  When
    the operation still is the inner observable of the buffer, the command
    path and the save path (both the [formatCode] and the
    [formatEntireFile] branch) and the type path with a non-empty edit
    list end with the stale-contents error and leave the buffer as it is:
    the error goes to [catch] (a notification on the command path, a
    logged warning on the type and save paths) and then to [finally] (the
    save).  When the operation has been unsubscribed, the result is
    dropped: nothing is applied and nothing is reported.  That is the case
    in every run once a newer format event of the buffer has arrived (the
    type event that follows a change of the buffer is one), or the buffer
    has been destroyed, or the manager disposed.  In every case no edit is
    applied to a buffer whose text differs from the snapshot. *)
Theorem stale_result_is_rejected (E : JsEngine) (H : AtomHost) (g : Group)
    (id : nat) (o : Operation) (k : Continuation) :
  find_op id (operations g) = Some o ->
  op_phase o = Some (AwaitProvider k) ->
  snapshot_of k <> text (editor g) ->
  let rejected := complete_op g o (editor g) (Some stale_message) in
  (is_active o = true ->
   match k with
   | Then_formatCode _ =>
       forall edits,
         step E H g (PromiseSettles id (Resolved (EditsValue edits)))
         = rejected
   | Then_formatEntireFile _ =>
       forall newCursor formatted,
         step E H g
           (PromiseSettles id (Resolved (EntireFileValue newCursor formatted)))
         = rejected
   | Then_formatAtPosition _ =>
       forall edit edits,
         step E H g (PromiseSettles id (Resolved (EditsValue (edit :: edits))))
         = rejected
   end
   /\ editor (fst rejected) = editor g
   /\ snd rejected
      = tag (op_id o)
          (catch_effects (op_event o) stale_message
           ++ finally_effects (op_event o)))
  /\ (is_active o = false ->
      forall s, step E H g (PromiseSettles id s) = (g, []))
  /\ (forall ed0 cfg0 trace e,
         g = fst (run E H (new_Group ed0 cfg0) trace) ->
         disposed g = false ->
         unsubscribes e = true ->
         let g' := fst (step E H g e) in
         forall s, step E H g' (PromiseSettles id s) = (g', []))
  /\ catch_effects type_command stale_message
     = [Notifications_addError "Failed to format code" stale_message]
  /\ catch_effects type_save stale_message ++ finally_effects type_save
     = [Logger_warn "Failed to format code on save:" stale_message;
        Buffer_save]
  /\ forall s, editor (fst (step E H g (PromiseSettles id s))) = editor g.
Proof.
  intros Hfind Hph Hne. cbv zeta.
  assert (Hdropped : is_active o = false ->
                     forall s, step E H g (PromiseSettles id s) = (g, [])).
  { intros Hidle s. cbn [step]. rewrite Hfind, Hidle. reflexivity. }
  split; [|split; [exact Hdropped|split; [|split; [reflexivity|split;
                                                   [reflexivity|]]]]].
  - intros Hact. split; [|split; reflexivity].
    destruct k as [c|c|c]; cbn [snapshot_of] in Hne; intros;
      rewrite (step_PromiseSettles_active E H g id o _ _ Hfind Hact Hph);
      cbn [run_continuation];
      unfold then_formatCode, then_formatEntireFile, then_formatAtPosition,
        then_apply_edits;
      rewrite (checkContentsAreSame_changed _ _ Hne); reflexivity.
  - intros ed0 cfg0 trace e Hreach Hlive He s.
    pose proof (reachable_invariant E H ed0 cfg0 trace) as Hinv.
    rewrite <- Hreach in Hinv.
    set (log := snd (run E H (new_Group ed0 cfg0) trace)) in Hinv.
    pose proof (unsubscribe_inner_invariant g log Hinv) as Hunsub.
    cbv zeta in Hunsub.
    destruct Hunsub as (_ & _ & _ & _ & _ & Hnext1 & _ & Hidle1 & _).
    assert (Hquiet : forall g',
               operations g' = operations (fst (unsubscribe_inner g)) ->
               step E H g' (PromiseSettles id s) = (g', [])).
    { intros g' Hops. cbn [step]. rewrite Hops.
      destruct (find_op id (operations (fst (unsubscribe_inner g))))
        as [o'|] eqn:Efind'; [|reflexivity].
      apply find_op_some in Efind'. destruct Efind' as [Hin' _].
      rewrite (Hidle1 o' Hin'). reflexivity. }
    destruct e as [event| | | | | | | | |]; try discriminate.
    + pose proof (step_invariant E H g log (FormatEventArrives event) Hinv)
        as Hinv'.
      apply (step_stale_operation E H _ _ id Hinv').
      rewrite (step_FormatEventArrives E H g event Hlive). cbn [fst].
      pose proof (subscribe_handleEvent_frame E H (fst (unsubscribe_inner g))
                    event) as (_ & _ & Hnext2 & _).
      rewrite Hnext2, Hnext1.
      apply find_op_some in Hfind. destruct Hfind as [Hin Hid].
      pose proof (inv_fresh g log Hinv o Hin). lia.
    + apply Hquiet. reflexivity.
    + apply Hquiet. cbn [step].
      destruct (unsubscribe_inner g) as [g1 log1]. reflexivity.
  - intros s. destruct (is_active o) eqn:Eact.
    + rewrite (step_PromiseSettles_active E H g id o k s Hfind Eact Hph).
      cbn [complete_op fst set_operations editor set_editor].
      apply run_continuation_stale, Hne.
    + rewrite (Hdropped eq_refl s). reflexivity.
Qed.

Lemma stale_result_is_rejected_witness :
  let g := Scenario.after Scenario.commanding in
  let late := fst (step legacy_engine PlainHost.host g
                     (FormatEventArrives (type_type Sample.insert_x))) in
  snapshot_of (Then_formatEntireFile "abc") <> text (editor g)
  /\ step legacy_engine PlainHost.host g
       (PromiseSettles 0 (Resolved (EntireFileValue None "a b c")))
     = complete_op g Scenario.command_operation (editor g)
         (Some stale_message)
  /\ step legacy_engine PlainHost.host late
       (PromiseSettles 0 (Resolved (EntireFileValue None "a b c")))
     = (late, []).
Proof.
  cbv zeta.
  assert (Hne : snapshot_of (Then_formatEntireFile "abc")
                <> text (editor (Scenario.after Scenario.commanding)))
    by (vm_compute; discriminate).
  split; [exact Hne|].
  pose proof (stale_result_is_rejected legacy_engine PlainHost.host
                (Scenario.after Scenario.commanding) 0
                Scenario.command_operation (Then_formatEntireFile "abc")
                eq_refl eq_refl Hne) as (Hactive & _ & Hlate & _).
  split.
  - destruct (Hactive eq_refl) as (Hrejected & _). apply Hrejected.
  - apply (Hlate Scenario.opened Sample.cfg Scenario.commanding
             (FormatEventArrives (type_type Sample.insert_x))
             eq_refl eq_refl eq_refl).
Defined.

(** The type path with an empty edit list and a buffer that changed while
    the provider was at work: the operation completes and reports no
    error. *)
Lemma stale_empty_result_reports_no_error :
  let g := Scenario.after Scenario.typing in
  find_op 0 (operations g) = Some Scenario.type_operation
  /\ text (editor g) = "abcd"
  /\ snapshot_of (Then_formatAtPosition "abc") <> text (editor g)
  /\ snd (step legacy_engine PlainHost.host g
            (PromiseSettles 0 (Resolved (EditsValue [])))) = []
  /\ map op_status
       (operations
          (fst (step legacy_engine PlainHost.host g
                  (PromiseSettles 0 (Resolved (EditsValue []))))))
     = [Completed].
Proof.
  cbv zeta. repeat split; try reflexivity.
  vm_compute. discriminate.
Qed.

(** A command is being formatted, the user types on, the type event of
    that change reaches the manager, and then the result of the command
    arrives: the command has been unsubscribed, and its result, stale as
    it is, brings no error and no edit.  The only effect of the run is the
    call of the provider. *)
Lemma superseded_result_is_dropped :
  let trace :=
    Scenario.commanding
    ++ [FormatEventArrives (type_type Sample.insert_x);
        PromiseSettles 0 (Resolved (EntireFileValue None "a b c"))] in
  map (fun e => fst e) (snd (run legacy_engine PlainHost.host Scenario.fresh
                               trace)) = [0]
  /\ map is_provider_call
       (effects_of 0 (snd (run legacy_engine PlainHost.host Scenario.fresh
                             trace))) = [true]
  /\ map op_status (operations (Scenario.after trace)) = [Active; Abandoned]
  /\ text (editor (Scenario.after trace)) = "abcd".
Proof. cbv zeta. repeat split; reflexivity. Qed.

(* ================================================================== *)
(** ** Further properties of the registry *)
(* ================================================================== *)

(** X1. Whatever the engine does with the callback, resolution only
    rearranges the registered providers that match: the resolved list is a
    permutation of the providers of positive priority whose selector names
    the scope, in particular it has as many entries, and it is empty
    exactly when no registered provider matches. *)
Theorem getMatchingProviders_rearranges (E : JsEngine)
    (registry : list CodeFormatProvider) (scope : string) :
  let matching := filter (provider_matches scope) registry in
  let resolved := getMatchingProvidersForScopeName E registry scope in
  Permutation matching resolved
  /\ List.length resolved = List.length matching
  /\ (resolved = [] <->
      forall p, In p registry -> provider_matches scope p = false)
  /\ (forall p, In p resolved -> (0 < inclusionPriority p)%Z).
Proof.
  cbv zeta. unfold getMatchingProvidersForScopeName.
  pose proof (sort_permutation E _ priority_comparefn
                (filter (provider_matches scope) registry)) as Hperm.
  split; [exact Hperm|]. split; [|split].
  - symmetry. apply Permutation_length, Hperm.
  - split.
    + intros Hnil p Hin.
      destruct (provider_matches scope p) eqn:Em; [|reflexivity].
      exfalso. rewrite Hnil in Hperm.
      apply Permutation_sym, Permutation_nil in Hperm.
      assert (Hp : In p (filter (provider_matches scope) registry))
        by (apply filter_In; auto).
      rewrite Hperm in Hp. destruct Hp.
    + intros Hnone.
      rewrite (filter_none _ _ Hnone) in Hperm |- *.
      apply Permutation_nil in Hperm. exact Hperm.
  - intros p Hin.
    eapply Permutation_in in Hin; [|apply Permutation_sym, Hperm].
    apply filter_In in Hin. destruct Hin as [_ Hm].
    unfold provider_matches in Hm. apply andb_true_iff in Hm.
    apply Z.ltb_lt, Hm.
Qed.

(** X2. The callback given to [sort] answers 1 when the first provider
    has the lower priority and 0 in every other case, also when the
    first provider has the higher priority: it never answers with a
    negative number, and it is not a consistent comparison function. *)
Theorem priority_comparefn_answers :
  (forall a b,
      (inclusionPriority a < inclusionPriority b)%Z ->
      priority_comparefn a b = 1%Z)
  /\ (forall a b,
         (inclusionPriority b <= inclusionPriority a)%Z ->
         priority_comparefn a b = 0%Z)
  /\ (forall a b, (0 <= priority_comparefn a b)%Z)
  /\ ~ consistent priority_comparefn.
Proof.
  unfold priority_comparefn, ToNumber_bool.
  split; [|split; [|split]].
  - intros a b Hlt. apply Z.ltb_lt in Hlt. rewrite Hlt. reflexivity.
  - intros a b Hle. apply Z.ltb_ge in Hle. rewrite Hle. reflexivity.
  - intros a b. destruct (inclusionPriority a <? inclusionPriority b)%Z; lia.
  - intros Hc.
    pose proof (cmp_antisym _ Hc Sample.low Sample.high) as Hs.
    vm_compute in Hs. discriminate.
Qed.

Lemma split_comma_field (field rest cur : string) :
  has_no_comma field = true ->
  split_comma (field ++ rest) cur = split_comma rest (cur ++ field).
Proof.
  revert cur. induction field as [|c field IH]; intros cur Hno.
  - cbn. f_equal. clear. induction cur as [|a cur IH]; [reflexivity|].
    cbn. rewrite <- IH. reflexivity.
  - cbn in Hno. apply andb_true_iff in Hno. destruct Hno as [Hc Hno].
    apply negb_true_iff in Hc.
    cbn [append split_comma]. rewrite Hc. rewrite IH by exact Hno.
    f_equal. clear. induction cur as [|a cur IH]; [reflexivity|].
    cbn. rewrite IH. reflexivity.
Qed.

Lemma split_comma_last (field cur : string) :
  has_no_comma field = true ->
  split_comma field cur = [(cur ++ field)%string].
Proof.
  intros Hno.
  assert (Hnil : forall s : string, (s ++ "")%string = s).
  { induction s as [|a s IH]; [reflexivity|]. cbn. rewrite IH. reflexivity. }
  rewrite <- (Hnil field) at 1.
  rewrite (split_comma_field field "" cur Hno). reflexivity.
Qed.

Lemma split_comma_comma_space (rest cur : string) :
  split_comma (String "," (String " " rest)) cur = cur :: split_comma rest "".
Proof. reflexivity. Qed.

Lemma split_comma_comma (rest cur : string) :
  starts_with_space rest = false ->
  split_comma (String "," rest) cur = cur :: split_comma rest "".
Proof.
  intros Hstart. destruct rest as [|c tail]; [reflexivity|].
  cbn [starts_with_space] in Hstart.
  change (split_comma (String "," (String c tail)) cur)
    with (if Ascii.eqb c " " then cur :: split_comma tail ""
          else cur :: split_comma (String c tail) "").
  rewrite Hstart. reflexivity.
Qed.

Lemma join_fields_start (fields : list string) :
  forallb (fun f => negb (starts_with_space f)) fields = true ->
  starts_with_space (join_fields "," fields) = false.
Proof.
  destruct fields as [|f rest]; [reflexivity|].
  cbn [forallb]. intros Hall. apply andb_true_iff in Hall.
  destruct Hall as [Hf _]. apply negb_true_iff in Hf.
  destruct rest as [|g rest]; [exact Hf|].
  cbn [join_fields]. destruct f as [|c f]; [reflexivity|exact Hf].
Qed.

(** X3. Splitting is the inverse of writing a selector: for fields
    without a comma, a selector written with [", "] between the fields
    splits into exactly these fields, and so does a selector written with
    [","] when no field starts with a space. *)
Theorem split_comma_join (fields : list string) :
  fields <> [] ->
  forallb has_no_comma fields = true ->
  split_comma (join_fields ", " fields) "" = fields
  /\ (forallb (fun f => negb (starts_with_space f)) fields = true ->
      split_comma (join_fields "," fields) "" = fields).
Proof.
  intros Hne Hno.
  destruct fields as [|f rest]; [congruence|]. clear Hne. split.
  - revert f Hno. induction rest as [|g rest IH]; intros f Hno;
      cbn [forallb] in Hno; apply andb_true_iff in Hno;
      destruct Hno as [Hf Hrest].
    + cbn [join_fields]. apply (split_comma_last f "" Hf).
    + pose proof (IH g Hrest) as Hrec.
      change (join_fields ", " (f :: g :: rest))
        with (f ++ String "," (String " " (join_fields ", " (g :: rest))))%string.
      rewrite (split_comma_field f _ "" Hf), split_comma_comma_space, Hrec.
      reflexivity.
  - revert f Hno. induction rest as [|g rest IH]; intros f Hno Hsp;
      cbn [forallb] in Hno, Hsp; apply andb_true_iff in Hno, Hsp;
      destruct Hno as [Hf Hrest]; destruct Hsp as [_ Hsprest].
    + cbn [join_fields]. apply (split_comma_last f "" Hf).
    + pose proof (join_fields_start (g :: rest) Hsprest) as Hstart.
      pose proof (IH g Hrest Hsprest) as Hrec.
      change (join_fields "," (f :: g :: rest))
        with (f ++ String "," (join_fields "," (g :: rest)))%string.
      rewrite (split_comma_field f _ "" Hf).
      rewrite (split_comma_comma _ _ Hstart), Hrec. reflexivity.
Qed.

Lemma split_comma_join_witness :
  split_comma (join_fields ", " ["source.ts"; "source.js"]) ""
  = ["source.ts"; "source.js"]
  /\ split_comma (join_fields "," ["source.ts"; "source.js"]) ""
     = ["source.ts"; "source.js"].
Proof.
  destruct (split_comma_join ["source.ts"; "source.js"]
              ltac:(discriminate) eq_refl) as [Hspace Hcomma].
  split; [exact Hspace|exact (Hcomma eq_refl)].
Defined.

Lemma registry_first_occurrence (registry : list CodeFormatProvider)
    (p : CodeFormatProvider) :
  (forall q, In q registry -> ref q <> ref p)
  \/ exists before q after,
      registry = before ++ q :: after /\ ref q = ref p
      /\ forall r, In r before -> ref r <> ref p.
Proof.
  induction registry as [|a registry IH].
  - left. intros q [].
  - destruct (Nat.eq_dec (ref a) (ref p)) as [Heq|Hne].
    + right. exists [], a, registry.
      split; [reflexivity|]. split; [exact Heq|]. intros r [].
    + destruct IH as [Habs|(before & q & after & -> & Hq & Hbefore)].
      * left. intros q [<-|Hin]; auto.
      * right. exists (a :: before), q, after.
        split; [reflexivity|]. split; [exact Hq|].
        intros r [<-|Hin]; auto.
Qed.

Lemma addProvider_dispose_first (before after : list CodeFormatProvider)
    (p q : CodeFormatProvider) :
  ref q = ref p -> (forall r, In r before -> ref r <> ref p) ->
  addProvider_dispose (before ++ q :: after) p = before.
Proof.
  intros Hq Habs. unfold addProvider_dispose.
  rewrite (indexOf_first before after p q Hq Habs).
  assert (Hne : (Z.of_nat (List.length before) =? -1)%Z = false)
    by (apply Z.eqb_neq; lia).
  rewrite Hne. cbn [negb]. unfold Array_splice_from.
  assert (Hlt : (Z.of_nat (List.length before) <? 0)%Z = false)
    by (apply Z.ltb_ge; lia).
  rewrite Hlt, length_app. cbn [List.length].
  rewrite Z.min_l by lia. rewrite Nat2Z.id.
  rewrite firstn_app, Nat.sub_diag, firstn_all. cbn [firstn].
  apply app_nil_r.
Qed.

(** X4. The disposer of a provider never adds to the registry and never
    reorders it: what is left is a prefix of the registry, the provider
    is not in it, and nothing is cut off exactly when the provider was
    not registered. *)
Theorem addProvider_dispose_keeps_prefix
    (registry : list CodeFormatProvider) (p : CodeFormatProvider) :
  exists removed,
    registry = addProvider_dispose registry p ++ removed
    /\ (forall q, In q (addProvider_dispose registry p) -> ref q <> ref p)
    /\ (removed = [] <-> forall q, In q registry -> ref q <> ref p).
Proof.
  destruct (registry_first_occurrence registry p)
    as [Habs|(before & q & after & -> & Hq & Hbefore)].
  - exists []. rewrite (addProvider_dispose_absent registry p Habs).
    rewrite app_nil_r.
    split; [reflexivity|]. split; [exact Habs|]. split; auto.
  - exists (q :: after).
    rewrite (addProvider_dispose_first before after p q Hq Hbefore).
    split; [reflexivity|]. split; [exact Hbefore|]. split.
    + discriminate.
    + intros Habs. exfalso. apply (Habs q); [|exact Hq].
      apply in_or_app. right. left. reflexivity.
Qed.

(** X5. Running a disposer a second time changes nothing. *)
Theorem addProvider_dispose_idempotent
    (registry : list CodeFormatProvider) (p : CodeFormatProvider) :
  addProvider_dispose (addProvider_dispose registry p) p
  = addProvider_dispose registry p.
Proof.
  apply addProvider_dispose_absent.
  destruct (registry_first_occurrence registry p)
    as [Habs|(before & q & after & -> & Hq & Hbefore)].
  - rewrite (addProvider_dispose_absent registry p Habs). exact Habs.
  - rewrite (addProvider_dispose_first before after p q Hq Hbefore).
    exact Hbefore.
Qed.

(** X6. Registering a provider that is not yet registered and disposing
    of it right away gives the registry back, and so does disposing of
    two such registrations in the reverse order of their registration. *)
Theorem addProvider_then_dispose (registry : list CodeFormatProvider)
    (p q : CodeFormatProvider) :
  (forall r, In r registry -> ref r <> ref p) ->
  (forall r, In r registry -> ref r <> ref q) ->
  ref p <> ref q ->
  addProvider_dispose (addProvider registry p) p = registry
  /\ addProvider_dispose
       (addProvider_dispose (addProvider (addProvider registry p) q) q) p
     = registry.
Proof.
  intros Hp Hq Hpq. unfold addProvider.
  assert (Hfirst : addProvider_dispose (registry ++ [p]) p = registry)
    by (apply (addProvider_dispose_first registry [] p p eq_refl Hp)).
  split; [exact Hfirst|].
  rewrite (addProvider_dispose_first (registry ++ [p]) [] q q eq_refl).
  - exact Hfirst.
  - intros r Hin. apply in_app_or in Hin.
    destruct Hin as [Hin|[<-|[]]]; auto.
Qed.

Lemma addProvider_then_dispose_witness :
  addProvider_dispose (addProvider [Sample.neither] Sample.low) Sample.low
  = [Sample.neither]
  /\ addProvider_dispose
       (addProvider_dispose
          (addProvider (addProvider [Sample.neither] Sample.low) Sample.high)
          Sample.high) Sample.low
     = [Sample.neither].
Proof.
  apply (addProvider_then_dispose [Sample.neither] Sample.low Sample.high).
  - intros r [<-|[]]. cbn. lia.
  - intros r [<-|[]]. cbn. lia.
  - cbn. lia.
Defined.

(* ================================================================== *)
(** ** Further properties of the heuristic and of the format range *)
(* ================================================================== *)

(** X7. An edit triggers on-type formatting exactly when it removed
    nothing and either inserted one character, or inserted more than one
    character that the active bracket matcher lists among its
    [autocompleteCharacters]; with the bracket matcher inactive only
    insertions of one character trigger it. *)
Theorem shouldFormatOnType_accepts (cfg : AtomConfig)
    (event : TextEditEvent) :
  (shouldFormatOnType cfg event = true <->
   oldText event = ""
   /\ (String.length (newText event) = 1
       \/ ((1 < String.length (newText event))%nat
           /\ bracketMatcherActive cfg = true
           /\ In (newText event) (autocompleteCharacters cfg))))
  /\ (bracketMatcherActive cfg = false ->
      (shouldFormatOnType cfg event = true <->
       oldText event = "" /\ String.length (newText event) = 1)).
Proof.
  assert (Hbr : isBracketPair cfg (newText event) = true <->
                bracketMatcherActive cfg = true
                /\ In (newText event) (autocompleteCharacters cfg)).
  { unfold isBracketPair. destruct (bracketMatcherActive cfg); cbn [negb].
    - rewrite existsb_exists. split.
      + intros (x & Hin & Heq). apply String.eqb_eq in Heq. subst x. auto.
      + intros [_ Hin]. exists (newText event).
        split; [exact Hin|apply String.eqb_refl].
    - split; [discriminate|intros [Hc _]; discriminate]. }
  assert (Hmain : shouldFormatOnType cfg event = true <->
            oldText event = ""
            /\ (String.length (newText event) = 1
                \/ ((1 < String.length (newText event))%nat
                    /\ isBracketPair cfg (newText event) = true))).
  { unfold shouldFormatOnType.
    destruct (String.eqb_spec (oldText event) "") as [Eold|Eold];
      destruct (String.eqb_spec (newText event) "") as [Enew|Enew];
      destruct (Nat.ltb_spec 1 (String.length (newText event)))
        as [Elen|Elen];
      destruct (isBracketPair cfg (newText event)) eqn:Ebr;
      cbn [negb andb];
      try (rewrite Enew in *; cbn in *);
      (split; [try discriminate; intros _|intros [? [?|[? ?]]]]);
      try reflexivity; try congruence; try lia;
      try (split; [assumption|]).
    all: try (right; split; [assumption|reflexivity]).
    all: left; destruct (newText event) as [|c [|c' rest]];
      cbn in *; try congruence; try lia. }
  split.
  - rewrite Hmain. rewrite Hbr. reflexivity.
  - intros Hoff. rewrite Hmain. split.
    + intros [Hold [Hone|[_ Hpair]]]; [auto|].
      apply Hbr in Hpair. destruct Hpair as [Hc _]. congruence.
    + intros [Hold Hone]. auto.
Qed.

(** X8. The on-type path stops at once, without calling a provider and
    without an error, exactly when the heuristic rejects the edit, or
    format-on-type is off, or no resolved provider has
    [formatAtPosition]; it never errors on subscription, and when it goes
    on it has not called a provider yet: the call waits for the next
    tick. *)
Theorem formatCodeOnType_gate (E : JsEngine) (cfg : AtomConfig)
    (registry : list CodeFormatProvider) (ed : TextEditor)
    (event : TextEditEvent) :
  let outcome := formatCodeOnTypeInTextEditor E cfg registry ed event in
  (outcome = Sub_complete <->
   shouldFormatOnType cfg event = false
   \/ getFormatOnType cfg = false
   \/ forall p, In p registry -> provider_matches (scopeName ed) p = true ->
                has_formatAtPosition p = false)
  /\ (forall message, outcome <> Sub_error message)
  /\ (forall ph calls, outcome = Sub_wait ph calls ->
        calls = []
        /\ exists provider, In provider registry
             /\ has_formatAtPosition provider = true
             /\ provider_matches (scopeName ed) provider = true
             /\ ph = AwaitNextTick provider
                      (last_character (newText event)) (text ed)).
Proof.
  cbv zeta. unfold formatCodeOnTypeInTextEditor.
  assert (Hempty :
            filter has_formatAtPosition
              (getMatchingProvidersForScopeName E registry (scopeName ed))
            = [] <->
            forall p, In p registry ->
                      provider_matches (scopeName ed) p = true ->
                      has_formatAtPosition p = false).
  { split.
    - intros Hnil p Hin Hm.
      destruct (has_formatAtPosition p) eqn:Ecap; [|reflexivity].
      exfalso.
      assert (Hp : In p (filter has_formatAtPosition
                           (getMatchingProvidersForScopeName E registry
                              (scopeName ed)))).
      { apply filter_In. split; [|exact Ecap].
        unfold getMatchingProvidersForScopeName.
        eapply Permutation_in; [apply sort_permutation|].
        apply filter_In. auto. }
      rewrite Hnil in Hp. destruct Hp.
    - apply resolved_capable_empty. }
  destruct (shouldFormatOnType cfg event);
    destruct (getFormatOnType cfg); cbn [negb orb];
    try (split; [split; [auto|reflexivity]
                |split; [discriminate|discriminate]]).
  destruct (filter has_formatAtPosition _) as [|provider rest] eqn:Ef.
  - split; [split; [intros _; right; right; apply Hempty; reflexivity
                   |reflexivity]|].
    split; discriminate.
  - assert (Hin : In provider (provider :: rest)) by (left; reflexivity).
    rewrite <- Ef in Hin. apply filter_In in Hin.
    destruct Hin as [Hin Hcap].
    apply getMatchingProviders_members in Hin.
    split; [|split; [discriminate|]].
    + split; [discriminate|].
      intros [Hc|[Hc|Hnone]]; try discriminate.
      apply Hempty in Hnone. discriminate.
    + intros ph calls Heq. inversion Heq; subst. split; [reflexivity|].
      exists provider. repeat split; try tauto.
      unfold provider_matches. apply andb_true_iff. split.
      * apply Z.ltb_lt. tauto.
      * apply existsb_exists. exists (scopeName ed).
        split; [tauto|apply String.eqb_refl].
Qed.

Lemma formatRange_nonempty_selection (H : AtomHost) (ed : TextEditor) :
  Point_isLessThanOrEqual (start (selectedBufferRange ed))
    (end_ (selectedBufferRange ed)) = true ->
  Range_isEmpty (selectedBufferRange ed) = false ->
  (0 <= column (start (selectedBufferRange ed)))%Z ->
  exists r1 r2,
    formatRange_of H ed
    = {| start := {| row := r1; column := 0 |};
         end_ := {| row := r2; column := 0 |} |}
    /\ r1 = row (start (selectedBufferRange ed))
    /\ (r1 < r2)%Z
    /\ (row (end_ (selectedBufferRange ed)) <= r2)%Z
    /\ ((column (end_ (selectedBufferRange ed)) = 0)%Z \/
        (row (end_ (selectedBufferRange ed)) < r2)%Z).
Proof.
  intros Hwf Hne Hcol. unfold formatRange_of. rewrite Hne.
  destruct (selectedBufferRange ed) as [[r1 c1] [r2 c2]].
  unfold Point_isLessThanOrEqual, Range_isEmpty, Point_isEqual in *.
  cbn [start end_ row column] in *.
  assert (Hrows : (r1 < r2)%Z \/ (r1 = r2 /\ c1 < c2)%Z).
  { apply orb_true_iff in Hwf. destruct Hwf as [Hlt|Heq].
    - left. apply Z.ltb_lt, Hlt.
    - apply andb_true_iff in Heq. destruct Heq as [Hr Hc].
      apply Z.eqb_eq in Hr. apply Z.leb_le in Hc. right.
      split; [exact Hr|].
      apply andb_false_iff in Hne. destruct Hne as [Hne|Hne].
      + apply Z.eqb_neq in Hne. contradiction.
      + apply Z.eqb_neq in Hne. lia. }
  destruct (c2 =? 0)%Z eqn:Ec.
  - apply Z.eqb_eq in Ec. subst c2.
    exists r1, r2. unfold new_Range, Point_isLessThanOrEqual.
    cbn [row column].
    assert (Hlt : (r1 < r2)%Z) by lia.
    apply Z.ltb_lt in Hlt. rewrite Hlt. cbn [orb].
    apply Z.ltb_lt in Hlt.
    split; [reflexivity|]. split; [reflexivity|]. split; [lia|].
    split; [lia|]. left. reflexivity.
  - apply Z.eqb_neq in Ec.
    exists r1, (r2 + 1)%Z. unfold new_Range, Point_isLessThanOrEqual.
    cbn [row column].
    assert (Hlt : (r1 < r2 + 1)%Z) by lia.
    apply Z.ltb_lt in Hlt. rewrite Hlt. cbn [orb].
    apply Z.ltb_lt in Hlt.
    split; [reflexivity|]. split; [reflexivity|]. split; [lia|].
    split; [lia|]. right. lia.
Qed.

(** X9. For a selection that is not empty, runs forward and starts at a
    column that is not negative, the format range is made of whole lines
    and covers the selection: it starts and ends at column 0, it is not
    empty, it starts at or before the start of the selection and ends at
    or after its end. *)
Theorem formatRange_covers_selection (H : AtomHost) (ed : TextEditor) :
  let selection := selectedBufferRange ed in
  let range := formatRange_of H ed in
  Point_isLessThanOrEqual (start selection) (end_ selection) = true ->
  Range_isEmpty selection = false ->
  (0 <= column (start selection))%Z ->
  column (start range) = 0%Z
  /\ column (end_ range) = 0%Z
  /\ Range_isEmpty range = false
  /\ Point_isLessThanOrEqual (start range) (start selection) = true
  /\ Point_isLessThanOrEqual (end_ selection) (end_ range) = true.
Proof.
  cbv zeta. intros Hwf Hne Hcol.
  destruct (formatRange_nonempty_selection H ed Hwf Hne Hcol)
    as (r1 & r2 & -> & Hr1 & Hlt & Hle & Hend).
  unfold Range_isEmpty, Point_isEqual, Point_isLessThanOrEqual.
  cbn [start end_ row column].
  split; [reflexivity|]. split; [reflexivity|]. split; [|split].
  - apply andb_false_iff. left. apply Z.eqb_neq. lia.
  - apply orb_true_iff. right. apply andb_true_iff.
    split; [apply Z.eqb_eq; exact Hr1|apply Z.leb_le; exact Hcol].
  - apply orb_true_iff. destruct Hend as [Hzero|Hless].
    + destruct (Z.eq_dec (row (end_ (selectedBufferRange ed))) r2)
        as [Heq|Hneq].
      * right. apply andb_true_iff.
        split; [apply Z.eqb_eq; exact Heq|apply Z.leb_le; lia].
      * left. apply Z.ltb_lt. lia.
    + left. apply Z.ltb_lt. exact Hless.
Qed.

Lemma formatRange_covers_selection_witness :
  let ed := Sample.editor_with "one" {| start := Sample.at_ 2 5;
                                        end_ := Sample.at_ 3 1 |} in
  Range_isEmpty (formatRange_of PlainHost.host ed) = false
  /\ Point_isLessThanOrEqual (end_ (selectedBufferRange ed))
       (end_ (formatRange_of PlainHost.host ed)) = true.
Proof.
  cbv zeta.
  pose proof (formatRange_covers_selection PlainHost.host
                (Sample.editor_with "one" {| start := Sample.at_ 2 5;
                                             end_ := Sample.at_ 3 1 |})
                eq_refl eq_refl ltac:(cbn; lia))
    as (_ & _ & Hne & _ & Hend).
  split; [exact Hne|exact Hend].
Defined.

(** X10. Normalising is idempotent: selecting the format range of such a
    selection and asking again gives the same range. *)
Theorem formatRange_idempotent (H : AtomHost) (ed : TextEditor) :
  Point_isLessThanOrEqual (start (selectedBufferRange ed))
    (end_ (selectedBufferRange ed)) = true ->
  Range_isEmpty (selectedBufferRange ed) = false ->
  (0 <= column (start (selectedBufferRange ed)))%Z ->
  formatRange_of H (with_selection ed (formatRange_of H ed))
  = formatRange_of H ed.
Proof.
  intros Hwf Hne Hcol.
  destruct (formatRange_nonempty_selection H ed Hwf Hne Hcol)
    as (r1 & r2 & Heq & _ & Hlt & _).
  rewrite Heq. unfold formatRange_of, with_selection.
  cbn [selectedBufferRange start end_ row column].
  unfold Range_isEmpty, Point_isEqual. cbn [start end_ row column].
  assert (Hrows : (r1 =? r2)%Z = false) by (apply Z.eqb_neq; lia).
  rewrite Hrows. cbn [andb]. rewrite Z.eqb_refl.
  unfold new_Range, Point_isLessThanOrEqual. cbn [row column].
  apply Z.ltb_lt in Hlt. rewrite Hlt. reflexivity.
Qed.

Lemma formatRange_idempotent_witness :
  let ed := Sample.editor_with "one" {| start := Sample.at_ 2 5;
                                        end_ := Sample.at_ 3 1 |} in
  formatRange_of PlainHost.host
    (with_selection ed (formatRange_of PlainHost.host ed))
  = {| start := Sample.at_ 2 0; end_ := Sample.at_ 4 0 |}.
Proof.
  cbv zeta.
  rewrite (formatRange_idempotent PlainHost.host
             (Sample.editor_with "one" {| start := Sample.at_ 2 5;
                                          end_ := Sample.at_ 3 1 |})
             eq_refl eq_refl ltac:(cbn; lia)).
  reflexivity.
Defined.

(* ================================================================== *)
(** ** Further properties of the dispatcher and of the arbiter *)
(* ================================================================== *)

(** X11. The manager writes to the buffer at one moment only: when the
    promise of an active operation resolves and the text still is the
    snapshot of that operation.  A format event, a tick, a timeout, a
    rejected promise, the destruction of the buffer, the disposal of the
    manager and the changes of the registry or of the configuration leave
    the editor as it is. *)
Theorem editor_changes_only_on_commit (E : JsEngine) (H : AtomHost)
    (g : Group) (e : Event) :
  editor (fst (step E H g e)) <> editor g ->
  (exists ed, e = HostChanges ed)
  \/ exists id v o k,
      e = PromiseSettles id (Resolved v)
      /\ find_op id (operations g) = Some o
      /\ is_active o = true
      /\ op_phase o = Some (AwaitProvider k)
      /\ snapshot_of k = text (editor g).
Proof.
  intros Hchanged.
  destruct e as [event|id|id s|id| | |ed|cfg|provider|provider].
  - exfalso. apply Hchanged. cbn [step].
    destruct (disposed g) eqn:Ed; [reflexivity|].
    pose proof (unsubscribe_inner_frame g) as (Hed & _).
    destruct (unsubscribe_inner g) as [g1 log1]. cbn [fst] in Hed.
    pose proof (subscribe_handleEvent_frame E H g1 event)
      as (_ & _ & _ & Hed2 & _).
    destruct (subscribe_handleEvent E H g1 event) as [g2 log2].
    cbn [fst] in *. congruence.
  - exfalso. apply Hchanged. cbn [step].
    destruct (find_op id (operations g)) as [o|]; [|reflexivity].
    destruct (is_active o); [|reflexivity].
    destruct (op_phase o) as [[provider character contents|k]|];
      reflexivity.
  - right. cbn [step] in Hchanged.
    destruct (find_op id (operations g)) as [o|] eqn:Efind;
      [|exfalso; apply Hchanged; reflexivity].
    destruct (is_active o) eqn:Eact;
      [|exfalso; apply Hchanged; reflexivity].
    destruct (op_phase o) as [[provider character contents|k]|] eqn:Eph;
      try (exfalso; apply Hchanged; reflexivity).
    destruct s as [v|message];
      [|exfalso; apply Hchanged; reflexivity].
    exists id, v, o, k. repeat split; try assumption.
    destruct (String.eqb_spec (snapshot_of k) (text (editor g)))
      as [Heq|Hne]; [exact Heq|].
    exfalso. apply Hchanged.
    pose proof (run_continuation_stale H k (editor g) (Resolved v) Hne)
      as Hstale.
    destruct (run_continuation H k (editor g) (Resolved v)) as [ed error].
    cbn [fst] in *. exact Hstale.
  - exfalso. apply Hchanged. cbn [step].
    destruct (find_op id (operations g)) as [o|]; [|reflexivity].
    destruct (is_active o && is_save (op_event o)); reflexivity.
  - exfalso. apply Hchanged. cbn [step].
    apply (unsubscribe_inner_frame g).
  - exfalso. apply Hchanged. cbn [step].
    pose proof (unsubscribe_inner_frame g) as (Hed & _).
    destruct (unsubscribe_inner g) as [g1 log1]. exact Hed.
  - left. exists ed. reflexivity.
  - exfalso. apply Hchanged. reflexivity.
  - exfalso. apply Hchanged. reflexivity.
  - exfalso. apply Hchanged. reflexivity.
Qed.

Lemma editor_changes_only_on_commit_witness :
  let g := Scenario.after Scenario.saving in
  let e := PromiseSettles 0 (Resolved (EntireFileValue None "a b c")) in
  editor (fst (step legacy_engine PlainHost.host g e)) <> editor g
  /\ ((exists ed, e = HostChanges ed)
      \/ exists id v o k,
          e = PromiseSettles id (Resolved v)
          /\ find_op id (operations g) = Some o
          /\ is_active o = true
          /\ op_phase o = Some (AwaitProvider k)
          /\ snapshot_of k = text (editor g)).
Proof.
  cbv zeta.
  assert (Hchanged :
            editor (fst (step legacy_engine PlainHost.host
                           (Scenario.after Scenario.saving)
                           (PromiseSettles 0
                              (Resolved (EntireFileValue None "a b c")))))
            <> editor (Scenario.after Scenario.saving))
    by (vm_compute; discriminate).
  split; [exact Hchanged|].
  exact (editor_changes_only_on_commit legacy_engine PlainHost.host _ _
           Hchanged).
Defined.





Lemma find_op_idle (g : Group) (id : nat) (o : Operation) :
  (forall o', In o' (operations g) -> is_active o' = false) ->
  find_op id (operations g) = Some o -> is_active o = false.
Proof.
  intros Hidle Hfind. apply find_op_some in Hfind. apply Hidle, Hfind.
Qed.

Lemma step_quiet (E : JsEngine) (H : AtomHost) (g : Group) (e : Event) :
  quiet g ->
  quiet (fst (step E H g e))
  /\ snd (step E H g e) = []
  /\ (is_host_change e = false -> editor (fst (step E H g e)) = editor g).
Proof.
  intros [Hdis Hidle].
  assert (Hunsub : fst (unsubscribe_inner g)
                   = set_operations g (operations g) None
                   /\ snd (unsubscribe_inner g) = []).
  { unfold unsubscribe_inner.
    destruct (innerSubscription g) as [id|] eqn:Einner.
    - destruct (find_op id (operations g)) as [o|] eqn:Efind;
        [|split; reflexivity].
      rewrite (find_op_idle g id o Hidle Efind). split; reflexivity.
    - split; [|reflexivity]. cbn [fst]. unfold set_operations.
      rewrite <- Einner. destruct g; reflexivity. }
  destruct Hunsub as [Hg1 Hlog1].
  destruct e as [event|id|id s|id| | |ed|cfg|provider|provider];
    cbn [step is_host_change].
  - rewrite Hdis. cbn. repeat split; assumption.
  - destruct (find_op id (operations g)) as [o|] eqn:Efind;
      [|cbn; repeat split; assumption].
    rewrite (find_op_idle g id o Hidle Efind).
    cbn. repeat split; assumption.
  - destruct (find_op id (operations g)) as [o|] eqn:Efind;
      [|cbn; repeat split; assumption].
    rewrite (find_op_idle g id o Hidle Efind).
    cbn. repeat split; assumption.
  - destruct (find_op id (operations g)) as [o|] eqn:Efind;
      [|cbn; repeat split; assumption].
    rewrite (find_op_idle g id o Hidle Efind).
    cbn. repeat split; assumption.
  - rewrite Hg1, Hlog1. cbn. repeat split; assumption.
  - destruct (unsubscribe_inner g) as [g1 log1]. cbn [fst snd] in *.
    subst g1 log1. cbn. repeat split; assumption.
  - cbn. repeat split; try assumption. discriminate.
  - cbn. repeat split; assumption.
  - cbn. repeat split; assumption.
  - cbn. repeat split; assumption.
Qed.

Lemma run_quiet (E : JsEngine) (H : AtomHost) (trace : list Event)
    (g : Group) :
  quiet g ->
  quiet (fst (run E H g trace))
  /\ snd (run E H g trace) = []
  /\ (forallb (fun e => negb (is_host_change e)) trace = true ->
      editor (fst (run E H g trace)) = editor g).
Proof.
  revert g. induction trace as [|e trace IH]; intros g Hq.
  - cbn. repeat split; try apply Hq.
  - cbn [run forallb].
    destruct (step_quiet E H g e Hq) as (Hq1 & Hlog1 & Hed1).
    destruct (step E H g e) as [g1 log1]. cbn [fst snd] in *.
    destruct (IH g1 Hq1) as (Hq2 & Hlog2 & Hed2).
    destruct (run E H g1 trace) as [g2 log2]. cbn [fst snd] in *.
    subst log1 log2. split; [exact Hq2|]. split; [reflexivity|].
    intros Hall. apply andb_true_iff in Hall. destruct Hall as [He Ht].
    apply negb_true_iff in He. rewrite (Hed2 Ht). apply Hed1, He.
Qed.

(** X14. Once [dispose] has run, the registry is empty, no operation is
    active, and whatever happens next (format events, ticks, promises
    that settle, timers, registrations) the manager does nothing: it
    calls no provider, reports nothing, saves nothing, and the editor
    only changes when the host changes it. *)
Theorem disposed_manager_is_silent (E : JsEngine) (H : AtomHost)
    (ed : TextEditor) (cfg : AtomConfig) (before later : list Event) :
  let g := fst (step E H (fst (run E H (new_Group ed cfg) before))
                  ManagerDisposed) in
  codeFormatProviders g = []
  /\ disposed g = true
  /\ active_count g = 0
  /\ snd (run E H g later) = []
  /\ active_count (fst (run E H g later)) = 0
  /\ (forallb (fun e => negb (is_host_change e)) later = true ->
      editor (fst (run E H g later)) = editor g).
Proof.
  cbv zeta.
  pose proof (reachable_invariant E H ed cfg before) as Hinv.
  set (g0 := fst (run E H (new_Group ed cfg) before)) in *.
  set (log0 := snd (run E H (new_Group ed cfg) before)) in *.
  pose proof (unsubscribe_inner_invariant g0 log0 Hinv) as Hunsub.
  cbv zeta in Hunsub.
  destruct Hunsub as (_ & _ & _ & _ & _ & _ & _ & Hidle & _).
  assert (Hq : quiet (fst (step E H g0 ManagerDisposed))).
  { cbn [step]. destruct (unsubscribe_inner g0) as [g1 log1].
    cbn [fst] in *. split; [reflexivity|exact Hidle]. }
  destruct (run_quiet E H later _ Hq) as ([_ Hidle2] & Hlog & Hed).
  split; [|split; [apply Hq|split; [|split; [exact Hlog|split]]]].
  - cbn [step]. destruct (unsubscribe_inner g0) as [g1 log1]. reflexivity.
  - unfold active_count. rewrite filter_none; [reflexivity|apply Hq].
  - unfold active_count. rewrite filter_none; [reflexivity|exact Hidle2].
  - exact Hed.
Qed.

(** X15. A keystroke that passes the gate calls the provider only at the
    next tick, at the cursor the editor has at that tick moved one column
    back, while the snapshot that the result is checked against is the
    text the buffer had when the event arrived.  So when the host changes
    the editor between the event and the tick, the provider is asked
    about the new cursor and a non-empty result is held against the old
    text. *)
Theorem on_type_call_waits_for_tick (E : JsEngine) (H : AtomHost)
    (g : Group) (edit : TextEditEvent) (ed' : TextEditor)
    (provider : CodeFormatProvider) (character : option ascii)
    (contents : string) :
  disposed g = false ->
  formatCodeOnTypeInTextEditor E (config g) (codeFormatProviders g)
    (editor g) edit
  = Sub_wait (AwaitNextTick provider character contents) [] ->
  let trace := [FormatEventArrives (type_type edit); HostChanges ed';
                NextTick (nextId g)] in
  contents = text (editor g)
  /\ character = last_character (newText edit)
  /\ snd (run E H g [FormatEventArrives (type_type edit)])
     = snd (unsubscribe_inner g)
  /\ snd (run E H g trace)
     = snd (unsubscribe_inner g)
       ++ [(nextId g,
            Provider_call
              (Call_formatAtPosition provider
                 (Point_translate (cursorBufferPosition ed') 0 (-1))
                 character))]
  /\ find_op (nextId g) (operations (fst (run E H g trace)))
     = Some {| op_id := nextId g; op_event := type_type edit;
               op_phase :=
                 Some (AwaitProvider
                         (Then_formatAtPosition (text (editor g))));
               op_status := Active |}.
Proof.
  intros Hlive Hsub. cbv zeta.
  assert (Hfields : contents = text (editor g)
                    /\ character = last_character (newText edit)).
  { unfold formatCodeOnTypeInTextEditor in Hsub.
    destruct (negb (shouldFormatOnType (config g) edit)
              || negb (getFormatOnType (config g))); [discriminate|].
    destruct (filter has_formatAtPosition _); [discriminate|].
    inversion Hsub. auto. }
  destruct Hfields as [-> ->].
  split; [reflexivity|]. split; [reflexivity|].
  pose proof (unsubscribe_inner_frame g) as (Hed & Hreg & Hcfg & Hnext & _).
  set (newop := {| op_id := nextId g; op_event := type_type edit;
                   op_phase :=
                     Some (AwaitNextTick provider
                             (last_character (newText edit))
                             (text (editor g)));
                   op_status := Active |}).
  set (g2 := {| editor := editor g;
                codeFormatProviders := codeFormatProviders g;
                config := config g;
                operations := newop :: operations (fst (unsubscribe_inner g));
                innerSubscription := Some (nextId g);
                nextId := S (nextId g);
                disposed := disposed (fst (unsubscribe_inner g)) |}).
  assert (Hstep1 : step E H g (FormatEventArrives (type_type edit))
                   = (g2, snd (unsubscribe_inner g) ++ [])).
  { rewrite (step_FormatEventArrives E H g _ Hlive).
    unfold subscribe_handleEvent. rewrite Hed, Hreg, Hcfg, Hsub, Hnext.
    reflexivity. }
  assert (Hstep3 : step E H (set_editor g2 ed') (NextTick (nextId g))
                   = (set_operations (set_editor g2 ed')
                        (update_op (nextId g)
                           (with_phase
                              (AwaitProvider
                                 (Then_formatAtPosition (text (editor g)))))
                           (operations (set_editor g2 ed')))
                        (innerSubscription (set_editor g2 ed')),
                      tag (nextId g)
                        [Provider_call
                           (formatAtPosition_call provider
                              (last_character (newText edit)) ed')])).
  { apply (step_NextTick_new_operation E H (set_editor g2 ed') newop
             provider (last_character (newText edit)) (text (editor g)));
      reflexivity. }
  assert (Hstep2 : step E H g2 (HostChanges ed') = (set_editor g2 ed', []))
    by reflexivity.
  cbn [run]. rewrite Hstep1, Hstep2, Hstep3.
  cbn [fst snd]. rewrite !app_nil_r.
  split; [reflexivity|]. split; [reflexivity|].
  unfold find_op. cbn [set_operations operations set_editor g2 update_op map].
  cbn [op_id newop]. rewrite Nat.eqb_refl. cbn [find with_phase op_id].
  rewrite Nat.eqb_refl. reflexivity.
Qed.

Lemma on_type_call_waits_for_tick_witness :
  let g := Scenario.after [ProviderAdded Sample.position_only] in
  snd (run legacy_engine PlainHost.host g
         [FormatEventArrives (type_type Sample.insert_x);
          HostChanges (Sample.editor_with "abcd"
                         {| start := Sample.at_ 0 4; end_ := Sample.at_ 0 4 |});
          NextTick 0])
  = [(0, Provider_call
           (Call_formatAtPosition Sample.position_only (Sample.at_ 0 3)
              (Some "x"%char)))].
Proof.
  cbv zeta.
  pose proof (on_type_call_waits_for_tick legacy_engine PlainHost.host
                (Scenario.after [ProviderAdded Sample.position_only])
                Sample.insert_x
                (Sample.editor_with "abcd"
                   {| start := Sample.at_ 0 4; end_ := Sample.at_ 0 4 |})
                Sample.position_only (Some "x"%char) "abc"
                eq_refl eq_refl) as (_ & _ & _ & Hlog & _).
  exact Hlog.
Defined.

Lemma finally_effects_allowed (event : FormatEvent) (e : Effect) :
  In e (finally_effects event) -> effect_allowed event e.
Proof.
  destruct event; cbn; try contradiction.
  intros [<-|[]]. reflexivity.
Qed.

Lemma terminate_effects_allowed (event : FormatEvent)
    (error : option string) (e : Effect) :
  In e (terminate_effects event error) -> effect_allowed event e.
Proof.
  unfold terminate_effects. intros Hin. apply in_app_or in Hin.
  destruct Hin as [Hin|Hin]; [|apply finally_effects_allowed, Hin].
  destruct error as [message|]; [|destruct Hin].
  destruct event; cbn in Hin; destruct Hin as [<-|[]]; cbn; auto.
Qed.

Lemma update_op_persists (id : nat) (f : Operation -> Operation)
    (ops : list Operation) (o : Operation) :
  (forall x, op_id (f x) = op_id x /\ op_event (f x) = op_event x) ->
  In o ops ->
  exists o', In o' (update_op id f ops)
             /\ op_id o' = op_id o /\ op_event o' = op_event o.
Proof.
  intros Hf Hin. unfold update_op.
  exists (if Nat.eqb (op_id o) id then f o else o). split.
  - apply in_map_iff. exists o. auto.
  - destruct (Nat.eqb (op_id o) id); [apply Hf|auto].
Qed.

Lemma discipline_update (g g' : Group) (log : Log) (o : Operation)
    (f : Operation -> Operation) (l : list Effect) :
  discipline g log ->
  In o (operations g) ->
  operations g' = update_op (op_id o) f (operations g) ->
  (forall x, op_id (f x) = op_id x /\ op_event (f x) = op_event x) ->
  (forall x, tick_is_for_type x -> tick_is_for_type (f x)) ->
  (forall e, In e l -> effect_allowed (op_event o) e) ->
  discipline g' (log ++ tag (op_id o) l).
Proof.
  intros [Htick Hlog] Hin Hops Hf Hft Hl. split.
  - intros o' Hin'. rewrite Hops in Hin'. apply update_op_in in Hin'.
    destruct Hin' as (o0 & Hin0 & [[_ ->]|[_ ->]]); auto.
  - intros id e Hine. apply in_app_or in Hine.
    assert (Hkeep : forall x, In x (operations g) ->
              exists o', In o' (operations g')
                         /\ op_id o' = op_id x
                         /\ op_event o' = op_event x).
    { intros x Hx. rewrite Hops. apply update_op_persists; assumption. }
    destruct Hine as [Hold|Hnew].
    + destruct (Hlog id e Hold) as (x & Hx & Hid & Hall).
      destruct (Hkeep x Hx) as (o' & Hin' & Hid' & Hev').
      exists o'. rewrite Hev'. repeat split; try assumption. congruence.
    + apply in_tag in Hnew. destruct Hnew as [-> He].
      destruct (Hkeep o Hin) as (o' & Hin' & Hid' & Hev').
      exists o'. rewrite Hev'. repeat split; auto.
Qed.

Lemma discipline_same (g g' : Group) (log : Log) :
  discipline g log -> operations g' = operations g -> discipline g' log.
Proof. intros [Htick Hlog] Hops. split; rewrite Hops; assumption. Qed.

Lemma discipline_add (g g' : Group) (log : Log) (o : Operation)
    (l : list Effect) :
  discipline g log ->
  operations g' = o :: operations g ->
  tick_is_for_type o ->
  (forall e, In e l -> effect_allowed (op_event o) e) ->
  discipline g' (log ++ tag (op_id o) l).
Proof.
  intros [Htick Hlog] Hops Ho Hl. split.
  - intros o' Hin'. rewrite Hops in Hin'. destruct Hin' as [<-|Hin']; auto.
  - intros id e Hine. apply in_app_or in Hine. destruct Hine as [Hold|Hnew].
    + destruct (Hlog id e Hold) as (x & Hx & Hid & Hall).
      exists x. rewrite Hops. repeat split; auto. right. exact Hx.
    + apply in_tag in Hnew. destruct Hnew as [-> He].
      exists o. rewrite Hops. repeat split; auto. left. reflexivity.
Qed.

Lemma formatCodeInTextEditor_calls (E : JsEngine) (H : AtomHost)
    (registry : list CodeFormatProvider) (ed : TextEditor) (ph : Phase)
    (calls : list ProviderCall) :
  formatCodeInTextEditor E H registry ed = Sub_wait ph calls ->
  (exists k, ph = AwaitProvider k)
  /\ exists call, calls = [call]
                  /\ is_provider_call (Provider_call call) = true
                  /\ forall event, is_type event = false ->
                                   effect_allowed event (Provider_call call).
Proof.
  intros Hsub.
  split; [apply (formatCodeInTextEditor_waits_for_provider _ _ _ _ _ _ Hsub)|].
  unfold formatCodeInTextEditor in Hsub.
  destruct (filter command_capable _) as [|p l]; [discriminate|].
  destruct (has_formatCode p && _).
  - inversion Hsub. eexists. repeat split. intros event Hev. exact Hev.
  - destruct (has_formatEntireFile p); [|discriminate].
    inversion Hsub. eexists. repeat split. intros event Hev. exact Hev.
Qed.

Lemma formatCodeOnTypeInTextEditor_calls (E : JsEngine) (cfg : AtomConfig)
    (registry : list CodeFormatProvider) (ed : TextEditor)
    (edit : TextEditEvent) (ph : Phase) (calls : list ProviderCall) :
  formatCodeOnTypeInTextEditor E cfg registry ed edit = Sub_wait ph calls ->
  calls = []
  /\ exists provider character contents,
      ph = AwaitNextTick provider character contents.
Proof.
  unfold formatCodeOnTypeInTextEditor.
  destruct (negb (shouldFormatOnType cfg edit) || negb (getFormatOnType cfg));
    [discriminate|].
  destruct (filter has_formatAtPosition _); [discriminate|].
  intros Hsub. inversion Hsub. split; [reflexivity|].
  eexists. eexists. eexists. reflexivity.
Qed.

Lemma subscribe_handleEvent_discipline (E : JsEngine) (H : AtomHost)
    (g : Group) (log : Log) (event : FormatEvent) :
  discipline g log ->
  discipline (fst (subscribe_handleEvent E H g event))
    (log ++ snd (subscribe_handleEvent E H g event)).
Proof.
  intros Hd. unfold subscribe_handleEvent.
  destruct event as [| |edit].
  - destruct (formatCodeInTextEditor E H _ _) as [message| |ph calls] eqn:Es;
      cbn [fst snd];
      (eapply (discipline_add g _ log
                 {| op_id := nextId g; op_event := type_command;
                    op_phase := _; op_status := _ |});
       [exact Hd|reflexivity| |]).
    + intros p c s Hph. discriminate.
    + cbn. intros e [<-|[]]. cbn. auto.
    + intros p c s Hph. discriminate.
    + cbn. intros e [].
    + destruct (formatCodeInTextEditor_calls _ _ _ _ _ _ Es)
        as ([k ->] & _).
      intros p c s Hph. discriminate.
    + destruct (formatCodeInTextEditor_calls _ _ _ _ _ _ Es)
        as (_ & call & -> & _ & Hcall).
      cbn. intros e [<-|[]]. apply Hcall. reflexivity.
  - destruct (formatCodeOnSaveInTextEditor E H _ _)
      as [message| |ph calls] eqn:Es;
      cbn [fst snd];
      (eapply (discipline_add g _ log
                 {| op_id := nextId g; op_event := type_save;
                    op_phase := _; op_status := _ |});
       [exact Hd|reflexivity| |]).
    + intros p c s Hph. discriminate.
    + cbn. intros e [<-|[<-|[<-|[]]]]; cbn; auto.
    + intros p c s Hph. discriminate.
    + cbn. intros e [<-|[<-|[]]]; cbn; auto.
    + destruct (formatCodeInTextEditor_calls _ _ _ _ _ _ Es)
        as ([k ->] & _).
      intros p c s Hph. discriminate.
    + destruct (formatCodeInTextEditor_calls _ _ _ _ _ _ Es)
        as (_ & call & -> & _ & Hcall).
      cbn. intros e [<-|[<-|[]]]; [cbn; auto|]. apply Hcall. reflexivity.
  - destruct (formatCodeOnTypeInTextEditor E _ _ _ _)
      as [message| |ph calls] eqn:Es;
      cbn [fst snd];
      (eapply (discipline_add g _ log
                 {| op_id := nextId g; op_event := type_type edit;
                    op_phase := _; op_status := _ |});
       [exact Hd|reflexivity| |]).
    + intros p c s Hph. reflexivity.
    + cbn. intros e [<-|[]]. cbn. auto.
    + intros p c s Hph. reflexivity.
    + cbn. intros e [].
    + intros p c s Hph. reflexivity.
    + destruct (formatCodeOnTypeInTextEditor_calls _ _ _ _ _ _ _ Es)
        as (-> & _).
      cbn. intros e [].
Qed.

Lemma unsubscribe_inner_discipline (g : Group) (log : Log) :
  discipline g log ->
  discipline (fst (unsubscribe_inner g)) (log ++ snd (unsubscribe_inner g)).
Proof.
  intros Hd. unfold unsubscribe_inner.
  destruct (innerSubscription g) as [id|];
    [|cbn; rewrite app_nil_r; exact Hd].
  destruct (find_op id (operations g)) as [o|] eqn:Efind;
    [|cbn [fst snd]; rewrite app_nil_r;
      apply (discipline_same g); [exact Hd|reflexivity]].
  pose proof (find_op_some _ _ _ Efind) as [Hin Hid]. subst id.
  destruct (is_active o);
    [|cbn [fst snd]; rewrite app_nil_r;
      apply (discipline_same g); [exact Hd|reflexivity]].
  cbn [fst snd].
  apply (discipline_update g _ log o (with_status Abandoned));
    try assumption; try reflexivity.
  - intros x. split; reflexivity.
  - intros x Hx. exact Hx.
  - apply finally_effects_allowed.
Qed.

Lemma complete_op_discipline (g : Group) (log : Log) (o : Operation)
    (ed : TextEditor) (error : option string) :
  discipline g log -> In o (operations g) ->
  discipline (fst (complete_op g o ed error))
    (log ++ snd (complete_op g o ed error)).
Proof.
  intros Hd Hin. unfold complete_op. cbn [fst snd].
  apply (discipline_update g _ log o (with_status Completed));
    try assumption; try reflexivity.
  - intros x. split; reflexivity.
  - intros x Hx. exact Hx.
  - apply terminate_effects_allowed.
Qed.

Lemma step_discipline (E : JsEngine) (H : AtomHost) (g : Group) (log : Log)
    (e : Event) :
  discipline g log ->
  discipline (fst (step E H g e)) (log ++ snd (step E H g e)).
Proof.
  intros Hd.
  pose proof (unsubscribe_inner_discipline g log Hd) as Hunsub.
  destruct e as [event|id|id s|id| | |ed|cfg|provider|provider]; cbn [step].
  - destruct (disposed g); [cbn; rewrite app_nil_r; exact Hd|].
    destruct (unsubscribe_inner g) as [g1 log1]. cbn [fst snd] in Hunsub.
    pose proof (subscribe_handleEvent_discipline E H g1 (log ++ log1) event
                  Hunsub) as Hsub.
    destruct (subscribe_handleEvent E H g1 event) as [g2 log2].
    cbn [fst snd] in *. rewrite app_assoc. exact Hsub.
  - destruct (find_op id (operations g)) as [o|] eqn:Efind;
      [|cbn; rewrite app_nil_r; exact Hd].
    pose proof (find_op_some _ _ _ Efind) as [Hin Hid]. subst id.
    destruct (is_active o); [|cbn; rewrite app_nil_r; exact Hd].
    destruct (op_phase o) as [[provider character contents|k]|] eqn:Eph;
      try (cbn; rewrite app_nil_r; exact Hd).
    cbn [fst snd].
    apply (discipline_update g _ log o
             (with_phase (AwaitProvider (Then_formatAtPosition contents))));
      try assumption; try reflexivity.
    + intros x. split; reflexivity.
    + intros x _ p c s Hph. discriminate.
    + intros e [<-|[]]. cbn.
      apply (proj1 Hd o Hin provider character contents Eph).
  - destruct (find_op id (operations g)) as [o|] eqn:Efind;
      [|cbn; rewrite app_nil_r; exact Hd].
    pose proof (find_op_some _ _ _ Efind) as [Hin Hid]. subst id.
    destruct (is_active o); [|cbn; rewrite app_nil_r; exact Hd].
    destruct (op_phase o) as [[provider character contents|k]|];
      try (cbn; rewrite app_nil_r; exact Hd).
    destruct (run_continuation H k (editor g) s) as [ed error].
    apply complete_op_discipline; assumption.
  - destruct (find_op id (operations g)) as [o|] eqn:Efind;
      [|cbn; rewrite app_nil_r; exact Hd].
    pose proof (find_op_some _ _ _ Efind) as [Hin Hid]. subst id.
    destruct (is_active o && is_save (op_event o));
      [|cbn; rewrite app_nil_r; exact Hd].
    apply complete_op_discipline; assumption.
  - exact Hunsub.
  - destruct (unsubscribe_inner g) as [g1 log1]. cbn [fst snd] in *.
    apply (discipline_same g1); [exact Hunsub|reflexivity].
  - cbn [fst snd]. rewrite app_nil_r.
    apply (discipline_same g); [exact Hd|reflexivity].
  - cbn [fst snd]. rewrite app_nil_r.
    apply (discipline_same g); [exact Hd|reflexivity].
  - cbn [fst snd]. rewrite app_nil_r.
    apply (discipline_same g); [exact Hd|reflexivity].
  - cbn [fst snd]. rewrite app_nil_r.
    apply (discipline_same g); [exact Hd|reflexivity].
Qed.

Lemma run_discipline (E : JsEngine) (H : AtomHost) (trace : list Event)
    (g : Group) (log : Log) :
  discipline g log ->
  discipline (fst (run E H g trace)) (log ++ snd (run E H g trace)).
Proof.
  revert g log. induction trace as [|e trace IH]; intros g log Hd.
  - cbn. rewrite app_nil_r. exact Hd.
  - cbn [run].
    pose proof (step_discipline E H g log e Hd) as Hstep.
    destruct (step E H g e) as [g1 log1]. cbn [fst snd] in Hstep.
    pose proof (IH g1 (log ++ log1) Hstep) as Hrun.
    destruct (run E H g1 trace) as [g2 log2]. cbn [fst snd] in *.
    rewrite app_assoc. exact Hrun.
Qed.

(** X16. In every run each effect belongs to the operation of one format
    event and fits the type of that event: an error notification only
    comes from a command; a logged warning only from a keystroke or a
    save, with the message of that path; [buffer.save()] and the
    2500 ms timer only from a save; [formatAtPosition] is only called
    for a keystroke, [formatCode] and [formatEntireFile] only for a
    command or a save. *)
Theorem effects_fit_their_event (E : JsEngine) (H : AtomHost)
    (ed : TextEditor) (cfg : AtomConfig) (trace : list Event) :
  let g := fst (run E H (new_Group ed cfg) trace) in
  let log := snd (run E H (new_Group ed cfg) trace) in
  forall id e, In (id, e) log ->
    exists o, In o (operations g) /\ op_id o = id
              /\ effect_allowed (op_event o) e
              /\ forall o', In o' (operations g) -> op_id o' = id -> o' = o.
Proof.
  cbv zeta. intros id e Hin.
  assert (Hd : discipline (new_Group ed cfg) []).
  { split; [intros o []|intros ? ? []]. }
  pose proof (run_discipline E H trace (new_Group ed cfg) [] Hd) as [_ Hlog].
  destruct (Hlog id e Hin) as (o & Ho & Hid & Hall).
  exists o. repeat split; try assumption.
  intros o' Ho' Hid'.
  pose proof (reachable_invariant E H ed cfg trace) as Hinv.
  apply (op_unique _ o' o (inv_nodup _ _ Hinv) Ho' Ho). congruence.
Qed.

Lemma effects_fit_their_event_witness :
  let trace := Scenario.saving ++ [PromiseSettles 0 (Rejected "crash")] in
  In (0, Buffer_save)
    (snd (run legacy_engine PlainHost.host
            (new_Group Scenario.opened Sample.cfg) trace))
  /\ exists o,
      In o (operations
              (fst (run legacy_engine PlainHost.host
                      (new_Group Scenario.opened Sample.cfg) trace)))
      /\ op_id o = 0 /\ op_event o = type_save.
Proof.
  cbv zeta.
  assert (Hin : In (0, Buffer_save)
                  (snd (run legacy_engine PlainHost.host
                          (new_Group Scenario.opened Sample.cfg)
                          (Scenario.saving
                           ++ [PromiseSettles 0 (Rejected "crash")]))))
    by (vm_compute; tauto).
  split; [exact Hin|].
  destruct (effects_fit_their_event legacy_engine PlainHost.host
              Scenario.opened Sample.cfg
              (Scenario.saving ++ [PromiseSettles 0 (Rejected "crash")])
              0 Buffer_save Hin) as (o & Ho & Hid & Hallowed & _).
  exists o. repeat split; assumption.
Defined.


Lemma calls_of_app (id : nat) (l1 l2 : Log) :
  calls_of id (l1 ++ l2) = calls_of id l1 + calls_of id l2.
Proof.
  unfold calls_of. rewrite effects_of_app, filter_app, length_app.
  reflexivity.
Qed.

Lemma calls_of_other (id id' : nat) (log : Log) (l : list Effect) :
  id' <> id -> calls_of id (log ++ tag id' l) = calls_of id log.
Proof.
  intros Hne. rewrite calls_of_app. unfold calls_of at 2.
  rewrite (effects_of_tag_other id id' l Hne). cbn. lia.
Qed.

Lemma calls_of_same (id : nat) (log : Log) (l : list Effect) :
  calls_of id (log ++ tag id l)
  = calls_of id log + List.length (filter is_provider_call l).
Proof.
  rewrite calls_of_app. unfold calls_of at 2.
  rewrite effects_of_tag_same. reflexivity.
Qed.

Lemma terminate_effects_no_call (event : FormatEvent)
    (error : option string) :
  filter is_provider_call (terminate_effects event error) = [].
Proof. destruct event; destruct error; reflexivity. Qed.

Lemma finally_effects_no_call (event : FormatEvent) :
  filter is_provider_call (finally_effects event) = [].
Proof. destruct event; reflexivity. Qed.

Lemma called_once_update (g g' : Group) (log : Log) (o : Operation)
    (f : Operation -> Operation) (l : list Effect) :
  invariant g log -> called_once g log ->
  In o (operations g) ->
  operations g' = update_op (op_id o) f (operations g) ->
  (forall x, op_id (f x) = op_id x) ->
  calls_bound (op_phase (f o))
    (calls_of (op_id o) log + List.length (filter is_provider_call l)) ->
  called_once g' (log ++ tag (op_id o) l).
Proof.
  intros Hinv Hc Hin Hops Hf Hbound o' Hin'.
  rewrite Hops in Hin'. apply update_op_in in Hin'.
  destruct Hin' as (o0 & Hin0 & [[Hid ->]|[Hid ->]]).
  - assert (o0 = o)
      by (apply (op_unique (operations g)); try assumption;
          apply (inv_nodup g log Hinv)).
    subst o0. rewrite Hf, calls_of_same. exact Hbound.
  - rewrite calls_of_other by congruence. apply Hc, Hin0.
Qed.

Lemma called_once_same (g g' : Group) (log : Log) :
  called_once g log -> operations g' = operations g -> called_once g' log.
Proof. intros Hc Hops o Hin. rewrite Hops in Hin. apply Hc, Hin. Qed.

Lemma called_once_add (g g' : Group) (log : Log) (o : Operation)
    (l : list Effect) :
  invariant g log -> called_once g log ->
  operations g' = o :: operations g ->
  op_id o = nextId g ->
  calls_bound (op_phase o) (List.length (filter is_provider_call l)) ->
  called_once g' (log ++ tag (op_id o) l).
Proof.
  intros Hinv Hc Hops Hid Hbound o' Hin'. rewrite Hops in Hin'.
  destruct Hin' as [<-|Hin'].
  - rewrite calls_of_same. unfold calls_of.
    rewrite effects_of_fresh; [exact Hbound|].
    intros id' e Hine. pose proof (inv_log_fresh g log Hinv id' e Hine). lia.
  - rewrite calls_of_other; [apply Hc, Hin'|].
    pose proof (inv_fresh g log Hinv o' Hin'). lia.
Qed.

Lemma unsubscribe_inner_called_once (g : Group) (log : Log) :
  invariant g log -> called_once g log ->
  called_once (fst (unsubscribe_inner g)) (log ++ snd (unsubscribe_inner g)).
Proof.
  intros Hinv Hc. unfold unsubscribe_inner.
  destruct (innerSubscription g) as [id|];
    [|cbn; rewrite app_nil_r; exact Hc].
  destruct (find_op id (operations g)) as [o|] eqn:Efind;
    [|cbn [fst snd]; rewrite app_nil_r;
      apply (called_once_same g); [exact Hc|reflexivity]].
  pose proof (find_op_some _ _ _ Efind) as [Hin Hid]. subst id.
  destruct (is_active o);
    [|cbn [fst snd]; rewrite app_nil_r;
      apply (called_once_same g); [exact Hc|reflexivity]].
  cbn [fst snd].
  apply (called_once_update g _ log o (with_status Abandoned));
    try assumption; try reflexivity.
  rewrite finally_effects_no_call. cbn [List.length with_status op_phase].
  rewrite Nat.add_0_r. apply Hc, Hin.
Qed.

Lemma complete_op_called_once (g : Group) (log : Log) (o : Operation)
    (ed : TextEditor) (error : option string) :
  invariant g log -> called_once g log -> In o (operations g) ->
  called_once (fst (complete_op g o ed error))
    (log ++ snd (complete_op g o ed error)).
Proof.
  intros Hinv Hc Hin. unfold complete_op. cbn [fst snd].
  apply (called_once_update g _ log o (with_status Completed));
    try assumption; try reflexivity.
  rewrite terminate_effects_no_call. cbn [List.length with_status op_phase].
  rewrite Nat.add_0_r. apply Hc, Hin.
Qed.

Lemma subscribe_handleEvent_called_once (E : JsEngine) (H : AtomHost)
    (g : Group) (log : Log) (event : FormatEvent) :
  invariant g log -> called_once g log ->
  called_once (fst (subscribe_handleEvent E H g event))
    (log ++ snd (subscribe_handleEvent E H g event)).
Proof.
  intros Hinv Hc. unfold subscribe_handleEvent.
  destruct event as [| |edit].
  - destruct (formatCodeInTextEditor E H _ _) as [message| |ph calls] eqn:Es;
      cbn [fst snd];
      (eapply (called_once_add g _ log
                 {| op_id := nextId g; op_event := type_command;
                    op_phase := _; op_status := _ |});
       [exact Hinv|exact Hc|reflexivity|reflexivity|]); cbn [op_phase].
    + reflexivity.
    + reflexivity.
    + destruct (formatCodeInTextEditor_calls _ _ _ _ _ _ Es)
        as ([k ->] & call & -> & _). cbn. lia.
  - destruct (formatCodeOnSaveInTextEditor E H _ _)
      as [message| |ph calls] eqn:Es;
      cbn [fst snd];
      (eapply (called_once_add g _ log
                 {| op_id := nextId g; op_event := type_save;
                    op_phase := _; op_status := _ |});
       [exact Hinv|exact Hc|reflexivity|reflexivity|]); cbn [op_phase].
    + reflexivity.
    + reflexivity.
    + destruct (formatCodeInTextEditor_calls _ _ _ _ _ _ Es)
        as ([k ->] & call & -> & _). cbn. lia.
  - destruct (formatCodeOnTypeInTextEditor E _ _ _ _)
      as [message| |ph calls] eqn:Es;
      cbn [fst snd];
      (eapply (called_once_add g _ log
                 {| op_id := nextId g; op_event := type_type edit;
                    op_phase := _; op_status := _ |});
       [exact Hinv|exact Hc|reflexivity|reflexivity|]); cbn [op_phase].
    + reflexivity.
    + reflexivity.
    + destruct (formatCodeOnTypeInTextEditor_calls _ _ _ _ _ _ _ Es)
        as (-> & provider & character & contents & ->). reflexivity.
Qed.

Lemma step_called_once (E : JsEngine) (H : AtomHost) (g : Group) (log : Log)
    (e : Event) :
  invariant g log -> called_once g log ->
  called_once (fst (step E H g e)) (log ++ snd (step E H g e)).
Proof.
  intros Hinv Hc.
  pose proof (unsubscribe_inner_called_once g log Hinv Hc) as Hunsub.
  pose proof (unsubscribe_inner_invariant g log Hinv) as Hinv1.
  cbv zeta in Hinv1. destruct Hinv1 as (Hinv1 & _).
  destruct e as [event|id|id s|id| | |ed|cfg|provider|provider]; cbn [step].
  - destruct (disposed g); [cbn; rewrite app_nil_r; exact Hc|].
    destruct (unsubscribe_inner g) as [g1 log1]. cbn [fst snd] in *.
    pose proof (subscribe_handleEvent_called_once E H g1 (log ++ log1) event
                  Hinv1 Hunsub) as Hsub.
    destruct (subscribe_handleEvent E H g1 event) as [g2 log2].
    cbn [fst snd] in *. rewrite app_assoc. exact Hsub.
  - destruct (find_op id (operations g)) as [o|] eqn:Efind;
      [|cbn; rewrite app_nil_r; exact Hc].
    pose proof (find_op_some _ _ _ Efind) as [Hin Hid]. subst id.
    destruct (is_active o); [|cbn; rewrite app_nil_r; exact Hc].
    destruct (op_phase o) as [[provider character contents|k]|] eqn:Eph;
      try (cbn; rewrite app_nil_r; exact Hc).
    cbn [fst snd].
    apply (called_once_update g _ log o
             (with_phase (AwaitProvider (Then_formatAtPosition contents))));
      try assumption; try reflexivity.
    pose proof (Hc o Hin) as Hzero. rewrite Eph in Hzero. cbn in Hzero.
    rewrite Hzero. cbn. lia.
  - destruct (find_op id (operations g)) as [o|] eqn:Efind;
      [|cbn; rewrite app_nil_r; exact Hc].
    pose proof (find_op_some _ _ _ Efind) as [Hin Hid]. subst id.
    destruct (is_active o); [|cbn; rewrite app_nil_r; exact Hc].
    destruct (op_phase o) as [[provider character contents|k]|];
      try (cbn; rewrite app_nil_r; exact Hc).
    destruct (run_continuation H k (editor g) s) as [ed error].
    apply complete_op_called_once; assumption.
  - destruct (find_op id (operations g)) as [o|] eqn:Efind;
      [|cbn; rewrite app_nil_r; exact Hc].
    pose proof (find_op_some _ _ _ Efind) as [Hin Hid]. subst id.
    destruct (is_active o && is_save (op_event o));
      [|cbn; rewrite app_nil_r; exact Hc].
    apply complete_op_called_once; assumption.
  - exact Hunsub.
  - destruct (unsubscribe_inner g) as [g1 log1]. cbn [fst snd] in *.
    apply (called_once_same g1); [exact Hunsub|reflexivity].
  - cbn [fst snd]. rewrite app_nil_r.
    apply (called_once_same g); [exact Hc|reflexivity].
  - cbn [fst snd]. rewrite app_nil_r.
    apply (called_once_same g); [exact Hc|reflexivity].
  - cbn [fst snd]. rewrite app_nil_r.
    apply (called_once_same g); [exact Hc|reflexivity].
  - cbn [fst snd]. rewrite app_nil_r.
    apply (called_once_same g); [exact Hc|reflexivity].
Qed.

Lemma run_called_once (E : JsEngine) (H : AtomHost) (trace : list Event)
    (g : Group) (log : Log) :
  invariant g log -> called_once g log ->
  called_once (fst (run E H g trace)) (log ++ snd (run E H g trace)).
Proof.
  revert g log. induction trace as [|e trace IH]; intros g log Hinv Hc.
  - cbn. rewrite app_nil_r. exact Hc.
  - cbn [run].
    pose proof (step_invariant E H g log e Hinv) as Hinv1.
    pose proof (step_called_once E H g log e Hinv Hc) as Hstep.
    destruct (step E H g e) as [g1 log1]. cbn [fst snd] in *.
    pose proof (IH g1 (log ++ log1) Hinv1 Hstep) as Hrun.
    destruct (run E H g1 trace) as [g2 log2]. cbn [fst snd] in *.
    rewrite app_assoc. exact Hrun.
Qed.

(** X17. In every run the operation of a format event calls a provider
    at most once; an operation that ended at its subscription (no
    provider, gate closed) and the operation of a keystroke that still
    waits for its tick have called none. *)
Theorem provider_is_called_at_most_once (E : JsEngine) (H : AtomHost)
    (ed : TextEditor) (cfg : AtomConfig) (trace : list Event) :
  let g := fst (run E H (new_Group ed cfg) trace) in
  let log := snd (run E H (new_Group ed cfg) trace) in
  forall o, In o (operations g) ->
    calls_of (op_id o) log <= 1
    /\ (op_phase o = None -> calls_of (op_id o) log = 0)
    /\ (forall provider character contents,
           op_phase o = Some (AwaitNextTick provider character contents) ->
           calls_of (op_id o) log = 0).
Proof.
  cbv zeta. intros o Hin.
  assert (Hc : called_once (new_Group ed cfg) []) by (intros x []).
  pose proof (run_called_once E H trace (new_Group ed cfg) []
                (new_Group_invariant ed cfg) Hc o Hin) as Hbound.
  cbn [app] in Hbound. unfold calls_bound in Hbound.
  destruct (op_phase o) as [[provider character contents|k]|].
  - rewrite Hbound. repeat split; try lia; try discriminate. 
  - repeat split; try lia; try discriminate.
  - rewrite Hbound. repeat split; try lia; try discriminate.
Qed.

Lemma provider_is_called_at_most_once_witness :
  let trace := [ProviderAdded Sample.position_only;
                FormatEventArrives (type_type Sample.insert_x);
                NextTick 0; NextTick 0] in
  calls_of 0
    (snd (run legacy_engine PlainHost.host
            (new_Group Scenario.opened Sample.cfg) trace)) <= 1.
Proof.
  cbv zeta.
  apply (provider_is_called_at_most_once legacy_engine PlainHost.host
           Scenario.opened Sample.cfg
           [ProviderAdded Sample.position_only;
            FormatEventArrives (type_type Sample.insert_x);
            NextTick 0; NextTick 0]
           {| op_id := 0; op_event := type_type Sample.insert_x;
              op_phase := Some (AwaitProvider (Then_formatAtPosition "abc"));
              op_status := Active |}).
  vm_compute. left. reflexivity.
Defined.


(* ================================================================== *)
(** ** Properties of the event stream of an editor *)
(* ================================================================== *)

Lemma EditorStream_step_coherent (s : EditorStream.State)
    (i : EditorStream.Input) :
  EditorStream.coherent s ->
  EditorStream.coherent (fst (EditorStream.step s i)).
Proof.
  unfold EditorStream.coherent.
  destruct s as [m sub captured pend].
  destruct i as [formatOnSave|edit| | | |];
    [destruct formatOnSave| | | | |];
    destruct sub; destruct captured as [c|]; destruct m;
    try destruct pend; cbn;
    intuition (try discriminate; try congruence).
Qed.

Lemma EditorStream_run_coherent (inputs : list EditorStream.Input)
    (s : EditorStream.State) :
  EditorStream.coherent s ->
  EditorStream.coherent (fst (EditorStream.run s inputs)).
Proof.
  revert s. induction inputs as [|i rest IH]; intros s Hs; [exact Hs|].
  cbn [EditorStream.run].
  pose proof (EditorStream_step_coherent s i Hs) as H1.
  destruct (EditorStream.step s i) as [s1 out1]. cbn [fst] in H1.
  specialize (IH s1 H1).
  destruct (EditorStream.run s1 rest) as [s2 out2]. exact IH.
Qed.

Lemma EditorStream_unobserved_coherent :
  EditorStream.coherent EditorStream.unobserved.
Proof. split; reflexivity. Qed.

(** X18. Whatever happened to an editor before, a call of [editor.save]
    has exactly one outcome: while a subscription that was made with
    format-on-save on is open, it emits one save event and does not
    persist; otherwise (format-on-save was off at the subscription, or the
    editor was never subscribed, was destroyed, or the manager
    unsubscribed) the real save runs and no event is emitted.  Whenever no
    subscription is open, [editor.save] is the real function again and no
    change is pending. *)
Theorem save_is_intercepted_while_subscribed
    (inputs : list EditorStream.Input) :
  let s := fst (EditorStream.run EditorStream.unobserved inputs) in
  snd (EditorStream.step s EditorStream.SaveCalled)
  = match EditorStream.realSave s with
    | Some _ => [EditorStream.Emit type_save]
    | None => [EditorStream.Persist]
    end
  /\ (EditorStream.realSave s <> None -> EditorStream.subscribed s = true)
  /\ (EditorStream.subscribed s = false ->
      EditorStream.save s = EditorStream.RealSave
      /\ EditorStream.pending s = None)
  /\ snd (EditorStream.run EditorStream.unobserved
            [EditorStream.Subscribe true; EditorStream.SaveCalled;
             EditorStream.EditorDestroyed; EditorStream.SaveCalled])
     = [EditorStream.Emit type_save; EditorStream.Persist]
  /\ snd (EditorStream.run EditorStream.unobserved
            [EditorStream.Subscribe false; EditorStream.SaveCalled])
     = [EditorStream.Persist].
Proof.
  cbv zeta.
  pose proof (EditorStream_run_coherent inputs EditorStream.unobserved
                EditorStream_unobserved_coherent) as [Hsave Hpending].
  destruct (fst (EditorStream.run EditorStream.unobserved inputs))
    as [m sub captured pend]. cbn in *.
  split; [|split; [|split; [|split; reflexivity]]].
  - destruct captured as [c|].
    + destruct Hsave as (_ & -> & ->). reflexivity.
    + rewrite Hsave. reflexivity.
  - destruct captured as [c|]; [intros _; apply Hsave|congruence].
  - intros Hsub. split; [|apply Hpending, Hsub].
    destruct captured as [c|]; [|exact Hsave].
    destruct Hsave as (_ & _ & Hc). congruence.
Qed.

Lemma EditorStream_changes (s : EditorStream.State)
    (edits : list TextEditEvent) (last : TextEditEvent) :
  EditorStream.subscribed s = true ->
  EditorStream.run s (map EditorStream.OnDidChange (edits ++ [last]))
  = ({| EditorStream.save := EditorStream.save s;
        EditorStream.subscribed := true;
        EditorStream.realSave := EditorStream.realSave s;
        EditorStream.pending := Some last |}, []).
Proof.
  revert s. induction edits as [|edit edits IH]; intros s Hsub.
  - cbn. rewrite Hsub. reflexivity.
  - cbn [app map EditorStream.run EditorStream.step]. rewrite Hsub.
    rewrite IH by reflexivity. reflexivity.
Qed.

Lemma EditorStream_run_app (s : EditorStream.State)
    (l1 l2 : list EditorStream.Input) :
  EditorStream.run s (l1 ++ l2)
  = (fst (EditorStream.run (fst (EditorStream.run s l1)) l2),
     snd (EditorStream.run s l1)
     ++ snd (EditorStream.run (fst (EditorStream.run s l1)) l2)).
Proof.
  revert s. induction l1 as [|i l1 IH]; intros s.
  - cbn. destruct (EditorStream.run s l2). reflexivity.
  - cbn [app EditorStream.run].
    destruct (EditorStream.step s i) as [s1 out1]. rewrite IH.
    destruct (EditorStream.run s1 l1) as [s2 out2]. cbn [fst snd].
    destruct (EditorStream.run s2 l2) as [s3 out3]. cbn [fst snd].
    rewrite app_assoc. reflexivity.
Qed.

(** X19. Changes of the buffer that arrive before the debounce time has
    elapsed collapse into one: after any burst of changes the stream
    emits exactly one type event, with the last edit of the burst, and a
    second lapse of the debounce time without a new change emits
    nothing. *)
Theorem changes_are_debounced (s : EditorStream.State)
    (edits : list TextEditEvent) (last : TextEditEvent) :
  EditorStream.subscribed s = true ->
  let burst := map EditorStream.OnDidChange (edits ++ [last]) in
  snd (EditorStream.run s burst) = []
  /\ snd (EditorStream.run s (burst ++ [EditorStream.DebounceElapsed]))
     = [EditorStream.Emit (type_type last)]
  /\ snd (EditorStream.run s
            (burst ++ [EditorStream.DebounceElapsed;
                       EditorStream.DebounceElapsed]))
     = [EditorStream.Emit (type_type last)]
  /\ EditorStream.pending
       (fst (EditorStream.run s (burst ++ [EditorStream.DebounceElapsed])))
     = None.
Proof.
  intros Hsub. cbv zeta.
  rewrite !EditorStream_run_app, (EditorStream_changes s edits last Hsub).
  repeat split.
Qed.

Lemma changes_are_debounced_witness :
  snd (EditorStream.run EditorStream.unobserved
         (EditorStream.Subscribe true
          :: map EditorStream.OnDidChange
               ([Sample.insert_x; Sample.paste_ab] ++ [Sample.braces])
          ++ [EditorStream.DebounceElapsed]))
  = [EditorStream.Emit (type_type Sample.braces)].
Proof.
  pose proof (changes_are_debounced
                (fst (EditorStream.step EditorStream.unobserved
                        (EditorStream.Subscribe true)))
                [Sample.insert_x; Sample.paste_ab] Sample.braces eq_refl)
    as (_ & Hemit & _).
  exact Hemit.
Defined.

Lemma EditorStream_closed_run (inputs : list EditorStream.Input)
    (s : EditorStream.State) :
  EditorStream.subscribed s = false ->
  EditorStream.save s = EditorStream.RealSave ->
  forallb (fun i => negb (EditorStream.is_subscribe i)) inputs = true ->
  fst (EditorStream.run s inputs) = s
  /\ filter EditorStream.is_emit (snd (EditorStream.run s inputs)) = [].
Proof.
  intros Hsub Hsave. induction inputs as [|i rest IH]; intros Hall.
  - split; reflexivity.
  - cbn [forallb] in Hall. apply andb_true_iff in Hall.
    destruct Hall as [Hi Hrest]. specialize (IH Hrest).
    assert (Hstep : fst (EditorStream.step s i) = s
                    /\ filter EditorStream.is_emit
                         (snd (EditorStream.step s i)) = []).
    { destruct i; cbn in Hi |- *; try discriminate;
        rewrite ?Hsub, ?Hsave; split; reflexivity. }
    cbn [EditorStream.run].
    destruct (EditorStream.step s i) as [s1 out1]. cbn [fst snd] in Hstep.
    destruct Hstep as [-> Hout1].
    destruct (EditorStream.run s rest) as [s2 out2]. cbn [fst snd] in *.
    destruct IH as [-> Hout2]. split; [reflexivity|].
    rewrite filter_app, Hout1, Hout2. reflexivity.
Qed.

(** X20. Once the editor is destroyed (or the stream unsubscribed) its
    stream is over: a change that was still waiting for the debounce is
    dropped, and whatever the buffer and the editor do later, no format
    event is emitted any more; saves go to the real save. *)
Theorem destroyed_editor_emits_nothing
    (before later : list EditorStream.Input) :
  let s := fst (EditorStream.run EditorStream.unobserved before) in
  let closed := fst (EditorStream.step s EditorStream.EditorDestroyed) in
  forallb (fun i => negb (EditorStream.is_subscribe i)) later = true ->
  EditorStream.subscribed closed = false
  /\ EditorStream.pending closed = None
  /\ EditorStream.save closed = EditorStream.RealSave
  /\ filter EditorStream.is_emit (snd (EditorStream.run closed later)) = []
  /\ fst (EditorStream.step s EditorStream.Unsubscribe) = closed.
Proof.
  cbv zeta. intros Hlater.
  pose proof (EditorStream_run_coherent before EditorStream.unobserved
                EditorStream_unobserved_coherent) as Hs.
  set (s := fst (EditorStream.run EditorStream.unobserved before)) in *.
  pose proof (EditorStream_step_coherent s EditorStream.EditorDestroyed Hs)
    as [Hsave Hpending].
  assert (Hsub : EditorStream.subscribed
                   (fst (EditorStream.step s EditorStream.EditorDestroyed))
                 = false).
  { cbn. destruct (EditorStream.subscribed s) eqn:E; [reflexivity|exact E]. }
  assert (Hreal : EditorStream.save
                    (fst (EditorStream.step s EditorStream.EditorDestroyed))
                  = EditorStream.RealSave).
  { destruct (EditorStream.realSave
                (fst (EditorStream.step s EditorStream.EditorDestroyed)))
      as [c|]; [|exact Hsave].
    destruct Hsave as (_ & _ & Hc). congruence. }
  split; [exact Hsub|]. split; [apply Hpending, Hsub|].
  split; [exact Hreal|]. split; [|reflexivity].
  apply (EditorStream_closed_run later _ Hsub Hreal Hlater).
Qed.

Lemma destroyed_editor_emits_nothing_witness :
  filter EditorStream.is_emit
    (snd (EditorStream.run
            (fst (EditorStream.step
                    (fst (EditorStream.run EditorStream.unobserved
                            [EditorStream.Subscribe true;
                             EditorStream.OnDidChange Sample.insert_x]))
                    EditorStream.EditorDestroyed))
            [EditorStream.DebounceElapsed; EditorStream.SaveCalled]))
  = [].
Proof.
  pose proof (destroyed_editor_emits_nothing
                [EditorStream.Subscribe true;
                 EditorStream.OnDidChange Sample.insert_x]
                [EditorStream.DebounceElapsed; EditorStream.SaveCalled]
                eq_refl) as (_ & _ & _ & Hquiet & _).
  exact Hquiet.
Defined.

(* ================================================================== *)
(** ** Properties of the service manager *)
(* ================================================================== *)

Lemma ServiceManager_call_shape (env : ServiceManager.Env)
    (st : ServiceManager.State) (c : ServiceManager.Call) :
  exists serviceName,
    ServiceManager.call env st c
    = if ServiceManager.is_local_call c
      then (snd (fst (ServiceManager.getlocalService env st serviceName)),
            snd (ServiceManager.getlocalService env st serviceName))
      else (st, []).
Proof.
  destruct c as [name|name h|name connection|name h]; exists name;
    unfold ServiceManager.call, ServiceManager.getService,
      ServiceManager.awaitService, ServiceManager.getServiceByConnection,
      ServiceManager.is_local_call;
    try destruct (ServiceManager.is_remote h) as [host|];
    try destruct connection as [host|];
    try destruct (ServiceManager.getByHostname env host);
    try reflexivity;
    destruct (ServiceManager.getlocalService env st name)
      as [[[service|message] st1] effects]; reflexivity.
Qed.

Lemma ServiceManager_getlocalService_created (env : ServiceManager.Env)
    (serviceName : string) (client n : nat) :
  let st := {| ServiceManager.localRpcClient := Some client;
               ServiceManager.created := n |} in
  snd (fst (ServiceManager.getlocalService env st serviceName)) = st
  /\ snd (ServiceManager.getlocalService env st serviceName) = [].
Proof.
  cbv zeta. unfold ServiceManager.getlocalService.
  destruct (ServiceManager.useLocalRpc env); cbn; [split; reflexivity|].
  destruct (filter _ (ServiceManager.servicesConfig env));
    split; reflexivity.
Qed.

Lemma ServiceManager_getlocalService_initial (env : ServiceManager.Env)
    (serviceName : string) :
  (snd (fst (ServiceManager.getlocalService env ServiceManager.initial
               serviceName)),
   snd (ServiceManager.getlocalService env ServiceManager.initial
          serviceName))
  = if ServiceManager.useLocalRpc env
    then ({| ServiceManager.localRpcClient := Some 0;
             ServiceManager.created := 1 |},
          [ServiceManager.Fork; ServiceManager.Track "use-local-rpc"])
    else (ServiceManager.initial, []).
Proof.
  unfold ServiceManager.getlocalService.
  destruct (ServiceManager.useLocalRpc env); cbn; [reflexivity|].
  destruct (filter _ (ServiceManager.servicesConfig env)); reflexivity.
Qed.

Lemma ServiceManager_calls_created (env : ServiceManager.Env)
    (cs : list ServiceManager.Call) (client n : nat) :
  ServiceManager.calls env
    {| ServiceManager.localRpcClient := Some client;
       ServiceManager.created := n |} cs
  = ({| ServiceManager.localRpcClient := Some client;
        ServiceManager.created := n |}, []).
Proof.
  induction cs as [|c cs IH]; [reflexivity|].
  cbn [ServiceManager.calls].
  destruct (ServiceManager_call_shape env
              {| ServiceManager.localRpcClient := Some client;
                 ServiceManager.created := n |} c) as [name Hcall].
  destruct (ServiceManager_getlocalService_created env name client n)
    as [Hst Heff].
  rewrite Hcall, Hst, Heff.
  destruct (ServiceManager.is_local_call c); rewrite IH; reflexivity.
Qed.

Lemma ServiceManager_call_initial (env : ServiceManager.Env)
    (c : ServiceManager.Call) :
  ServiceManager.call env ServiceManager.initial c
  = if ServiceManager.useLocalRpc env && ServiceManager.is_local_call c
    then ({| ServiceManager.localRpcClient := Some 0;
             ServiceManager.created := 1 |},
          [ServiceManager.Fork; ServiceManager.Track "use-local-rpc"])
    else (ServiceManager.initial, []).
Proof.
  destruct (ServiceManager_call_shape env ServiceManager.initial c)
    as [name Hcall].
  rewrite Hcall.
  destruct (ServiceManager.is_local_call c);
    [|rewrite andb_false_r; reflexivity].
  rewrite andb_true_r. apply ServiceManager_getlocalService_initial.
Qed.

(** X21. However the exported functions are called, the local RPC
    server is forked at most once: with [useLocalRpc] on, the first call
    that needs a local service forks it and tracks [use-local-rpc], once,
    and every later call reuses that client; with [useLocalRpc] off, or
    when only remote services are asked for, nothing is forked or
    tracked and [localRpcClient] stays [null]. *)
Theorem local_rpc_client_is_created_once (env : ServiceManager.Env)
    (cs : list ServiceManager.Call) :
  ServiceManager.calls env ServiceManager.initial cs
  = if ServiceManager.useLocalRpc env
       && existsb ServiceManager.is_local_call cs
    then ({| ServiceManager.localRpcClient := Some 0;
             ServiceManager.created := 1 |},
          [ServiceManager.Fork; ServiceManager.Track "use-local-rpc"])
    else (ServiceManager.initial, []).
Proof.
  induction cs as [|c cs IH].
  - cbn. rewrite andb_false_r. reflexivity.
  - cbn [ServiceManager.calls existsb].
    rewrite ServiceManager_call_initial.
    destruct (ServiceManager.useLocalRpc env) eqn:Eflag; cbn [andb] in *.
    + destruct (ServiceManager.is_local_call c); cbn [orb].
      * rewrite ServiceManager_calls_created. reflexivity.
      * rewrite IH. destruct (existsb ServiceManager.is_local_call cs);
          reflexivity.
    + rewrite IH. reflexivity.
Qed.

(** X22. [getService] and [awaitService] go by the host name.  Without a
    host name, or with the empty one, both do what [getlocalService]
    does, with the same effects.  With a host name they never touch the
    local client: [getService] returns the proxy of the connection to
    that host, or [null] when there is none (it does not fall back to the
    local service), and [awaitService] waits for a connection to that
    host whether there is one or not. *)
Theorem services_go_by_hostname (env : ServiceManager.Env)
    (st : ServiceManager.State) (serviceName : string) :
  (forall hostname,
      hostname = None \/ hostname = Some "" ->
      ServiceManager.getService env st serviceName hostname
      = (let '(r, st1, effects) :=
           ServiceManager.getlocalService env st serviceName in
         (ServiceManager.of_local r, st1, effects))
      /\ snd (ServiceManager.awaitService env st serviceName hostname)
         = snd (ServiceManager.getlocalService env st serviceName)
      /\ snd (fst (ServiceManager.awaitService env st serviceName hostname))
         = snd (fst (ServiceManager.getlocalService env st serviceName)))
  /\ (forall h,
         h <> "" ->
         ServiceManager.getService env st serviceName (Some h)
         = (ServiceManager.Returned
              (if ServiceManager.getByHostname env h
               then Some (ServiceManager.RemoteProxy h serviceName)
               else None), st, [])
         /\ ServiceManager.awaitService env st serviceName (Some h)
            = (ServiceManager.WhenConnected h serviceName, st, [])).
Proof.
  split.
  - intros hostname [-> | ->];
      unfold ServiceManager.getService, ServiceManager.awaitService;
      cbn [ServiceManager.is_remote String.eqb];
      destruct (ServiceManager.getlocalService env st serviceName)
        as [[[service|message] st1] effects]; repeat split.
  - intros h Hne.
    unfold ServiceManager.getService, ServiceManager.awaitService,
      ServiceManager.is_remote.
    apply String.eqb_neq in Hne. rewrite Hne.
    destruct (ServiceManager.getByHostname env h); split; reflexivity.
Qed.

(** X23. Without the local RPC, [getlocalService] requires the
    implementation of the first entry of [servicesConfig] that has the
    name of the service, also when several entries have it, and it
    throws "No config found for service ..." exactly when no entry has
    it; it never changes [localRpcClient] and has no effect. *)
Theorem getlocalService_requires_first_config (env : ServiceManager.Env)
    (st : ServiceManager.State) (serviceName : string) :
  ServiceManager.useLocalRpc env = false ->
  (forall before config after,
      ServiceManager.servicesConfig env = before ++ config :: after ->
      ServiceManager.name config = serviceName ->
      (forall c, In c before -> ServiceManager.name c <> serviceName) ->
      ServiceManager.getlocalService env st serviceName
      = (ServiceManager.Got
           (ServiceManager.RequiredModule
              (ServiceManager.implementation config)), st, []))
  /\ ((forall c, In c (ServiceManager.servicesConfig env) ->
                 ServiceManager.name c <> serviceName) <->
      ServiceManager.getlocalService env st serviceName
      = (ServiceManager.Failed
           (ServiceManager.no_config_message serviceName), st, []))
  /\ snd (fst (ServiceManager.getlocalService env st serviceName)) = st
  /\ snd (ServiceManager.getlocalService env st serviceName) = [].
Proof.
  intros Hflag. unfold ServiceManager.getlocalService. rewrite Hflag.
  split; [|split].
  - intros before config after Hcfg Hname Hbefore. rewrite Hcfg.
    rewrite filter_app. rewrite filter_none.
    + cbn [app filter]. apply String.eqb_eq in Hname. rewrite Hname.
      reflexivity.
    + intros c Hin. apply String.eqb_neq. apply Hbefore, Hin.
  - split.
    + intros Hnone. rewrite filter_none; [reflexivity|].
      intros c Hin. apply String.eqb_neq. apply Hnone, Hin.
    + intros Hthrown c Hin Hname.
      destruct (filter _ (ServiceManager.servicesConfig env)) as [|c0 l]
        eqn:Ef; [|discriminate].
      assert (Hc : In c (filter (fun config =>
                                   String.eqb (ServiceManager.name config)
                                     serviceName)
                           (ServiceManager.servicesConfig env))).
      { apply filter_In. split; [exact Hin|]. apply String.eqb_eq, Hname. }
      rewrite Ef in Hc. destruct Hc.
  - destruct (filter _ (ServiceManager.servicesConfig env));
      split; reflexivity.
Qed.

Lemma getlocalService_requires_first_config_witness :
  ServiceManager.getlocalService
    {| ServiceManager.useLocalRpc := false;
       ServiceManager.servicesConfig :=
         [{| ServiceManager.name := "BuckService";
             ServiceManager.implementation := "buck/lib/BuckService.js" |};
          {| ServiceManager.name := "CodeFormat";
             ServiceManager.implementation := "format/lib/A.js" |};
          {| ServiceManager.name := "CodeFormat";
             ServiceManager.implementation := "format/lib/B.js" |}];
       ServiceManager.getByHostname := fun _ => false |}
    ServiceManager.initial "CodeFormat"
  = (ServiceManager.Got (ServiceManager.RequiredModule "format/lib/A.js"),
     ServiceManager.initial, []).
Proof.
  pose proof (getlocalService_requires_first_config
                {| ServiceManager.useLocalRpc := false;
                   ServiceManager.servicesConfig :=
                     [{| ServiceManager.name := "BuckService";
                         ServiceManager.implementation :=
                           "buck/lib/BuckService.js" |};
                      {| ServiceManager.name := "CodeFormat";
                         ServiceManager.implementation := "format/lib/A.js" |};
                      {| ServiceManager.name := "CodeFormat";
                         ServiceManager.implementation :=
                           "format/lib/B.js" |}];
                   ServiceManager.getByHostname := fun _ => false |}
                ServiceManager.initial "CodeFormat" eq_refl)
    as (Hfirst & _).
  apply (Hfirst
           [{| ServiceManager.name := "BuckService";
               ServiceManager.implementation := "buck/lib/BuckService.js" |}]
           {| ServiceManager.name := "CodeFormat";
              ServiceManager.implementation := "format/lib/A.js" |}
           [{| ServiceManager.name := "CodeFormat";
               ServiceManager.implementation := "format/lib/B.js" |}]
           eq_refl eq_refl).
  intros c [<-|[]]. cbn. discriminate.
Defined.

(** X24. A command or a save only ever calls a method that the provider
    has, on a provider that is registered, has a positive priority and
    names the scope of the editor, with the format range of the editor;
    the callback that waits for the answer is the one of that method and
    holds the text of the editor as its snapshot. *)
Theorem command_calls_a_capable_provider (E : JsEngine) (H : AtomHost)
    (registry : list CodeFormatProvider) (ed : TextEditor) (ph : Phase)
    (calls : list ProviderCall) :
  formatCodeInTextEditor E H registry ed = Sub_wait ph calls ->
  exists provider,
    In provider registry
    /\ (0 < inclusionPriority provider)%Z
    /\ In (scopeName ed) (split_comma (selector provider) "")
    /\ ((has_formatCode provider = true
         /\ calls = [Call_formatCode provider (formatRange_of H ed)]
         /\ ph = AwaitProvider (Then_formatCode (text ed)))
        \/ (has_formatEntireFile provider = true
            /\ calls = [Call_formatEntireFile provider (formatRange_of H ed)]
            /\ ph = AwaitProvider (Then_formatEntireFile (text ed)))).
Proof.
  unfold formatCodeInTextEditor.
  destruct (filter command_capable _) as [|provider rest] eqn:Ef;
    [discriminate|].
  assert (Hin : In provider (provider :: rest)) by (left; reflexivity).
  rewrite <- Ef in Hin. apply filter_In in Hin. destruct Hin as [Hin _].
  apply getMatchingProviders_members in Hin.
  destruct Hin as (Hreg & Hpos & Hscope).
  intros Hsub. exists provider.
  split; [exact Hreg|]. split; [exact Hpos|]. split; [exact Hscope|].
  destruct (has_formatCode provider) eqn:Ecode; cbn [andb] in Hsub.
  - destruct (negb (Range_isEmpty (selectedBufferRange ed))
              || negb (has_formatEntireFile provider)).
    + inversion Hsub. left. auto.
    + destruct (has_formatEntireFile provider) eqn:Efile; [|discriminate].
      inversion Hsub. right. auto.
  - destruct (has_formatEntireFile provider) eqn:Efile; [|discriminate].
    inversion Hsub. right. auto.
Qed.

Lemma command_calls_a_capable_provider_witness :
  exists provider,
    In provider [Sample.neither; Sample.range_only]
    /\ (0 < inclusionPriority provider)%Z
    /\ In "source.js" (split_comma (selector provider) "")
    /\ has_formatCode provider = true.
Proof.
  destruct (command_calls_a_capable_provider legacy_engine PlainHost.host
              [Sample.neither; Sample.range_only]
              (Sample.editor_with "abc" Sample.no_selection)
              (AwaitProvider (Then_formatCode "abc"))
              [Call_formatCode Sample.range_only
                 {| start := Sample.at_ 0 0; end_ := Sample.at_ 0 3 |}]
              eq_refl)
    as (provider & Hin & Hpos & Hscope & [(Hcode & _)|(_ & Hcalls & _)]).
  - exists provider. auto.
  - discriminate.
Defined.
